(** * The x86 instruction decoder of Clock Signal

    A shallow embedding of [Decoder<model>::decode]
    (InstructionSets/x86/Decoder.cpp) together with the properties of the
    decoder that its description states: resumability across calls, byte
    accounting, model gating, group decoding through the ModRegRM byte,
    and the reset that follows every posted instruction.

    The decoder object becomes a record that is passed in and handed back;
    the [source] pointer and [end] become the list of bytes not yet read.
    A [return] from the middle of the function is the [Return] case of
    [Flow]; falling through to the next block is [Continue]. *)

From Stdlib Require Import ZArith List Bool Lia.
From Stdlib Require Import Strings.Byte.
Import ListNotations.
Open Scope Z_scope.

(** ** Enumerations

    Decoder.hpp and Instruction.hpp are not part of the sources at hand;
    the enumerations below list the members that Decoder.cpp names. *)

Module Model.

(** The processor generations, in the order in which the decoder is
    instantiated at the end of Decoder.cpp; [model < Model::i80186] and
    the like compare positions in this order. *)
Inductive t : Type := i8086 | i80186 | i80286 | i80386.

Definition rank (m : t) : Z :=
  match m with i8086 => 0 | i80186 => 1 | i80286 => 2 | i80386 => 3 end.

Definition ltb (a b : t) : bool := rank a <? rank b.

Definition neqb (a b : t) : bool := negb (rank a =? rank b).

End Model.

Module Phase.

Inductive t : Type :=
| Instruction
| InstructionPageF
| ModRegRM
| ScaleIndexBase
| DisplacementOrOperand
| ReadyToPost.

End Phase.

Module ModRegRMFormat.

Inductive t : Type :=
| MemReg_Reg
| Reg_MemReg
| MemRegTEST_to_IDIV
| SegReg
| MemRegROL_to_SAR
| MemRegINC_DEC
| MemRegINC_to_PUSH
| MemRegPOP
| MemRegMOV
| MemRegADD_to_CMP
| MemRegADC_to_CMP
| MemRegSLDT_to_VERW
| MemRegSGDT_to_LMSW.

End ModRegRMFormat.

Module Repetition.

Inductive t : Type := None | RepE | RepNE.

End Repetition.

Module Source.

Inductive t : Type :=
| None
| CS | DS | ES | SS
| eAX | eCX | eDX | eBX | eSP | eBP | eSI | eDI
| AH | CH | DH | BH
| Immediate | DirectAddress | Indirect.

End Source.

Module Operation.

(** [Invalid] is the placeholder that the decoder assigns while the
    operation still depends on the ModRegRM byte.  [Undefined] is the
    operation of the value-initialised instruction, see
    [InstructionT_default]. *)
Inductive t : Type :=
| Invalid | Undefined
| AAA | AAD | AAM | AAS | ADC | ADD | AND | ARPL | BOUND
| CALLD | CALLF | CALLN | CBW | CLC | CLD | CLI | CLTS | CMC | CMP | CMPS | CWD
| DAA | DAS | DEC | DIV | ENTER | ESC | HLT | IDIV | IMUL | IN | INC | INS
| INT | INT3 | INTO | IRET
| JB | JBE | JE | JL | JLE | JMPF | JMPN | JNB | JNBE | JNE | JNL | JNLE
| JNO | JNP | JNS | JO | JP | JPCX | JS
| LAHF | LAR | LDS | LEA | LEAVE | LES | LGDT | LLDT | LMSW | LOADALL | LODS
| LOOP | LOOPE | LOOPNE | LSL | LTR
| MOV | MOVS | MUL | NEG | NOP | NOT | OR | OUT | OUTS
| POP | POPA | POPF | PUSH | PUSHA | PUSHF
| RCL | RCR | RETF | RETN | ROL | ROR
| SAHF | SAL | SAR | SBB | SCAS | SGDT | SHR | SLDT | SMSW
| STC | STD | STI | STOS | STR | SUB | TEST | VERR | VERW
| WAIT | XCHG | XLAT | XOR.

End Operation.

(** ** Values the decoder builds *)

(** The class ScaleIndexBase is declared in the absent Instruction.hpp.
    Decoder.cpp builds its values in two ways, from a scale and two
    registers ([rm_table]) and from a raw byte ([sib_ = *source]); the
    value-initialised one is what a fresh decoder holds.  The three are
    kept apart, whatever the class stores. *)
Inductive ScaleIndexBase : Type :=
| ScaleIndexBase_default
| ScaleIndexBase_of (scale : Z) (index base : Source.t)
| ScaleIndexBase_byte (sib : Z).

(** The instruction that [decode] posts: the fields are the arguments of
    the [InstructionT(...)] constructor call, in its order.  [Size] is an
    enumeration whose members stand for their byte counts; a size is kept
    as that number. *)
Record InstructionT : Type := mkInstruction {
  operation : Operation.t;
  source : Source.t;
  destination : Source.t;
  effective_address : ScaleIndexBase;
  lock : bool;
  address_size : Z;
  segment_override : Source.t;
  repetition : Repetition.t;
  operation_size : Z;
  displacement : Z;
  operand : Z;
}.

(** Modelled from the spec: the value-initialised [InstructionT()], whose
    class (Instruction.hpp) is missing from the sources.  The description
    of the decoder calls it the sentinel "undefined" instruction:
    operation Undefined, every other field cleared or at its default. *)
Definition InstructionT_default : InstructionT :=
  mkInstruction Operation.Undefined Source.None Source.None
    ScaleIndexBase_default false 0 Source.None Repetition.None 0 0 0.

(** What [decode] returns: the count and the instruction. *)
Definition Result : Type := (Z * InstructionT)%type.

(** ** The decoder object *)

Record Decoder : Type := mkDecoder {
  phase_ : Phase.t;
  modregrm_format_ : ModRegRMFormat.t;
  operation_ : Operation.t;
  instr_ : byte;
  consumed_ : Z;
  operand_bytes_ : Z;
  source_ : Source.t;
  destination_ : Source.t;
  displacement_ : Z;
  operand_ : Z;
  inward_data_ : Z;
  sib_ : ScaleIndexBase;
  displacement_size_ : Z;
  operand_size_ : Z;
  operation_size_ : Z;
  lock_ : bool;
  address_size_ : Z;
  segment_override_ : Source.t;
  repetition_ : Repetition.t;
}.

Definition set_phase_ (v : Phase.t) (s : Decoder) : Decoder :=
  mkDecoder v (modregrm_format_ s) (operation_ s) (instr_ s) (consumed_ s) (operand_bytes_ s) (source_ s) (destination_ s) (displacement_ s) (operand_ s) (inward_data_ s) (sib_ s) (displacement_size_ s) (operand_size_ s) (operation_size_ s) (lock_ s) (address_size_ s) (segment_override_ s) (repetition_ s).

Definition set_modregrm_format_ (v : ModRegRMFormat.t) (s : Decoder) : Decoder :=
  mkDecoder (phase_ s) v (operation_ s) (instr_ s) (consumed_ s) (operand_bytes_ s) (source_ s) (destination_ s) (displacement_ s) (operand_ s) (inward_data_ s) (sib_ s) (displacement_size_ s) (operand_size_ s) (operation_size_ s) (lock_ s) (address_size_ s) (segment_override_ s) (repetition_ s).

Definition set_operation_ (v : Operation.t) (s : Decoder) : Decoder :=
  mkDecoder (phase_ s) (modregrm_format_ s) v (instr_ s) (consumed_ s) (operand_bytes_ s) (source_ s) (destination_ s) (displacement_ s) (operand_ s) (inward_data_ s) (sib_ s) (displacement_size_ s) (operand_size_ s) (operation_size_ s) (lock_ s) (address_size_ s) (segment_override_ s) (repetition_ s).

Definition set_instr_ (v : byte) (s : Decoder) : Decoder :=
  mkDecoder (phase_ s) (modregrm_format_ s) (operation_ s) v (consumed_ s) (operand_bytes_ s) (source_ s) (destination_ s) (displacement_ s) (operand_ s) (inward_data_ s) (sib_ s) (displacement_size_ s) (operand_size_ s) (operation_size_ s) (lock_ s) (address_size_ s) (segment_override_ s) (repetition_ s).

Definition set_consumed_ (v : Z) (s : Decoder) : Decoder :=
  mkDecoder (phase_ s) (modregrm_format_ s) (operation_ s) (instr_ s) v (operand_bytes_ s) (source_ s) (destination_ s) (displacement_ s) (operand_ s) (inward_data_ s) (sib_ s) (displacement_size_ s) (operand_size_ s) (operation_size_ s) (lock_ s) (address_size_ s) (segment_override_ s) (repetition_ s).

Definition set_operand_bytes_ (v : Z) (s : Decoder) : Decoder :=
  mkDecoder (phase_ s) (modregrm_format_ s) (operation_ s) (instr_ s) (consumed_ s) v (source_ s) (destination_ s) (displacement_ s) (operand_ s) (inward_data_ s) (sib_ s) (displacement_size_ s) (operand_size_ s) (operation_size_ s) (lock_ s) (address_size_ s) (segment_override_ s) (repetition_ s).

Definition set_source_ (v : Source.t) (s : Decoder) : Decoder :=
  mkDecoder (phase_ s) (modregrm_format_ s) (operation_ s) (instr_ s) (consumed_ s) (operand_bytes_ s) v (destination_ s) (displacement_ s) (operand_ s) (inward_data_ s) (sib_ s) (displacement_size_ s) (operand_size_ s) (operation_size_ s) (lock_ s) (address_size_ s) (segment_override_ s) (repetition_ s).

Definition set_destination_ (v : Source.t) (s : Decoder) : Decoder :=
  mkDecoder (phase_ s) (modregrm_format_ s) (operation_ s) (instr_ s) (consumed_ s) (operand_bytes_ s) (source_ s) v (displacement_ s) (operand_ s) (inward_data_ s) (sib_ s) (displacement_size_ s) (operand_size_ s) (operation_size_ s) (lock_ s) (address_size_ s) (segment_override_ s) (repetition_ s).

Definition set_displacement_ (v : Z) (s : Decoder) : Decoder :=
  mkDecoder (phase_ s) (modregrm_format_ s) (operation_ s) (instr_ s) (consumed_ s) (operand_bytes_ s) (source_ s) (destination_ s) v (operand_ s) (inward_data_ s) (sib_ s) (displacement_size_ s) (operand_size_ s) (operation_size_ s) (lock_ s) (address_size_ s) (segment_override_ s) (repetition_ s).

Definition set_operand_ (v : Z) (s : Decoder) : Decoder :=
  mkDecoder (phase_ s) (modregrm_format_ s) (operation_ s) (instr_ s) (consumed_ s) (operand_bytes_ s) (source_ s) (destination_ s) (displacement_ s) v (inward_data_ s) (sib_ s) (displacement_size_ s) (operand_size_ s) (operation_size_ s) (lock_ s) (address_size_ s) (segment_override_ s) (repetition_ s).

Definition set_inward_data_ (v : Z) (s : Decoder) : Decoder :=
  mkDecoder (phase_ s) (modregrm_format_ s) (operation_ s) (instr_ s) (consumed_ s) (operand_bytes_ s) (source_ s) (destination_ s) (displacement_ s) (operand_ s) v (sib_ s) (displacement_size_ s) (operand_size_ s) (operation_size_ s) (lock_ s) (address_size_ s) (segment_override_ s) (repetition_ s).

Definition set_sib_ (v : ScaleIndexBase) (s : Decoder) : Decoder :=
  mkDecoder (phase_ s) (modregrm_format_ s) (operation_ s) (instr_ s) (consumed_ s) (operand_bytes_ s) (source_ s) (destination_ s) (displacement_ s) (operand_ s) (inward_data_ s) v (displacement_size_ s) (operand_size_ s) (operation_size_ s) (lock_ s) (address_size_ s) (segment_override_ s) (repetition_ s).

Definition set_displacement_size_ (v : Z) (s : Decoder) : Decoder :=
  mkDecoder (phase_ s) (modregrm_format_ s) (operation_ s) (instr_ s) (consumed_ s) (operand_bytes_ s) (source_ s) (destination_ s) (displacement_ s) (operand_ s) (inward_data_ s) (sib_ s) v (operand_size_ s) (operation_size_ s) (lock_ s) (address_size_ s) (segment_override_ s) (repetition_ s).

Definition set_operand_size_ (v : Z) (s : Decoder) : Decoder :=
  mkDecoder (phase_ s) (modregrm_format_ s) (operation_ s) (instr_ s) (consumed_ s) (operand_bytes_ s) (source_ s) (destination_ s) (displacement_ s) (operand_ s) (inward_data_ s) (sib_ s) (displacement_size_ s) v (operation_size_ s) (lock_ s) (address_size_ s) (segment_override_ s) (repetition_ s).

Definition set_operation_size_ (v : Z) (s : Decoder) : Decoder :=
  mkDecoder (phase_ s) (modregrm_format_ s) (operation_ s) (instr_ s) (consumed_ s) (operand_bytes_ s) (source_ s) (destination_ s) (displacement_ s) (operand_ s) (inward_data_ s) (sib_ s) (displacement_size_ s) (operand_size_ s) v (lock_ s) (address_size_ s) (segment_override_ s) (repetition_ s).

Definition set_lock_ (v : bool) (s : Decoder) : Decoder :=
  mkDecoder (phase_ s) (modregrm_format_ s) (operation_ s) (instr_ s) (consumed_ s) (operand_bytes_ s) (source_ s) (destination_ s) (displacement_ s) (operand_ s) (inward_data_ s) (sib_ s) (displacement_size_ s) (operand_size_ s) (operation_size_ s) v (address_size_ s) (segment_override_ s) (repetition_ s).

Definition set_segment_override_ (v : Source.t) (s : Decoder) : Decoder :=
  mkDecoder (phase_ s) (modregrm_format_ s) (operation_ s) (instr_ s) (consumed_ s) (operand_bytes_ s) (source_ s) (destination_ s) (displacement_ s) (operand_ s) (inward_data_ s) (sib_ s) (displacement_size_ s) (operand_size_ s) (operation_size_ s) (lock_ s) (address_size_ s) v (repetition_ s).

Definition set_repetition_ (v : Repetition.t) (s : Decoder) : Decoder :=
  mkDecoder (phase_ s) (modregrm_format_ s) (operation_ s) (instr_ s) (consumed_ s) (operand_bytes_ s) (source_ s) (destination_ s) (displacement_ s) (operand_ s) (inward_data_ s) (sib_ s) (displacement_size_ s) (operand_size_ s) (operation_size_ s) (lock_ s) (address_size_ s) (segment_override_ s) v.

(** Modelled from the spec: the member initialisers of Decoder.hpp, which
    is missing from the sources.  A decoder starts in its initial phase
    with no prefix seen, nothing consumed and every tentative field
    cleared.  [address_size_] is never written by [decode]; the value the
    decoder is built with is a parameter. *)
Definition initial (address_size : Z) : Decoder :=
  mkDecoder Phase.Instruction ModRegRMFormat.MemReg_Reg Operation.Invalid x00
    0 0 Source.None Source.None 0 0 0 ScaleIndexBase_default 0 0 0
    false address_size Source.None Repetition.None.

(** Modelled from the spec: [reset_parsing()], defined in the missing
    Decoder.hpp.  Completion and rejection both trigger "an unconditional
    state reset (all prefix and tentative fields cleared) ready for the
    next instruction", the decoder "resets unconditionally to its initial
    phase" and "no field value leaks into the next instruction": every
    field returns to the value it had at construction. *)
Definition reset_parsing (s : Decoder) : Decoder :=
  initial (address_size_ s).

(** ** Control flow inside [decode] *)

Inductive Flow (A : Type) : Type :=
| Return (r : Result) (s : Decoder)
| Continue (a : A).

Arguments Return {A} r s.
Arguments Continue {A} a.

Definition bind {A B : Type} (f : Flow A) (k : A -> Flow B) : Flow B :=
  match f with
  | Return r s => Return r s
  | Continue a => k a
  end.

(** The [undefined()] macro. *)
Definition undefined {A : Type} (s : Decoder) : Flow A :=
  Return (consumed_ s, InstructionT_default) (reset_parsing s).

(** ** The opcode macros *)

Definition SetOpSrcDestSize (op : Operation.t) (src dest : Source.t) (size : Z)
    (s : Decoder) : Decoder :=
  set_operation_size_ size
    (set_destination_ dest (set_source_ src (set_operation_ op s))).

Definition Complete (op : Operation.t) (src dest : Source.t) (size : Z)
    (s : Decoder) : Decoder :=
  set_phase_ Phase.ReadyToPost (SetOpSrcDestSize op src dest size s).

Definition RegData (op : Operation.t) (dest : Source.t) (size : Z)
    (s : Decoder) : Decoder :=
  set_phase_ Phase.DisplacementOrOperand
    (set_operand_size_ size
      (set_source_ Source.Immediate
        (SetOpSrcDestSize op Source.DirectAddress dest size s))).

Definition RegAddr (op : Operation.t) (dest : Source.t) (op_size addr_size : Z)
    (s : Decoder) : Decoder :=
  set_phase_ Phase.DisplacementOrOperand
    (set_operand_size_ addr_size
      (SetOpSrcDestSize op Source.DirectAddress dest op_size s)).

Definition AddrReg (op : Operation.t) (src : Source.t) (op_size addr_size : Z)
    (s : Decoder) : Decoder :=
  set_phase_ Phase.DisplacementOrOperand
    (set_destination_ Source.DirectAddress
      (set_operand_size_ addr_size
        (SetOpSrcDestSize op src Source.DirectAddress op_size s))).

Definition MemRegReg (op : Operation.t) (format : ModRegRMFormat.t) (size : Z)
    (s : Decoder) : Decoder :=
  set_operation_size_ size
    (set_operand_size_ 0
      (set_modregrm_format_ format
        (set_phase_ Phase.ModRegRM (set_operation_ op s)))).

Definition Jump (op : Operation.t) (s : Decoder) : Decoder :=
  set_displacement_size_ 1
    (set_phase_ Phase.DisplacementOrOperand (set_operation_ op s)).

Definition Far (op : Operation.t) (s : Decoder) : Decoder :=
  set_operand_size_ 4
    (set_phase_ Phase.DisplacementOrOperand (set_operation_ op s)).

Definition Displacement16Operand8 (op : Operation.t) (s : Decoder) : Decoder :=
  set_operand_size_ 1
    (set_displacement_size_ 2
      (set_phase_ Phase.DisplacementOrOperand (set_operation_ op s))).

(** The value of a byte as an integer. *)
Definition byte_value (b : byte) : Z := Z.of_N (Byte.to_N b).

(** Conversion to [uint8_t]: the low eight bits. *)
Definition uint8 (v : Z) : byte :=
  match Byte.of_N (Z.to_N (v mod 256)) with
  | Some b => b
  | None => x00
  end.

(** [0xd0] to [0xd3], the shift and rotate group: the three assignments
    that the two pairs of cases share.  The count is the immediate 1 for
    the first pair and [eCX] for the second. *)
Definition shift_group (s : Decoder) : Decoder :=
  set_operation_size_ (1 + Z.land (byte_value (instr_ s)) 1)
    (set_modregrm_format_ ModRegRMFormat.MemRegROL_to_SAR
      (set_phase_ Phase.ModRegRM s)).

(** ** Prefixes and the opcode: the [switch(instr_)] of the first loop *)

Definition opcode (m : Model.t) (s : Decoder) : Flow Decoder :=
  match instr_ s with
  | x00 => Continue (MemRegReg Operation.ADD ModRegRMFormat.MemReg_Reg 1 s)
  | x01 => Continue (MemRegReg Operation.ADD ModRegRMFormat.MemReg_Reg 2 s)
  | x02 => Continue (MemRegReg Operation.ADD ModRegRMFormat.Reg_MemReg 1 s)
  | x03 => Continue (MemRegReg Operation.ADD ModRegRMFormat.Reg_MemReg 2 s)
  | x04 => Continue (RegData Operation.ADD Source.eAX 1 s)
  | x05 => Continue (RegData Operation.ADD Source.eAX 2 s)
  | x06 => Continue (Complete Operation.PUSH Source.ES Source.None 2 s)
  | x07 => Continue (Complete Operation.POP Source.None Source.ES 2 s)
  | x08 => Continue (MemRegReg Operation.OR ModRegRMFormat.MemReg_Reg 1 s)
  | x09 => Continue (MemRegReg Operation.OR ModRegRMFormat.MemReg_Reg 2 s)
  | x0a => Continue (MemRegReg Operation.OR ModRegRMFormat.Reg_MemReg 1 s)
  | x0b => Continue (MemRegReg Operation.OR ModRegRMFormat.Reg_MemReg 2 s)
  | x0c => Continue (RegData Operation.OR Source.eAX 1 s)
  | x0d => Continue (RegData Operation.OR Source.eAX 2 s)
  | x0e => Continue (Complete Operation.PUSH Source.CS Source.None 2 s)
  | x0f => if Model.ltb m Model.i80286 then undefined s else Continue (set_phase_ Phase.InstructionPageF s)
  | x10 => Continue (MemRegReg Operation.ADC ModRegRMFormat.MemReg_Reg 1 s)
  | x11 => Continue (MemRegReg Operation.ADC ModRegRMFormat.MemReg_Reg 2 s)
  | x12 => Continue (MemRegReg Operation.ADC ModRegRMFormat.Reg_MemReg 1 s)
  | x13 => Continue (MemRegReg Operation.ADC ModRegRMFormat.Reg_MemReg 2 s)
  | x14 => Continue (RegData Operation.ADC Source.eAX 1 s)
  | x15 => Continue (RegData Operation.ADC Source.eAX 2 s)
  | x16 => Continue (Complete Operation.PUSH Source.SS Source.None 2 s)
  | x17 => Continue (Complete Operation.POP Source.None Source.SS 2 s)
  | x18 => Continue (MemRegReg Operation.SBB ModRegRMFormat.MemReg_Reg 1 s)
  | x19 => Continue (MemRegReg Operation.SBB ModRegRMFormat.MemReg_Reg 2 s)
  | x1a => Continue (MemRegReg Operation.SBB ModRegRMFormat.Reg_MemReg 1 s)
  | x1b => Continue (MemRegReg Operation.SBB ModRegRMFormat.Reg_MemReg 2 s)
  | x1c => Continue (RegData Operation.SBB Source.eAX 1 s)
  | x1d => Continue (RegData Operation.SBB Source.eAX 2 s)
  | x1e => Continue (Complete Operation.PUSH Source.DS Source.None 2 s)
  | x1f => Continue (Complete Operation.POP Source.None Source.DS 2 s)
  | x20 => Continue (MemRegReg Operation.AND ModRegRMFormat.MemReg_Reg 1 s)
  | x21 => Continue (MemRegReg Operation.AND ModRegRMFormat.MemReg_Reg 2 s)
  | x22 => Continue (MemRegReg Operation.AND ModRegRMFormat.Reg_MemReg 1 s)
  | x23 => Continue (MemRegReg Operation.AND ModRegRMFormat.Reg_MemReg 2 s)
  | x24 => Continue (RegData Operation.AND Source.eAX 1 s)
  | x25 => Continue (RegData Operation.AND Source.eAX 2 s)
  | x26 => Continue (set_segment_override_ Source.ES s)
  | x27 => Continue (Complete Operation.DAA Source.eAX Source.eAX 1 s)
  | x28 => Continue (MemRegReg Operation.SUB ModRegRMFormat.MemReg_Reg 1 s)
  | x29 => Continue (MemRegReg Operation.SUB ModRegRMFormat.MemReg_Reg 2 s)
  | x2a => Continue (MemRegReg Operation.SUB ModRegRMFormat.Reg_MemReg 1 s)
  | x2b => Continue (MemRegReg Operation.SUB ModRegRMFormat.Reg_MemReg 2 s)
  | x2c => Continue (RegData Operation.SUB Source.eAX 1 s)
  | x2d => Continue (RegData Operation.SUB Source.eAX 2 s)
  | x2e => Continue (set_segment_override_ Source.CS s)
  | x2f => Continue (Complete Operation.DAS Source.eAX Source.eAX 1 s)
  | x30 => Continue (MemRegReg Operation.XOR ModRegRMFormat.MemReg_Reg 1 s)
  | x31 => Continue (MemRegReg Operation.XOR ModRegRMFormat.MemReg_Reg 2 s)
  | x32 => Continue (MemRegReg Operation.XOR ModRegRMFormat.Reg_MemReg 1 s)
  | x33 => Continue (MemRegReg Operation.XOR ModRegRMFormat.Reg_MemReg 2 s)
  | x34 => Continue (RegData Operation.XOR Source.eAX 1 s)
  | x35 => Continue (RegData Operation.XOR Source.eAX 2 s)
  | x36 => Continue (set_segment_override_ Source.SS s)
  | x37 => Continue (Complete Operation.AAA Source.eAX Source.eAX 2 s)
  | x38 => Continue (MemRegReg Operation.CMP ModRegRMFormat.MemReg_Reg 1 s)
  | x39 => Continue (MemRegReg Operation.CMP ModRegRMFormat.MemReg_Reg 2 s)
  | x3a => Continue (MemRegReg Operation.CMP ModRegRMFormat.Reg_MemReg 1 s)
  | x3b => Continue (MemRegReg Operation.CMP ModRegRMFormat.Reg_MemReg 2 s)
  | x3c => Continue (RegData Operation.CMP Source.eAX 1 s)
  | x3d => Continue (RegData Operation.CMP Source.eAX 2 s)
  | x3e => Continue (set_segment_override_ Source.DS s)
  | x3f => Continue (Complete Operation.AAS Source.eAX Source.eAX 2 s)
  | x40 => Continue (Complete Operation.INC Source.eAX Source.eAX 2 s)
  | x41 => Continue (Complete Operation.INC Source.eCX Source.eCX 2 s)
  | x42 => Continue (Complete Operation.INC Source.eDX Source.eDX 2 s)
  | x43 => Continue (Complete Operation.INC Source.eBX Source.eBX 2 s)
  | x44 => Continue (Complete Operation.INC Source.eSP Source.eSP 2 s)
  | x45 => Continue (Complete Operation.INC Source.eBP Source.eBP 2 s)
  | x46 => Continue (Complete Operation.INC Source.eSI Source.eSI 2 s)
  | x47 => Continue (Complete Operation.INC Source.eDI Source.eDI 2 s)
  | x48 => Continue (Complete Operation.DEC Source.eAX Source.eAX 2 s)
  | x49 => Continue (Complete Operation.DEC Source.eCX Source.eCX 2 s)
  | x4a => Continue (Complete Operation.DEC Source.eDX Source.eDX 2 s)
  | x4b => Continue (Complete Operation.DEC Source.eBX Source.eBX 2 s)
  | x4c => Continue (Complete Operation.DEC Source.eSP Source.eSP 2 s)
  | x4d => Continue (Complete Operation.DEC Source.eBP Source.eBP 2 s)
  | x4e => Continue (Complete Operation.DEC Source.eSI Source.eSI 2 s)
  | x4f => Continue (Complete Operation.DEC Source.eDI Source.eDI 2 s)
  | x50 => Continue (Complete Operation.PUSH Source.eAX Source.eAX 2 s)
  | x51 => Continue (Complete Operation.PUSH Source.eCX Source.eCX 2 s)
  | x52 => Continue (Complete Operation.PUSH Source.eDX Source.eDX 2 s)
  | x53 => Continue (Complete Operation.PUSH Source.eBX Source.eBX 2 s)
  | x54 => Continue (Complete Operation.PUSH Source.eSP Source.eSP 2 s)
  | x55 => Continue (Complete Operation.PUSH Source.eBP Source.eBP 2 s)
  | x56 => Continue (Complete Operation.PUSH Source.eSI Source.eSI 2 s)
  | x57 => Continue (Complete Operation.PUSH Source.eDI Source.eDI 2 s)
  | x58 => Continue (Complete Operation.POP Source.eAX Source.eAX 2 s)
  | x59 => Continue (Complete Operation.POP Source.eCX Source.eCX 2 s)
  | x5a => Continue (Complete Operation.POP Source.eDX Source.eDX 2 s)
  | x5b => Continue (Complete Operation.POP Source.eBX Source.eBX 2 s)
  | x5c => Continue (Complete Operation.POP Source.eSP Source.eSP 2 s)
  | x5d => Continue (Complete Operation.POP Source.eBP Source.eBP 2 s)
  | x5e => Continue (Complete Operation.POP Source.eSI Source.eSI 2 s)
  | x5f => Continue (Complete Operation.POP Source.eDI Source.eDI 2 s)
  | x60 => if Model.ltb m Model.i80186 then undefined s else Continue (Complete Operation.PUSHA Source.None Source.None 2 s)
  | x61 => if Model.ltb m Model.i80186 then undefined s else Continue (Complete Operation.POPA Source.None Source.None 2 s)
  | x62 => if Model.ltb m Model.i80186 then undefined s else Continue (MemRegReg Operation.BOUND ModRegRMFormat.Reg_MemReg 2 s)
  | x63 => if Model.ltb m Model.i80286 then undefined s else Continue (MemRegReg Operation.ARPL ModRegRMFormat.MemReg_Reg 2 s)
  | x6c => if Model.ltb m Model.i80186 then undefined s else Continue (Complete Operation.INS Source.None Source.None 1 s)
  | x6d => if Model.ltb m Model.i80186 then undefined s else Continue (Complete Operation.INS Source.None Source.None 2 s)
  | x6e => if Model.ltb m Model.i80186 then undefined s else Continue (Complete Operation.OUTS Source.None Source.None 1 s)
  | x6f => if Model.ltb m Model.i80186 then undefined s else Continue (Complete Operation.OUTS Source.None Source.None 2 s)
  | x70 => Continue (Jump Operation.JO s)
  | x71 => Continue (Jump Operation.JNO s)
  | x72 => Continue (Jump Operation.JB s)
  | x73 => Continue (Jump Operation.JNB s)
  | x74 => Continue (Jump Operation.JE s)
  | x75 => Continue (Jump Operation.JNE s)
  | x76 => Continue (Jump Operation.JBE s)
  | x77 => Continue (Jump Operation.JNBE s)
  | x78 => Continue (Jump Operation.JS s)
  | x79 => Continue (Jump Operation.JNS s)
  | x7a => Continue (Jump Operation.JP s)
  | x7b => Continue (Jump Operation.JNP s)
  | x7c => Continue (Jump Operation.JL s)
  | x7d => Continue (Jump Operation.JNL s)
  | x7e => Continue (Jump Operation.JLE s)
  | x7f => Continue (Jump Operation.JNLE s)
  | x80 => Continue (MemRegReg Operation.Invalid ModRegRMFormat.MemRegADD_to_CMP 1 s)
  | x81 => Continue (MemRegReg Operation.Invalid ModRegRMFormat.MemRegADD_to_CMP 2 s)
  | x82 => Continue (MemRegReg Operation.Invalid ModRegRMFormat.MemRegADC_to_CMP 1 s)
  | x83 => Continue (MemRegReg Operation.Invalid ModRegRMFormat.MemRegADC_to_CMP 2 s)
  | x84 => Continue (MemRegReg Operation.TEST ModRegRMFormat.MemReg_Reg 1 s)
  | x85 => Continue (MemRegReg Operation.TEST ModRegRMFormat.MemReg_Reg 2 s)
  | x86 => Continue (MemRegReg Operation.XCHG ModRegRMFormat.Reg_MemReg 1 s)
  | x87 => Continue (MemRegReg Operation.XCHG ModRegRMFormat.Reg_MemReg 2 s)
  | x88 => Continue (MemRegReg Operation.MOV ModRegRMFormat.MemReg_Reg 1 s)
  | x89 => Continue (MemRegReg Operation.MOV ModRegRMFormat.MemReg_Reg 2 s)
  | x8a => Continue (MemRegReg Operation.MOV ModRegRMFormat.Reg_MemReg 1 s)
  | x8b => Continue (MemRegReg Operation.MOV ModRegRMFormat.Reg_MemReg 2 s)
  | x8d => Continue (MemRegReg Operation.LEA ModRegRMFormat.Reg_MemReg 2 s)
  | x8e => Continue (MemRegReg Operation.MOV ModRegRMFormat.SegReg 2 s)
  | x8f => Continue (MemRegReg Operation.POP ModRegRMFormat.MemRegPOP 2 s)
  | x90 => Continue (Complete Operation.NOP Source.None Source.None 0 s)
  | x91 => Continue (Complete Operation.XCHG Source.eAX Source.eCX 2 s)
  | x92 => Continue (Complete Operation.XCHG Source.eAX Source.eDX 2 s)
  | x93 => Continue (Complete Operation.XCHG Source.eAX Source.eBX 2 s)
  | x94 => Continue (Complete Operation.XCHG Source.eAX Source.eSP 2 s)
  | x95 => Continue (Complete Operation.XCHG Source.eAX Source.eBP 2 s)
  | x96 => Continue (Complete Operation.XCHG Source.eAX Source.eSI 2 s)
  | x97 => Continue (Complete Operation.XCHG Source.eAX Source.eDI 2 s)
  | x98 => Continue (Complete Operation.CBW Source.eAX Source.AH 1 s)
  | x99 => Continue (Complete Operation.CWD Source.eAX Source.eDX 2 s)
  | x9a => Continue (Far Operation.CALLF s)
  | x9b => Continue (Complete Operation.WAIT Source.None Source.None 0 s)
  | x9c => Continue (Complete Operation.PUSHF Source.None Source.None 2 s)
  | x9d => Continue (Complete Operation.POPF Source.None Source.None 2 s)
  | x9e => Continue (Complete Operation.SAHF Source.None Source.None 1 s)
  | x9f => Continue (Complete Operation.LAHF Source.None Source.None 1 s)
  | xa0 => Continue (RegAddr Operation.MOV Source.eAX 1 1 s)
  | xa1 => Continue (RegAddr Operation.MOV Source.eAX 2 2 s)
  | xa2 => Continue (AddrReg Operation.MOV Source.eAX 1 1 s)
  | xa3 => Continue (AddrReg Operation.MOV Source.eAX 2 2 s)
  | xa4 => Continue (Complete Operation.MOVS Source.None Source.None 1 s)
  | xa5 => Continue (Complete Operation.MOVS Source.None Source.None 2 s)
  | xa6 => Continue (Complete Operation.CMPS Source.None Source.None 1 s)
  | xa7 => Continue (Complete Operation.CMPS Source.None Source.None 2 s)
  | xa8 => Continue (RegData Operation.TEST Source.eAX 1 s)
  | xa9 => Continue (RegData Operation.TEST Source.eAX 2 s)
  | xaa => Continue (Complete Operation.STOS Source.None Source.None 1 s)
  | xab => Continue (Complete Operation.STOS Source.None Source.None 2 s)
  | xac => Continue (Complete Operation.LODS Source.None Source.None 1 s)
  | xad => Continue (Complete Operation.LODS Source.None Source.None 2 s)
  | xae => Continue (Complete Operation.SCAS Source.None Source.None 1 s)
  | xaf => Continue (Complete Operation.SCAS Source.None Source.None 2 s)
  | xb0 => Continue (RegData Operation.MOV Source.eAX 1 s)
  | xb1 => Continue (RegData Operation.MOV Source.eCX 1 s)
  | xb2 => Continue (RegData Operation.MOV Source.eDX 1 s)
  | xb3 => Continue (RegData Operation.MOV Source.eBX 1 s)
  | xb4 => Continue (RegData Operation.MOV Source.AH 1 s)
  | xb5 => Continue (RegData Operation.MOV Source.CH 1 s)
  | xb6 => Continue (RegData Operation.MOV Source.DH 1 s)
  | xb7 => Continue (RegData Operation.MOV Source.BH 1 s)
  | xb8 => Continue (RegData Operation.MOV Source.eAX 2 s)
  | xb9 => Continue (RegData Operation.MOV Source.eCX 2 s)
  | xba => Continue (RegData Operation.MOV Source.eDX 2 s)
  | xbb => Continue (RegData Operation.MOV Source.eBX 2 s)
  | xbc => Continue (RegData Operation.MOV Source.eSP 2 s)
  | xbd => Continue (RegData Operation.MOV Source.eBP 2 s)
  | xbe => Continue (RegData Operation.MOV Source.eSI 2 s)
  | xbf => Continue (RegData Operation.MOV Source.eDI 2 s)
  | xc2 => Continue (RegData Operation.RETN Source.None 2 s)
  | xc3 => Continue (Complete Operation.RETN Source.None Source.None 2 s)
  | xc4 => Continue (MemRegReg Operation.LES ModRegRMFormat.Reg_MemReg 2 s)
  | xc5 => Continue (MemRegReg Operation.LDS ModRegRMFormat.Reg_MemReg 2 s)
  | xc6 => Continue (MemRegReg Operation.MOV ModRegRMFormat.MemRegMOV 1 s)
  | xc7 => Continue (MemRegReg Operation.MOV ModRegRMFormat.MemRegMOV 2 s)
  | xc8 => if Model.ltb m Model.i80186 then undefined s else Continue (Displacement16Operand8 Operation.ENTER s)
  | xc9 => if Model.ltb m Model.i80186 then undefined s else Continue (Complete Operation.LEAVE Source.None Source.None 0 s)
  | xca => Continue (RegData Operation.RETF Source.None 2 s)
  | xcb => Continue (Complete Operation.RETF Source.None Source.None 4 s)
  | xcc => Continue (Complete Operation.INT3 Source.None Source.None 0 s)
  | xcd => Continue (RegData Operation.INT Source.None 1 s)
  | xce => Continue (Complete Operation.INTO Source.None Source.None 0 s)
  | xcf => Continue (Complete Operation.IRET Source.None Source.None 0 s)
  | xd0 => Continue (set_operand_ 1 (set_source_ Source.Immediate (shift_group s)))
  | xd1 => Continue (set_operand_ 1 (set_source_ Source.Immediate (shift_group s)))
  | xd2 => Continue (set_source_ Source.eCX (shift_group s))
  | xd3 => Continue (set_source_ Source.eCX (shift_group s))
  | xd4 => Continue (RegData Operation.AAM Source.eAX 1 s)
  | xd5 => Continue (RegData Operation.AAD Source.eAX 1 s)
  | xd7 => Continue (Complete Operation.XLAT Source.None Source.None 1 s)
  | xd8 => Continue (MemRegReg Operation.ESC ModRegRMFormat.MemReg_Reg 0 s)
  | xd9 => Continue (MemRegReg Operation.ESC ModRegRMFormat.MemReg_Reg 0 s)
  | xda => Continue (MemRegReg Operation.ESC ModRegRMFormat.MemReg_Reg 0 s)
  | xdb => Continue (MemRegReg Operation.ESC ModRegRMFormat.MemReg_Reg 0 s)
  | xdc => Continue (MemRegReg Operation.ESC ModRegRMFormat.MemReg_Reg 0 s)
  | xdd => Continue (MemRegReg Operation.ESC ModRegRMFormat.MemReg_Reg 0 s)
  | xde => Continue (MemRegReg Operation.ESC ModRegRMFormat.MemReg_Reg 0 s)
  | xdf => Continue (MemRegReg Operation.ESC ModRegRMFormat.MemReg_Reg 0 s)
  | xe0 => Continue (Jump Operation.LOOPNE s)
  | xe1 => Continue (Jump Operation.LOOPE s)
  | xe2 => Continue (Jump Operation.LOOP s)
  | xe3 => Continue (Jump Operation.JPCX s)
  | xe4 => Continue (RegAddr Operation.IN Source.eAX 1 1 s)
  | xe5 => Continue (RegAddr Operation.IN Source.eAX 2 1 s)
  | xe6 => Continue (AddrReg Operation.OUT Source.eAX 1 1 s)
  | xe7 => Continue (AddrReg Operation.OUT Source.eAX 2 1 s)
  | xe8 => Continue (RegData Operation.CALLD Source.None 2 s)
  | xe9 => Continue (RegData Operation.JMPN Source.None 2 s)
  | xea => Continue (Far Operation.JMPF s)
  | xeb => Continue (Jump Operation.JMPN s)
  | xec => Continue (Complete Operation.IN Source.eDX Source.eAX 1 s)
  | xed => Continue (Complete Operation.IN Source.eDX Source.eAX 1 s)
  | xee => Continue (Complete Operation.OUT Source.eAX Source.eDX 1 s)
  | xef => Continue (Complete Operation.OUT Source.eAX Source.eDX 2 s)
  | xf0 => Continue (set_lock_ true s)
  | xf2 => Continue (set_repetition_ Repetition.RepNE s)
  | xf3 => Continue (set_repetition_ Repetition.RepE s)
  | xf4 => Continue (Complete Operation.HLT Source.None Source.None 1 s)
  | xf5 => Continue (Complete Operation.CMC Source.None Source.None 1 s)
  | xf6 => Continue (MemRegReg Operation.Invalid ModRegRMFormat.MemRegTEST_to_IDIV 1 s)
  | xf7 => Continue (MemRegReg Operation.Invalid ModRegRMFormat.MemRegTEST_to_IDIV 2 s)
  | xf8 => Continue (Complete Operation.CLC Source.None Source.None 1 s)
  | xf9 => Continue (Complete Operation.STC Source.None Source.None 1 s)
  | xfa => Continue (Complete Operation.CLI Source.None Source.None 1 s)
  | xfb => Continue (Complete Operation.STI Source.None Source.None 1 s)
  | xfc => Continue (Complete Operation.CLD Source.None Source.None 1 s)
  | xfd => Continue (Complete Operation.STD Source.None Source.None 1 s)
  | xfe => Continue (MemRegReg Operation.Invalid ModRegRMFormat.MemRegINC_DEC 1 s)
  | xff => Continue (MemRegReg Operation.Invalid ModRegRMFormat.MemRegINC_to_PUSH 1 s)
  | _ => undefined s
  end.

(** The first loop: [while(phase_ == Phase::Instruction && source != end)]. *)
Fixpoint instruction_loop (m : Model.t) (s : Decoder) (src : list byte)
    {struct src} : Flow (Decoder * list byte) :=
  match src with
  | [] => Continue (s, [])
  | b :: rest =>
      match phase_ s with
      | Phase.Instruction =>
          bind (opcode m (set_consumed_ (consumed_ s + 1) (set_instr_ b s)))
               (fun s' => instruction_loop m s' rest)
      | _ => Continue (s, src)
      end
  end.

(** ** The additional F page *)

(** Modelled from the spec: [instr_] is declared in the missing
    Decoder.hpp.  The first loop uses it to "retain the instruction
    byte", and the dispatch table is a function of the model, the leading
    byte and the optional second byte: [instr_] is a [uint8_t], so that
    [instr_ = 0x0f00 | *source] keeps the second byte, which the case
    labels [0x00] to [0x06] then select on. *)
Definition page_f_instr (b : byte) : byte :=
  uint8 (Z.lor 0x0f00 (byte_value b)).

Definition opcode_page_f (m : Model.t) (s : Decoder) : Flow Decoder :=
  match instr_ s with
  | x00 => Continue (MemRegReg Operation.Invalid ModRegRMFormat.MemRegSLDT_to_VERW 2 s)
  | x01 => Continue (MemRegReg Operation.Invalid ModRegRMFormat.MemRegSGDT_to_LMSW 2 s)
  | x02 => Continue (MemRegReg Operation.LAR ModRegRMFormat.Reg_MemReg 2 s)
  | x03 => Continue (MemRegReg Operation.LSL ModRegRMFormat.Reg_MemReg 2 s)
  | x05 => if Model.neqb m Model.i80286 then undefined s
           else Continue (Complete Operation.LOADALL Source.None Source.None 0 s)
  | x06 => Continue (Complete Operation.CLTS Source.None Source.None 1 s)
  | _ => undefined s
  end.

Definition instruction_page_f (m : Model.t) (s : Decoder) (src : list byte)
    : Flow (Decoder * list byte) :=
  match phase_ s, src with
  | Phase.InstructionPageF, b :: rest =>
      bind (opcode_page_f m
              (set_consumed_ (consumed_ s + 1) (set_instr_ (page_f_instr b) s)))
           (fun s' => Continue (s', rest))
  | _, _ => Continue (s, src)
  end.

(** ** The ModRegRM byte *)

(** Modelled from the spec: the member of [Source] whose value is 0, which
    the empty row [{}] of [reg_table] holds eight times.  The declaration
    of [Source] is missing; the member that stands for "operand does not
    exist" is taken to come first. *)
Definition Source_zero : Source.t := Source.None.

(** [reg_table[size][index]]; the table has rows 0 to 2 and columns 0 to 7,
    and reads outside them, which the decoder never makes, are given the
    value of the empty row. *)
Definition reg_table (size index : Z) : Source.t :=
  match size with
  | 1 =>
      match index with
      | 0 => Source.eAX | 1 => Source.eCX | 2 => Source.eDX | 3 => Source.eBX
      | 4 => Source.AH | 5 => Source.CH | 6 => Source.DH | 7 => Source.BH
      | _ => Source_zero
      end
  | 2 =>
      match index with
      | 0 => Source.eAX | 1 => Source.eCX | 2 => Source.eDX | 3 => Source.eBX
      | 4 => Source.eSP | 5 => Source.eBP | 6 => Source.eSI | 7 => Source.eDI
      | _ => Source_zero
      end
  | _ => Source_zero
  end.

Definition rm_table (rm : Z) : ScaleIndexBase :=
  match rm with
  | 0 => ScaleIndexBase_of 0 Source.eBX Source.eSI
  | 1 => ScaleIndexBase_of 0 Source.eBX Source.eDI
  | 2 => ScaleIndexBase_of 0 Source.eBP Source.eSI
  | 3 => ScaleIndexBase_of 0 Source.eBP Source.eDI
  | 4 => ScaleIndexBase_of 0 Source.None Source.eSI
  | 5 => ScaleIndexBase_of 0 Source.None Source.eDI
  | 6 => ScaleIndexBase_of 0 Source.None Source.eBP
  | 7 => ScaleIndexBase_of 0 Source.None Source.eBX
  | _ => ScaleIndexBase_default
  end.

Definition seg_table (reg : Z) : Source.t :=
  match reg with
  | 0 => Source.ES | 1 => Source.CS | 2 => Source.SS | 3 => Source.DS
  | _ => Source_zero
  end.

(** [operation_ == Operation::LES || operation_ == Operation::LDS]:
    "LES and LDS accept a memory argument only, not a register". *)
Definition memory_only (op : Operation.t) : bool :=
  match op with
  | Operation.LES | Operation.LDS => true
  | _ => false
  end.

(** [switch(mod)]: the operand that [mod] and [rm] name. *)
Definition memreg_of (mod_ rm : Z) (s : Decoder) : Flow (Decoder * Source.t) :=
  let indirect s := Continue (set_sib_ (rm_table rm) s, Source.Indirect) in
  match mod_ with
  | 0 => indirect s
  | 3 =>
      if memory_only (operation_ s) then undefined s
      else Continue (s, reg_table (operation_size_ s) rm)
  | _ => indirect (set_displacement_size_ (1 + Z.b2z (mod_ =? 2)) s)
  end.

(** [source_ = destination_ = memreg]. *)
Definition set_both (memreg : Source.t) (s : Decoder) : Decoder :=
  set_source_ memreg (set_destination_ memreg s).

(** [switch(modregrm_format_)]. *)
Definition apply_format (reg : Z) (memreg : Source.t) (s : Decoder) : Flow Decoder :=
  let op o s := Continue (set_operation_ o s) in
  match modregrm_format_ s with
  | ModRegRMFormat.Reg_MemReg =>
      Continue (set_destination_ (reg_table (operation_size_ s) reg)
                  (set_source_ memreg s))
  | ModRegRMFormat.MemReg_Reg =>
      Continue (set_destination_ memreg
                  (set_source_ (reg_table (operation_size_ s) reg) s))
  | ModRegRMFormat.MemRegTEST_to_IDIV =>
      let s := set_both memreg s in
      match reg with
      | 0 => op Operation.TEST s
      | 2 => op Operation.NOT s
      | 3 => op Operation.NEG s
      | 4 => op Operation.MUL s
      | 5 => op Operation.IMUL s
      | 6 => op Operation.DIV s
      | 7 => op Operation.IDIV s
      | _ => undefined s
      end
  | ModRegRMFormat.SegReg =>
      let s := set_source_ memreg s in
      if negb (Z.land reg 4 =? 0) then undefined s
      else Continue (set_destination_ (seg_table reg) s)
  | ModRegRMFormat.MemRegROL_to_SAR =>
      let s := set_destination_ memreg s in
      match reg with
      | 0 => op Operation.ROL s
      | 2 => op Operation.ROR s
      | 3 => op Operation.RCL s
      | 4 => op Operation.RCR s
      | 5 => op Operation.SAL s
      | 6 => op Operation.SHR s
      | 7 => op Operation.SAR s
      | _ => undefined s
      end
  | ModRegRMFormat.MemRegINC_DEC =>
      let s := set_both memreg s in
      match reg with
      | 0 => op Operation.INC s
      | 1 => op Operation.DEC s
      | _ => undefined s
      end
  | ModRegRMFormat.MemRegINC_to_PUSH =>
      let s := set_both memreg s in
      let far o s :=
        Continue (set_source_ Source.Immediate
                    (set_operand_size_ 4 (set_operation_ o s))) in
      match reg with
      | 0 => op Operation.INC s
      | 1 => op Operation.DEC s
      | 2 => op Operation.CALLN s
      | 3 => far Operation.CALLF s
      | 4 => op Operation.JMPN s
      | 5 => far Operation.JMPF s
      | 6 => op Operation.PUSH s
      | _ => undefined s
      end
  | ModRegRMFormat.MemRegPOP =>
      let s := set_both memreg s in
      if negb (reg =? 0) then undefined s else Continue s
  | ModRegRMFormat.MemRegMOV =>
      Continue (set_operand_size_ (operation_size_ s)
                  (set_destination_ memreg (set_source_ Source.Immediate s)))
  | ModRegRMFormat.MemRegADD_to_CMP =>
      let s := set_operand_size_ (operation_size_ s) (set_destination_ memreg s) in
      match reg with
      | 1 => op Operation.OR s
      | 2 => op Operation.ADC s
      | 3 => op Operation.SBB s
      | 4 => op Operation.AND s
      | 5 => op Operation.SUB s
      | 6 => op Operation.XOR s
      | 7 => op Operation.CMP s
      | _ => op Operation.ADD s
      end
  | ModRegRMFormat.MemRegADC_to_CMP =>
      let s := set_operand_size_ 1
                 (set_source_ Source.Immediate (set_destination_ memreg s)) in
      match reg with
      | 0 => op Operation.ADD s
      | 2 => op Operation.ADC s
      | 3 => op Operation.SBB s
      | 5 => op Operation.SUB s
      | 7 => op Operation.CMP s
      | _ => undefined s
      end
  | ModRegRMFormat.MemRegSLDT_to_VERW =>
      let s := set_both memreg s in
      match reg with
      | 0 => op Operation.SLDT s
      | 1 => op Operation.STR s
      | 2 => op Operation.LLDT s
      | 3 => op Operation.LTR s
      | 4 => op Operation.VERR s
      | 5 => op Operation.VERW s
      | _ => undefined s
      end
  | ModRegRMFormat.MemRegSGDT_to_LMSW =>
      let s := set_both memreg s in
      match reg with
      | 0 => op Operation.SGDT s
      | 2 => op Operation.LGDT s
      | 4 => op Operation.SMSW s
      | 6 => op Operation.LMSW s
      | _ => undefined s
      end
  end.

(** The three fields of a ModRegRM byte. *)
Definition mod_field (b : byte) : Z := Z.shiftr (byte_value b) 6.
Definition reg_field (b : byte) : Z := Z.land (Z.shiftr (byte_value b) 3) 7.
Definition rm_field (b : byte) : Z := Z.land (byte_value b) 7.

(** The phase after the ModRegRM byte:
    [(displacement_size_ + operand_size_) ? DisplacementOrOperand : ReadyToPost]. *)
Definition after_modregrm (s : Decoder) : Decoder :=
  set_phase_
    (if displacement_size_ s + operand_size_ s =? 0
     then Phase.ReadyToPost else Phase.DisplacementOrOperand) s.

(** The body of the ModRegRM block, given the three fields of the byte. *)
Definition modregrm_fields (mod_ reg rm : Z) (s : Decoder) : Flow Decoder :=
  let s := set_consumed_ (consumed_ s + 1) s in
  bind (memreg_of mod_ rm s) (fun '(s, memreg) =>
  bind (apply_format reg memreg s) (fun s =>
  Continue (after_modregrm s))).

Definition modregrm_byte (b : byte) (s : Decoder) : Flow Decoder :=
  modregrm_fields (mod_field b) (reg_field b) (rm_field b) s.

Definition mod_reg_rm (s : Decoder) (src : list byte) : Flow (Decoder * list byte) :=
  match phase_ s, src with
  | Phase.ModRegRM, b :: rest =>
      bind (modregrm_byte b s) (fun s' => Continue (s', rest))
  | _, _ => Continue (s, src)
  end.

(** ** ScaleIndexBase *)

Definition scale_index_base (s : Decoder) (src : list byte) : Decoder * list byte :=
  match phase_ s, src with
  | Phase.ScaleIndexBase, b :: rest =>
      (set_consumed_ (consumed_ s + 1)
         (set_sib_ (ScaleIndexBase_byte (byte_value b)) s), rest)
  | _, _ => (s, src)
  end.

(** ** Displacement and operand *)

(** Fixed-width conversions. *)
Definition uint64 (v : Z) : Z := v mod 2 ^ 64.
Definition uint16 (v : Z) : Z := v mod 2 ^ 16.
Definition int8 (v : Z) : Z :=
  let u := v mod 2 ^ 8 in if u <? 2 ^ 7 then u else u - 2 ^ 8.
Definition int16 (v : Z) : Z :=
  let u := v mod 2 ^ 16 in if u <? 2 ^ 15 then u else u - 2 ^ 16.

(** One turn of the byte loop:
    [inward_data_ = (inward_data_ >> 8) | (uint64_t(source[0]) << 56)]. *)
Definition shift_in (inward : Z) (b : byte) : Z :=
  Z.lor (Z.shiftr inward 8) (uint64 (Z.shiftl (byte_value b) 56)).

(** [operation_ != Operation::IN && operation_ != Operation::OUT]. *)
Definition not_port_io (op : Operation.t) : bool :=
  match op with
  | Operation.IN | Operation.OUT => false
  | _ => true
  end.

(** [switch(operand_size_)], once every byte has arrived. *)
Definition take_operand (s : Decoder) : Decoder :=
  let two s :=
    set_inward_data_ (uint64 (Z.shiftl (inward_data_ s) 16))
      (set_operand_ (uint16 (Z.shiftr (inward_data_ s) 48)) s) in
  match operand_size_ s with
  | 1 =>
      let s := set_inward_data_ (uint64 (Z.shiftl (inward_data_ s) 8))
                 (set_operand_ (uint16 (Z.shiftr (inward_data_ s) 56)) s) in
      if (operation_size_ s =? 2) && not_port_io (operation_ s)
      then set_operand_
             (Z.lor (operand_ s)
                (if negb (Z.land (operand_ s) 0x80 =? 0) then 0xff00 else 0x0000)) s
      else s
  | 4 => two (set_displacement_size_ 2 s)
  | 2 => two s
  | _ => set_operand_ 0 s
  end.

(** [switch(displacement_size_)]. *)
Definition take_displacement (s : Decoder) : Decoder :=
  match displacement_size_ s with
  | 1 => set_displacement_ (int8 (Z.shiftr (inward_data_ s) 56)) s
  | 2 => set_displacement_ (int16 (Z.shiftr (inward_data_ s) 48)) s
  | _ => set_displacement_ 0 s
  end.

(** The counters are [int]s; their arithmetic is that of the integers,
    which it is for as long as an instruction stays below [2^31] bytes. *)
Definition displacement_or_operand (s : Decoder) (src : list byte)
    : Flow (Decoder * list byte) :=
  match phase_ s, src with
  | Phase.DisplacementOrOperand, _ :: _ =>
      let required_bytes := displacement_size_ s + operand_size_ s in
      let outstanding_bytes := required_bytes - operand_bytes_ s in
      let bytes_to_consume := Z.min (Z.of_nat (length src)) outstanding_bytes in
      let n := Z.to_nat bytes_to_consume in
      let s := set_inward_data_ (fold_left shift_in (firstn n src) (inward_data_ s)) s in
      let src := skipn n src in
      let s := set_consumed_ (consumed_ s + bytes_to_consume) s in
      let s := set_operand_bytes_ (operand_bytes_ s + bytes_to_consume) s in
      if bytes_to_consume =? outstanding_bytes
      then Continue (take_displacement (take_operand (set_phase_ Phase.ReadyToPost s)), src)
      else Return (- (outstanding_bytes - bytes_to_consume), InstructionT_default) s
  | _, _ => Continue (s, src)
  end.

(** ** Completion *)

Definition instruction_of (s : Decoder) : InstructionT :=
  mkInstruction (operation_ s) (source_ s) (destination_ s) (sib_ s) (lock_ s)
    (address_size_ s) (segment_override_ s) (repetition_ s)
    (operation_size_ s) (displacement_ s) (operand_ s).

Definition post (s : Decoder) : Result * Decoder :=
  match phase_ s with
  | Phase.ReadyToPost => ((consumed_ s, instruction_of s), reset_parsing s)
  | _ => ((0, InstructionT_default), s)
  end.

(** ** [Decoder<model>::decode] *)

(** The blocks that read the opcode and the ModRegRM byte; the list that
    comes with the decoder is what [source] has not passed. *)
Definition opcode_blocks (m : Model.t) (s : Decoder) (src : list byte)
    : Flow (Decoder * list byte) :=
  bind (instruction_loop m s src) (fun '(s, src) =>
  bind (instruction_page_f m s src) (fun '(s, src) =>
  mod_reg_rm s src)).

(** The body of [decode] up to its last two statements. *)
Definition decode_blocks (m : Model.t) (s : Decoder) (src : list byte)
    : Flow (Decoder * list byte) :=
  bind (opcode_blocks m s src) (fun '(s, src) =>
  let '(s, src) := scale_index_base s src in
  displacement_or_operand s src).

Definition decode (m : Model.t) (s : Decoder) (src : list byte) : Result * Decoder :=
  match decode_blocks m s src with
  | Return r s' => (r, s')
  | Continue (s', _) => post s'
  end.

Definition count (r : Result * Decoder) : Z := fst (fst r).
Definition instruction (r : Result * Decoder) : InstructionT := snd (fst r).
Definition decoder (r : Result * Decoder) : Decoder := snd r.


(** ** Vocabulary of the properties *)

(** The bytes that the displacement-and-operand phase still waits for:
    [outstanding_bytes]. *)
Definition outstanding (s : Decoder) : Z :=
  displacement_size_ s + operand_size_ s - operand_bytes_ s.

Definition sizes_ok (s : Decoder) : Prop :=
  operand_bytes_ s = 0 /\ 0 <= displacement_size_ s /\ 0 <= operand_size_ s.

(** What holds of a decoder that is in the middle of an instruction, or
    about to start one. *)
Definition waiting (s : Decoder) : Prop :=
  match phase_ s with
  | Phase.Instruction | Phase.InstructionPageF => sizes_ok s
  | Phase.ModRegRM => sizes_ok s /\ 0 <= operation_size_ s
  | Phase.DisplacementOrOperand => 0 < outstanding s
  | Phase.ScaleIndexBase | Phase.ReadyToPost => False
  end.

(** The invariant of the decoder between two calls of [decode]. *)
Definition between_calls (s : Decoder) : Prop :=
  0 <= consumed_ s /\ waiting s.

Definition progressed (s : Decoder) : Prop :=
  phase_ s = Phase.ReadyToPost \/ waiting s.

(** What [decode] does with one byte in each of the first three phases. *)
Definition step_opcode (m : Model.t) (s : Decoder) (b : byte) : Flow Decoder :=
  opcode m (set_consumed_ (consumed_ s + 1) (set_instr_ b s)).

Definition step_page_f (m : Model.t) (s : Decoder) (b : byte) : Flow Decoder :=
  opcode_page_f m (set_consumed_ (consumed_ s + 1) (set_instr_ (page_f_instr b) s)).

Definition step_spec (s : Decoder) (f : Flow Decoder) : Prop :=
  match f with
  | Return r s' =>
      r = (consumed_ s + 1, InstructionT_default) /\ s' = initial (address_size_ s)
  | Continue s' =>
      consumed_ s' = consumed_ s + 1 /\ address_size_ s' = address_size_ s
      /\ progressed s'
  end.

(** The phase of [s] lies after [p] in the order of the blocks. *)
Definition past (p : Phase.t) (s : Decoder) : Prop :=
  match p, phase_ s with
  | Phase.InstructionPageF,
    (Phase.ModRegRM | Phase.DisplacementOrOperand | Phase.ReadyToPost) => True
  | Phase.ModRegRM, (Phase.DisplacementOrOperand | Phase.ReadyToPost) => True
  | _ , _ => False
  end.

(** One byte of displacement or operand, and the end of that phase. *)
Definition operand_byte (b : byte) (s : Decoder) : Decoder :=
  set_operand_bytes_ (operand_bytes_ s + 1)
    (set_consumed_ (consumed_ s + 1)
      (set_inward_data_ (shift_in (inward_data_ s) b) s)).

Definition operands_done (s : Decoder) : Decoder :=
  take_displacement (take_operand (set_phase_ Phase.ReadyToPost s)).

(** The result of [decode] when its first byte yields [f] and [k] is what
    the rest of the buffer then gives. *)
Definition outcome (f : Flow Decoder) (k : Decoder -> Result * Decoder)
    : Result * Decoder :=
  match f with
  | Return r s => (r, s)
  | Continue s => k s
  end.

(** The two things a call with one byte can do. *)
Definition posted_now (s : Decoder) (r : Result * Decoder) : Prop :=
  0 < count r /\ count r = consumed_ s + 1 /\ decoder r = initial (address_size_ s).

Definition still_waiting (s : Decoder) (r : Result * Decoder) : Prop :=
  count r <= 0 /\ between_calls (decoder r)
  /\ consumed_ (decoder r) = consumed_ s + 1
  /\ address_size_ (decoder r) = address_size_ s
  /\ (count r < 0 ->
      phase_ (decoder r) = Phase.DisplacementOrOperand
      /\ outstanding (decoder r) = - count r).

(** The first byte of a buffer: what a call with that byte alone does,
    and how a longer buffer goes on from there. *)
Definition first_byte_spec (m : Model.t) (s : Decoder) (b : byte) : Prop :=
  let r := decode m s [b] in
  (posted_now s r \/ still_waiting s r)
  /\ forall rest, rest <> [] ->
       decode m s (b :: rest) = if 0 <? count r then r else decode m (decoder r) rest.

(** The two things a call with [n] bytes can do. *)
Definition call_posts (s : Decoder) (n : nat) (r : Result * Decoder) : Prop :=
  decoder r = initial (address_size_ s)
  /\ consumed_ s < count r <= consumed_ s + Z.of_nat n.

Definition call_waits (s : Decoder) (n : nat) (r : Result * Decoder) : Prop :=
  count r <= 0 /\ between_calls (decoder r)
  /\ consumed_ (decoder r) = consumed_ s + Z.of_nat n
  /\ address_size_ (decoder r) = address_size_ s
  /\ (count r < 0 ->
      phase_ (decoder r) = Phase.DisplacementOrOperand
      /\ outstanding (decoder r) = - count r).

(** A decoder after a series of calls, each with its own buffer. *)
Definition after_calls (m : Model.t) (s : Decoder) (calls : list (list byte)) : Decoder :=
  fold_left (fun s src => decoder (decode m s src)) calls s.

(** A block either returns or leaves a decoder that [progressed]. *)
Definition flow_progressed (f : Flow (Decoder * list byte)) : Prop :=
  match f with
  | Return _ _ => True
  | Continue (s, _) => progressed s
  end.

(** The phases a decoder passes through. *)
Definition posting_phases : list Phase.t :=
  [Phase.Instruction; Phase.InstructionPageF; Phase.ModRegRM;
   Phase.DisplacementOrOperand; Phase.ReadyToPost].

(** A byte as a signed number, in sixteen bits. *)
Definition sign_extended (b : byte) : Z := uint16 (int8 (byte_value b)).

(** The case labels of each group's [switch(reg)]; for the segment
    registers, the values that pass [reg & 4]. *)
Definition assigned (format : ModRegRMFormat.t) (reg : Z) : bool :=
  let among l := existsb (Z.eqb reg) l in
  match format with
  | ModRegRMFormat.MemRegTEST_to_IDIV => among [0; 2; 3; 4; 5; 6; 7]
  | ModRegRMFormat.MemRegROL_to_SAR => among [0; 2; 3; 4; 5; 6; 7]
  | ModRegRMFormat.MemRegINC_DEC => among [0; 1]
  | ModRegRMFormat.MemRegINC_to_PUSH => among [0; 1; 2; 3; 4; 5; 6]
  | ModRegRMFormat.MemRegPOP => among [0]
  | ModRegRMFormat.MemRegADC_to_CMP => among [0; 2; 3; 5; 7]
  | ModRegRMFormat.MemRegSLDT_to_VERW => among [0; 1; 2; 3; 4; 5]
  | ModRegRMFormat.MemRegSGDT_to_LMSW => among [0; 2; 4; 6]
  | ModRegRMFormat.SegReg => among [0; 1; 2; 3]
  | ModRegRMFormat.MemRegADD_to_CMP => true
  | ModRegRMFormat.MemReg_Reg | ModRegRMFormat.Reg_MemReg
  | ModRegRMFormat.MemRegMOV => true
  end.

(** The opcodes that hand the reg field to a group, with the format each
    one selects; the two on the F page exist from the 80286 on. *)
Definition group_opcodes (m : Model.t) : list (list byte * ModRegRMFormat.t) :=
  [ ([x80], ModRegRMFormat.MemRegADD_to_CMP);
    ([x81], ModRegRMFormat.MemRegADD_to_CMP);
    ([x82], ModRegRMFormat.MemRegADC_to_CMP);
    ([x83], ModRegRMFormat.MemRegADC_to_CMP);
    ([x8e], ModRegRMFormat.SegReg);
    ([x8f], ModRegRMFormat.MemRegPOP);
    ([xd0], ModRegRMFormat.MemRegROL_to_SAR);
    ([xd1], ModRegRMFormat.MemRegROL_to_SAR);
    ([xd2], ModRegRMFormat.MemRegROL_to_SAR);
    ([xd3], ModRegRMFormat.MemRegROL_to_SAR);
    ([xf6], ModRegRMFormat.MemRegTEST_to_IDIV);
    ([xf7], ModRegRMFormat.MemRegTEST_to_IDIV);
    ([xfe], ModRegRMFormat.MemRegINC_DEC);
    ([xff], ModRegRMFormat.MemRegINC_to_PUSH) ]
  ++ (if Model.ltb m Model.i80286 then []
      else [ ([x0f; x00], ModRegRMFormat.MemRegSLDT_to_VERW);
             ([x0f; x01], ModRegRMFormat.MemRegSGDT_to_LMSW) ]).

(** The prefix bytes: segment overrides, LOCK, REPNE and REP. *)
Definition is_prefix (b : byte) : bool :=
  match b with
  | x26 | x2e | x36 | x3e | xf0 | xf2 | xf3 => true
  | _ => false
  end.

(** From the opcode to the ModRegRM phase. *)
Definition at_group (a : Z) (n : Z) (format : ModRegRMFormat.t) (s : Decoder) : Prop :=
  phase_ s = Phase.ModRegRM /\ modregrm_format_ s = format
  /\ consumed_ s = n /\ address_size_ s = a /\ waiting s.

(** A decoder that has read [n] bytes, all of them prefixes. *)
Definition prefixed (a : Z) (n : Z) (s : Decoder) : Prop :=
  phase_ s = Phase.Instruction /\ consumed_ s = n /\ address_size_ s = a /\ waiting s.

(** *** Prefixes *)

(** What a series of prefix bytes leaves in [lock_], [segment_override_]
    and [repetition_]: LOCK if any of them is 0xF0, and the last segment
    override and the last repetition among them. *)
Definition lock_of (ps : list byte) : bool :=
  existsb (fun p => Byte.eqb p xf0) ps.

Definition segment_of (ps : list byte) : Source.t :=
  fold_left (fun seg p =>
               match p with
               | x26 => Source.ES
               | x2e => Source.CS
               | x36 => Source.SS
               | x3e => Source.DS
               | _ => seg
               end) ps Source.None.

Definition repetition_of (ps : list byte) : Repetition.t :=
  fold_left (fun rep p =>
               match p with
               | xf2 => Repetition.RepNE
               | xf3 => Repetition.RepE
               | _ => rep
               end) ps Repetition.None.

(** The decoder that has read the prefixes [ps] and nothing else. *)
Definition after_prefixes (a : Z) (ps : list byte) : Decoder :=
  mkDecoder Phase.Instruction ModRegRMFormat.MemReg_Reg Operation.Invalid
    (last ps x00) (Z.of_nat (length ps)) 0 Source.None Source.None 0 0 0
    ScaleIndexBase_default 0 0 0
    (lock_of ps) a (segment_of ps) (repetition_of ps).

(** The prefix fields of a decoder, and of an instruction. *)
Definition prefixes_are (l : bool) (seg : Source.t) (rep : Repetition.t)
    (s : Decoder) : Prop :=
  lock_ s = l /\ segment_override_ s = seg /\ repetition_ s = rep.

Definition carries (l : bool) (seg : Source.t) (rep : Repetition.t)
    (i : InstructionT) : Prop :=
  lock i = l /\ segment_override i = seg /\ repetition i = rep.

(** A step that returns has rejected the instruction; one that goes on
    leaves the prefix fields as they are. *)
Definition keeps_prefixes (s : Decoder) (f : Flow Decoder) : Prop :=
  match f with
  | Return r _ => snd r = InstructionT_default
  | Continue s' => prefixes_are (lock_ s) (segment_override_ s) (repetition_ s) s'
  end.

(** A posted instruction is the default one or has the given prefix
    fields. *)
Definition posts_with (l : bool) (seg : Source.t) (rep : Repetition.t)
    (r : Result * Decoder) : Prop :=
  0 < count r ->
  instruction r = InstructionT_default \/ carries l seg rep (instruction r).

(** *** Models *)

(** [m] has every opcode of [base], decoded alike: [base] is the 8086 or
    the 80186 and [m] is not older. *)
Definition extends (base m : Model.t) : bool :=
  Model.ltb base Model.i80286 && (Model.rank base <=? Model.rank m).

(** A step that ends the call. *)
Definition returns (f : Flow Decoder) : Prop :=
  match f with
  | Return _ _ => True
  | Continue _ => False
  end.

(** A call that posts the default instruction. *)
Definition rejected (r : Result * Decoder) : Prop :=
  0 < count r /\ instruction r = InstructionT_default.

(** A posted result other than a rejection. *)
Definition accepted (r : Result) : Prop := snd r <> InstructionT_default.

(** *** Sizes *)

(** The sizes of a decoder between calls: none before the opcode, an
    operation size of at most 2 when the ModRegRM byte is due, at most two
    bytes of displacement and four of operand after it. *)
Definition tight (s : Decoder) : Prop :=
  match phase_ s with
  | Phase.Instruction | Phase.InstructionPageF =>
      operand_bytes_ s = 0 /\ displacement_size_ s = 0 /\ operand_size_ s = 0
  | Phase.ModRegRM =>
      operand_bytes_ s = 0 /\ displacement_size_ s = 0 /\ operand_size_ s = 0
      /\ 0 <= operation_size_ s <= 2
  | Phase.DisplacementOrOperand =>
      0 <= operand_bytes_ s
      /\ 0 <= displacement_size_ s <= 2 /\ 0 <= operand_size_ s <= 4
      /\ operand_bytes_ s < displacement_size_ s + operand_size_ s
  | Phase.ScaleIndexBase | Phase.ReadyToPost => False
  end.

(** A step that goes on is ready to post or leaves [tight] sizes. *)
Definition stays_tight (f : Flow Decoder) : Prop :=
  match f with
  | Return _ _ => True
  | Continue s' => phase_ s' = Phase.ReadyToPost \/ tight s'
  end.

(** A call never asks for more than five bytes, and leaves [tight] sizes
    when it has not posted. *)
Definition well_sized (r : Result * Decoder) : Prop :=
  -5 <= count r /\ (count r <= 0 -> tight (decoder r)).

(** *** The operation of a posted instruction *)

(** An operation that names an instruction: neither the placeholder nor
    the operation of the undefined instruction. *)
Definition named (op : Operation.t) : bool :=
  match op with
  | Operation.Invalid | Operation.Undefined => false
  | _ => true
  end.

(** The formats whose [switch(reg)] assigns [operation_] in every case
    that does not reject. *)
Definition assigns (format : ModRegRMFormat.t) : bool :=
  match format with
  | ModRegRMFormat.MemRegTEST_to_IDIV | ModRegRMFormat.MemRegROL_to_SAR
  | ModRegRMFormat.MemRegINC_DEC | ModRegRMFormat.MemRegINC_to_PUSH
  | ModRegRMFormat.MemRegADD_to_CMP | ModRegRMFormat.MemRegADC_to_CMP
  | ModRegRMFormat.MemRegSLDT_to_VERW | ModRegRMFormat.MemRegSGDT_to_LMSW => true
  | _ => false
  end.

(** The operation of a decoder between calls: named, unless the ModRegRM
    byte is due and its format will name it. *)
Definition settled (s : Decoder) : Prop :=
  match phase_ s with
  | Phase.Instruction | Phase.InstructionPageF => True
  | Phase.ModRegRM =>
      assigns (modregrm_format_ s) = true \/ named (operation_ s) = true
  | Phase.DisplacementOrOperand | Phase.ReadyToPost => named (operation_ s) = true
  | Phase.ScaleIndexBase => False
  end.

(** A step that goes on leaves a [settled] decoder. *)
Definition stays_settled (f : Flow Decoder) : Prop :=
  match f with
  | Return _ _ => True
  | Continue s' => settled s'
  end.

(** A posted instruction is the default one or has a named operation;
    a call that has not posted leaves a [settled] decoder. *)
Definition posts_named (r : Result * Decoder) : Prop :=
  (0 < count r ->
   instruction r = InstructionT_default \/ named (operation (instruction r)) = true)
  /\ (count r <= 0 -> settled (decoder r)).

(** *** The bytes of displacements and operands *)

(** The number that bytes spell, least significant byte first. *)
Definition le_value (bs : list byte) : Z :=
  fold_right (fun b v => byte_value b + 256 * v) 0 bs.

(** A displacement as the code reads it: one byte as an [int8_t], two as
    an [int16_t], none as 0. *)
Definition signed_le (bs : list byte) : Z :=
  match bs with
  | [_] => int8 (le_value bs)
  | _ => int16 (le_value bs)
  end.

(** The decoder that has taken the bytes [bs] in its last phase. *)
Definition fed (bs : list byte) (s : Decoder) : Decoder :=
  set_operand_bytes_ (operand_bytes_ s + Z.of_nat (length bs))
    (set_consumed_ (consumed_ s + Z.of_nat (length bs))
      (set_inward_data_ (fold_left shift_in bs (inward_data_ s)) s)).

(** *** The accumulator between calls *)

(** A step that goes on leaves [inward_data_] as it is. *)
Definition keeps_inward (s : Decoder) (f : Flow Decoder) : Prop :=
  match f with
  | Return _ _ => True
  | Continue s' => inward_data_ s' = inward_data_ s
  end.

(** [inward_data_] is a [uint64_t]. *)
Definition in_uint64 (s : Decoder) : Prop := 0 <= inward_data_ s < 2 ^ 64.

(** *** Whole instructions *)

(** The fields of the posted instruction that the last phase leaves as the
    opcode and the ModRegRM byte set them. *)
Definition framed (s : Decoder) (r : Result * Decoder) : Prop :=
  operation (instruction r) = operation_ s
  /\ source (instruction r) = source_ s
  /\ destination (instruction r) = destination_ s
  /\ effective_address (instruction r) = sib_ s
  /\ operation_size (instruction r) = operation_size_ s
  /\ decoder r = initial (address_size_ s).

(** *** Short jumps *)

(** The opcodes of the [Jump] macro, with their operations. *)
Definition short_jumps : list (byte * Operation.t) :=
  [ (x70, Operation.JO); (x71, Operation.JNO); (x72, Operation.JB);
    (x73, Operation.JNB); (x74, Operation.JE); (x75, Operation.JNE);
    (x76, Operation.JBE); (x77, Operation.JNBE); (x78, Operation.JS);
    (x79, Operation.JNS); (x7a, Operation.JP); (x7b, Operation.JNP);
    (x7c, Operation.JL); (x7d, Operation.JNL); (x7e, Operation.JLE);
    (x7f, Operation.JNLE); (xe0, Operation.LOOPNE); (xe1, Operation.LOOPE);
    (xe2, Operation.LOOP); (xe3, Operation.JPCX); (xeb, Operation.JMPN) ].

(** *** Two operands *)

(** The word-sized opcodes of the form [reg, mem/reg] that every model
    has, with their operations. *)
Definition word_loads : list (byte * Operation.t) :=
  [ (x03, Operation.ADD); (x0b, Operation.OR); (x13, Operation.ADC);
    (x1b, Operation.SBB); (x23, Operation.AND); (x2b, Operation.SUB);
    (x33, Operation.XOR); (x3b, Operation.CMP); (x87, Operation.XCHG);
    (x8b, Operation.MOV); (x8d, Operation.LEA);
    (xc4, Operation.LES); (xc5, Operation.LDS) ].

(** *** Shifts and rotates by one *)

(** The displacement bytes that follow a ModRegRM byte. *)
Definition displacement_bytes (b : byte) : Z :=
  match mod_field b with
  | 1 => 1
  | 2 => 2
  | _ => 0
  end.

(** The operations of [MemRegROL_to_SAR], by the reg field. *)
Definition rotation (reg : Z) : option Operation.t :=
  match reg with
  | 0 => Some Operation.ROL
  | 2 => Some Operation.ROR
  | 3 => Some Operation.RCL
  | 4 => Some Operation.RCR
  | 5 => Some Operation.SAL
  | 6 => Some Operation.SHR
  | 7 => Some Operation.SAR
  | _ => None
  end.

(** *** A caller

    The caller hands the decoder one chunk of the stream after the other.
    A positive count says how many bytes the posted instruction took in
    all; the caller knows how many of them it had supplied in earlier
    calls ([pending]), skips the rest in the chunk at hand and offers what
    is left of the chunk again.  Any other count means that the chunk has
    been taken whole. *)
Record Caller : Type := mkCaller {
  machine : Decoder;
  pending : Z;
  posted : list Result;
}.

Definition start (address_size : Z) : Caller :=
  mkCaller (initial address_size) 0 [].

Definition on_posted (d : Caller) (r : Result * Decoder) : Caller :=
  mkCaller (decoder r) 0 (posted d ++ [fst r]).

Definition on_consumed (d : Caller) (r : Result * Decoder) (n : Z) : Caller :=
  mkCaller (decoder r) (pending d + n) (posted d).

Fixpoint drive_chunk (fuel : nat) (m : Model.t) (d : Caller) (chunk : list byte)
    : Caller :=
  match fuel, chunk with
  | S fuel, _ :: _ =>
      let r := decode m (machine d) chunk in
      if 0 <? count r
      then drive_chunk fuel m (on_posted d r)
             (skipn (Z.to_nat (count r - pending d)) chunk)
      else on_consumed d r (Z.of_nat (length chunk))
  | _, _ => d
  end.

(** Each posted instruction takes at least one byte of the chunk, so the
    length of the chunk is fuel enough ([feed_by_bytes]). *)
Definition feed (m : Model.t) (d : Caller) (chunk : list byte) : Caller :=
  drive_chunk (length chunk) m d chunk.

Definition drive (m : Model.t) (address_size : Z) (chunks : list (list byte)) : Caller :=
  fold_left (feed m) chunks (start address_size).

(** The stream taken one byte per call. *)
Fixpoint by_bytes (m : Model.t) (d : Caller) (bs : list byte) : Caller :=
  match bs with
  | [] => d
  | b :: bs =>
      let r := decode m (machine d) [b] in
      by_bytes m (if 0 <? count r then on_posted d r else on_consumed d r 1) bs
  end.

Definition in_step (d : Caller) : Prop :=
  between_calls (machine d) /\ pending d = consumed_ (machine d).

(** * The decoder, one byte at a time *)

(** ** What one byte does in each phase *)

Ltac step_cases :=
  cbv -[Z.add Z.sub Z.lt Z.le Z.eqb];
  repeat match goal with
         | |- context [Z.eqb ?a ?b] => destruct (Z.eqb_spec a b)
         end;
  repeat apply conj;
  try reflexivity; try discriminate;
  try (right; lia); try (left; reflexivity);
  try (intros ? [= <-]; exact I).

Lemma opcode_spec m s b :
  phase_ s = Phase.Instruction -> waiting s -> step_spec s (step_opcode m s b).
Proof.
  destruct s as [ph fmt op ins c ob sr de di opd inw sib ds os ops lk asz seg rep].
  cbn [phase_]; intros -> W.
  cbv [waiting sizes_ok phase_ operand_bytes_ displacement_size_ operand_size_] in W.
  destruct W as (-> & Hd & Ho).
  destruct b, m; step_cases.
Qed.

Lemma page_f_instr_byte b : page_f_instr b = b.
Proof. destruct b; vm_compute; reflexivity. Qed.

Lemma page_f_spec m s b :
  phase_ s = Phase.InstructionPageF -> waiting s ->
  step_spec s (step_page_f m s b)
  /\ (forall s', step_page_f m s b = Continue s' -> past Phase.InstructionPageF s').
Proof.
  unfold step_page_f. rewrite page_f_instr_byte.
  destruct s as [ph fmt op ins c ob sr de di opd inw sib ds os ops lk asz seg rep].
  cbn [phase_]; intros -> W.
  cbv [waiting sizes_ok phase_ operand_bytes_ displacement_size_ operand_size_] in W.
  destruct W as (-> & Hd & Ho).
  destruct b, m; step_cases.
Qed.

Lemma mod_field_cases b : In (mod_field b) [0; 1; 2; 3].
Proof. destruct b; vm_compute; tauto. Qed.

Lemma reg_field_cases b : In (reg_field b) [0; 1; 2; 3; 4; 5; 6; 7].
Proof. destruct b; vm_compute; tauto. Qed.

Lemma rm_field_cases b : In (rm_field b) [0; 1; 2; 3; 4; 5; 6; 7].
Proof. destruct b; vm_compute; tauto. Qed.

Ltac each_of H :=
  cbn [In] in H;
  repeat match type of H with
         | _ \/ _ => destruct H as [H|H]
         end;
  [subst .. | contradiction H].

Lemma modregrm_spec s b :
  phase_ s = Phase.ModRegRM -> waiting s ->
  step_spec s (modregrm_byte b s)
  /\ (forall s', modregrm_byte b s = Continue s' -> past Phase.ModRegRM s').
Proof.
  unfold modregrm_byte.
  pose proof (mod_field_cases b) as Hmod. pose proof (reg_field_cases b) as Hreg.
  generalize dependent (rm_field b). generalize dependent (reg_field b).
  generalize dependent (mod_field b). intros mod_ Hmod reg Hreg rm.
  destruct s as [ph fmt op ins c ob sr de di opd inw sib ds os ops lk asz seg rep].
  cbn [phase_]; intros -> W.
  cbv [waiting sizes_ok phase_ operand_bytes_ displacement_size_ operand_size_
       operation_size_] in W.
  destruct W as ((-> & Hd & Ho) & Hs).
  unfold modregrm_fields, memreg_of.
  cbn [operation_ set_consumed_].
  each_of Hmod; each_of Hreg;
    destruct (memory_only op); destruct fmt; step_cases.
Qed.

(** ** Blocks that have nothing to do *)

Lemma instruction_loop_skip m s src :
  phase_ s <> Phase.Instruction -> instruction_loop m s src = Continue (s, src).
Proof. destruct src; cbn; [reflexivity|]. destruct (phase_ s); congruence. Qed.

Lemma instruction_page_f_skip m s src :
  phase_ s <> Phase.InstructionPageF -> instruction_page_f m s src = Continue (s, src).
Proof. unfold instruction_page_f. destruct (phase_ s), src; congruence. Qed.

Lemma mod_reg_rm_skip s src :
  phase_ s <> Phase.ModRegRM -> mod_reg_rm s src = Continue (s, src).
Proof. unfold mod_reg_rm. destruct (phase_ s), src; congruence. Qed.

Lemma scale_index_base_skip s src :
  phase_ s <> Phase.ScaleIndexBase -> scale_index_base s src = (s, src).
Proof. unfold scale_index_base. destruct (phase_ s), src; congruence. Qed.

Lemma displacement_or_operand_skip s src :
  phase_ s <> Phase.DisplacementOrOperand ->
  displacement_or_operand s src = Continue (s, src).
Proof. unfold displacement_or_operand. destruct (phase_ s), src; congruence. Qed.

Lemma instruction_page_f_nil m s : instruction_page_f m s [] = Continue (s, []).
Proof. unfold instruction_page_f. destruct (phase_ s); reflexivity. Qed.

Lemma mod_reg_rm_nil s : mod_reg_rm s [] = Continue (s, []).
Proof. unfold mod_reg_rm. destruct (phase_ s); reflexivity. Qed.

Lemma scale_index_base_nil s : scale_index_base s [] = (s, []).
Proof. unfold scale_index_base. destruct (phase_ s); reflexivity. Qed.

Lemma displacement_or_operand_nil s : displacement_or_operand s [] = Continue (s, []).
Proof. unfold displacement_or_operand. destruct (phase_ s); reflexivity. Qed.

Lemma decode_nil m s : decode m s [] = post s.
Proof.
  unfold decode, decode_blocks, opcode_blocks.
  cbn [instruction_loop bind].
  rewrite instruction_page_f_nil. cbn [bind].
  rewrite mod_reg_rm_nil. cbn [bind].
  rewrite scale_index_base_nil, displacement_or_operand_nil.
  reflexivity.
Qed.

Lemma decode_ready m s src :
  phase_ s = Phase.ReadyToPost -> decode m s src = post s.
Proof.
  intros H. unfold decode, decode_blocks, opcode_blocks.
  rewrite instruction_loop_skip by congruence. cbn [bind].
  rewrite instruction_page_f_skip by congruence. cbn [bind].
  rewrite mod_reg_rm_skip by congruence. cbn [bind].
  rewrite scale_index_base_skip by congruence.
  rewrite displacement_or_operand_skip by congruence.
  reflexivity.
Qed.

(** ** The first byte of a buffer *)

Lemma decode_instruction m s b rest :
  phase_ s = Phase.Instruction ->
  decode m s (b :: rest) =
  outcome (step_opcode m s b) (fun s' => decode m s' rest).
Proof.
  intros H. unfold decode at 1, decode_blocks, opcode_blocks.
  cbn [instruction_loop]. rewrite H. fold (step_opcode m s b).
  destruct (step_opcode m s b); reflexivity.
Qed.

Lemma decode_page_f m s b rest :
  phase_ s = Phase.InstructionPageF ->
  (forall s', step_page_f m s b = Continue s' -> past Phase.InstructionPageF s') ->
  decode m s (b :: rest) =
  outcome (step_page_f m s b) (fun s' => decode m s' rest).
Proof.
  intros H P. unfold decode at 1, decode_blocks, opcode_blocks.
  rewrite instruction_loop_skip by congruence. cbn [bind].
  unfold instruction_page_f. rewrite H. fold (step_page_f m s b).
  destruct (step_page_f m s b) as [r s'|s']; [reflexivity|].
  specialize (P s' eq_refl). unfold past in P.
  cbn [bind outcome].
  unfold decode, decode_blocks, opcode_blocks.
  rewrite instruction_loop_skip by (destruct (phase_ s'); easy). cbn [bind].
  rewrite instruction_page_f_skip by (destruct (phase_ s'); easy).
  reflexivity.
Qed.

Lemma decode_modregrm m s b rest :
  phase_ s = Phase.ModRegRM ->
  (forall s', modregrm_byte b s = Continue s' -> past Phase.ModRegRM s') ->
  decode m s (b :: rest) =
  outcome (modregrm_byte b s) (fun s' => decode m s' rest).
Proof.
  intros H P. unfold decode at 1, decode_blocks, opcode_blocks.
  rewrite instruction_loop_skip by congruence. cbn [bind].
  rewrite instruction_page_f_skip by congruence. cbn [bind].
  unfold mod_reg_rm. rewrite H.
  destruct (modregrm_byte b s) as [r s'|s']; [reflexivity|].
  specialize (P s' eq_refl). unfold past in P.
  cbn [bind outcome].
  unfold decode, decode_blocks, opcode_blocks.
  rewrite instruction_loop_skip by (destruct (phase_ s'); easy). cbn [bind].
  rewrite instruction_page_f_skip by (destruct (phase_ s'); easy). cbn [bind].
  rewrite mod_reg_rm_skip by (destruct (phase_ s'); easy).
  reflexivity.
Qed.

Ltac fields :=
  cbn [phase_ modregrm_format_ operation_ instr_ consumed_ operand_bytes_ source_
       destination_ displacement_ operand_ inward_data_ sib_ displacement_size_
       operand_size_ operation_size_ lock_ address_size_ segment_override_
       repetition_
       set_phase_ set_modregrm_format_ set_operation_ set_instr_ set_consumed_
       set_operand_bytes_ set_source_ set_destination_ set_displacement_
       set_operand_ set_inward_data_ set_sib_ set_displacement_size_
       set_operand_size_ set_operation_size_ set_lock_ set_segment_override_
       set_repetition_] in *.

Lemma displacement_or_operand_cons s b rest :
  phase_ s = Phase.DisplacementOrOperand -> 0 < outstanding s ->
  displacement_or_operand s (b :: rest) =
  if outstanding s =? 1
  then Continue (operands_done (operand_byte b s), rest)
  else match rest with
       | [] => Return (- (outstanding s - 1), InstructionT_default) (operand_byte b s)
       | _ :: _ => displacement_or_operand (operand_byte b s) rest
       end.
Proof.
  destruct s as [ph fmt op ins c ob sr de di opd inw sib ds os ops lk asz seg rep].
  unfold outstanding, displacement_or_operand, operand_byte, operands_done.
  fields. intros -> Hn.
  set (n := ds + os - ob) in *.
  destruct (Z.eqb_spec n 1) as [E|E].
  - replace (Z.min (Z.of_nat (length (b :: rest))) n) with 1
      by (cbn [length]; lia).
    rewrite E. cbn [Z.to_nat Pos.to_nat Pos.iter_op Nat.add firstn skipn fold_left Z.eqb Pos.eqb].
    reflexivity.
  - destruct rest as [|b' rest].
    + replace (Z.min (Z.of_nat (length [b])) n) with 1 by (cbn [length]; lia).
      destruct (Z.eqb_spec 1 n); [lia|].
      cbn [Z.to_nat Pos.to_nat Pos.iter_op Nat.add firstn skipn fold_left].
      reflexivity.
    + fold n.
      replace (ds + os - (ob + 1))
        with (n - 1) by lia.
      set (k := Z.min (Z.of_nat (length (b' :: rest))) (n - 1)).
      replace (Z.min (Z.of_nat (length (b :: b' :: rest))) n) with (1 + k)
        by (subst k; cbn [length]; lia).
      assert (Hk : 0 <= k) by (subst k; cbn [length]; lia).
      rewrite Z2Nat.inj_add by lia.
      change (Z.to_nat 1) with 1%nat.
      cbn [Nat.add firstn skipn fold_left].
      replace (1 + k =? n) with (k =? n - 1)
        by (destruct (Z.eqb_spec k (n - 1)), (Z.eqb_spec (1 + k) n); lia || reflexivity).
      replace (c + (1 + k)) with (c + 1 + k) by lia.
      replace (ob + (1 + k)) with (ob + 1 + k) by lia.
      replace (n - (1 + k)) with (n - 1 - k) by lia.
      reflexivity.
Qed.

(** [take_operand] and [take_displacement] leave the phase, the count of
    consumed bytes and the address size alone. *)
Ltac by_branches f :=
  unfold f;
  repeat match goal with
         | |- context [match ?x with _ => _ end] => destruct x
         end;
  reflexivity.

Lemma phase_take_operand s : phase_ (take_operand s) = phase_ s.
Proof. by_branches take_operand. Qed.

Lemma consumed_take_operand s : consumed_ (take_operand s) = consumed_ s.
Proof. by_branches take_operand. Qed.

Lemma address_size_take_operand s : address_size_ (take_operand s) = address_size_ s.
Proof. by_branches take_operand. Qed.

Lemma phase_take_displacement s : phase_ (take_displacement s) = phase_ s.
Proof. by_branches take_displacement. Qed.

Lemma consumed_take_displacement s : consumed_ (take_displacement s) = consumed_ s.
Proof. by_branches take_displacement. Qed.

Lemma address_size_take_displacement s :
  address_size_ (take_displacement s) = address_size_ s.
Proof. by_branches take_displacement. Qed.

Lemma operand_take_displacement s : operand_ (take_displacement s) = operand_ s.
Proof. by_branches take_displacement. Qed.

Lemma operands_done_facts s :
  phase_ (operands_done s) = Phase.ReadyToPost
  /\ consumed_ (operands_done s) = consumed_ s
  /\ address_size_ (operands_done s) = address_size_ s.
Proof.
  unfold operands_done.
  rewrite phase_take_displacement, phase_take_operand,
    consumed_take_displacement, consumed_take_operand,
    address_size_take_displacement, address_size_take_operand.
  repeat split.
Qed.

Lemma decode_operand m s b rest :
  phase_ s = Phase.DisplacementOrOperand -> 0 < outstanding s ->
  decode m s (b :: rest) =
  if outstanding s =? 1
  then post (operands_done (operand_byte b s))
  else match rest with
       | [] => ((- (outstanding s - 1), InstructionT_default), operand_byte b s)
       | _ :: _ => decode m (operand_byte b s) rest
       end.
Proof.
  intros H Hn.
  assert (skip : forall s' src, phase_ s' = Phase.DisplacementOrOperand ->
            decode m s' src =
            match displacement_or_operand s' src with
            | Return r s'' => (r, s'')
            | Continue (s'', _) => post s''
            end).
  { intros s' src H'. unfold decode, decode_blocks, opcode_blocks.
    rewrite instruction_loop_skip by congruence. cbn [bind].
    rewrite instruction_page_f_skip by congruence. cbn [bind].
    rewrite mod_reg_rm_skip by congruence. cbn [bind].
    rewrite scale_index_base_skip by congruence. reflexivity. }
  rewrite skip by assumption.
  rewrite displacement_or_operand_cons by assumption.
  destruct (outstanding s =? 1); [reflexivity|].
  destruct rest; [reflexivity|].
  rewrite skip by assumption. reflexivity.
Qed.

Lemma post_ready s :
  phase_ s = Phase.ReadyToPost ->
  post s = ((consumed_ s, instruction_of s), initial (address_size_ s)).
Proof. unfold post. intros ->. reflexivity. Qed.

Lemma post_waiting s : waiting s -> post s = ((0, InstructionT_default), s).
Proof. unfold post, waiting. destruct (phase_ s); easy. Qed.

Lemma first_byte_by_step m s b f :
  0 <= consumed_ s -> step_spec s f ->
  (forall rest, decode m s (b :: rest) = outcome f (fun s' => decode m s' rest)) ->
  first_byte_spec m s b.
Proof.
  intros Hc S E. unfold first_byte_spec. cbv zeta.
  destruct f as [r s'|s']; cbn [step_spec outcome] in *.
  - destruct S as [-> ->].
    rewrite (E []). split.
    + left. unfold posted_now, count, decoder. cbn. repeat split; lia.
    + intros rest _. rewrite E. unfold count. cbn [fst snd].
      destruct (Z.ltb_spec 0 (consumed_ s + 1)); [reflexivity|lia].
  - destruct S as (Ec & Ea & [R|W]).
    + rewrite (E []), decode_nil, post_ready by assumption. split.
      * left. unfold posted_now, count, decoder. cbn. rewrite Ec, Ea.
        repeat split; lia.
      * intros rest _. rewrite E, decode_ready, post_ready by assumption.
        unfold count. cbn [fst snd].
        destruct (Z.ltb_spec 0 (consumed_ s')); [reflexivity|lia].
    + rewrite (E []), decode_nil, post_waiting by assumption. split.
      * right. unfold still_waiting, between_calls, count, decoder. cbn.
        repeat split; try assumption; lia.
      * intros rest _. rewrite E. reflexivity.
Qed.

Lemma first_byte m s b : between_calls s -> first_byte_spec m s b.
Proof.
  intros [Hc W].
  destruct (phase_ s) eqn:P; unfold waiting in W; rewrite P in W; try contradiction.
  - apply first_byte_by_step with (f := step_opcode m s b); try assumption.
    + apply opcode_spec; [assumption|]. unfold waiting. rewrite P. assumption.
    + intros rest. apply decode_instruction. assumption.
  - assert (W' : waiting s) by (unfold waiting; rewrite P; assumption).
    destruct (page_f_spec m s b P W') as [S Q].
    apply first_byte_by_step with (f := step_page_f m s b); try assumption.
    intros rest. apply decode_page_f; assumption.
  - assert (W' : waiting s) by (unfold waiting; rewrite P; assumption).
    destruct (modregrm_spec s b P W') as [S Q].
    apply first_byte_by_step with (f := modregrm_byte b s); try assumption.
    intros rest. apply decode_modregrm; assumption.
  - unfold first_byte_spec. cbv zeta.
    pose proof (operands_done_facts (operand_byte b s)) as (Dp & Dc & Da).
    assert (Oc : consumed_ (operand_byte b s) = consumed_ s + 1) by reflexivity.
    assert (Oa : address_size_ (operand_byte b s) = address_size_ s) by reflexivity.
    assert (Op : phase_ (operand_byte b s) = phase_ s) by reflexivity.
    assert (Oo : outstanding (operand_byte b s) = outstanding s - 1)
      by (unfold outstanding, operand_byte; fields; lia).
    rewrite (decode_operand m s b []) by assumption.
    destruct (Z.eqb_spec (outstanding s) 1) as [E|E].
    + rewrite post_ready by assumption. split.
      * left. unfold posted_now, count, decoder. cbn [fst snd].
        rewrite Dc, Da, Oc, Oa. repeat split; lia.
      * intros rest _. rewrite decode_operand by assumption.
        destruct (Z.eqb_spec (outstanding s) 1); [|contradiction].
        rewrite post_ready by assumption.
        unfold count. cbn [fst snd]. rewrite Dc, Oc.
        destruct (Z.ltb_spec 0 (consumed_ s + 1)); [reflexivity|lia].
    + split.
      * right. unfold still_waiting, between_calls, waiting, count, decoder.
        cbn [fst snd]. rewrite Op, P, Oc, Oo.
        repeat split; try lia; try reflexivity.
      * intros rest Hrest. rewrite decode_operand by assumption.
        destruct (Z.eqb_spec (outstanding s) 1); [contradiction|].
        destruct rest; [contradiction|].
        unfold count, decoder. cbn [fst snd].
        destruct (Z.ltb_spec 0 (- (outstanding s - 1))); [lia|reflexivity].
Qed.

Lemma between_calls_initial a : between_calls (initial a).
Proof. unfold between_calls, waiting, sizes_ok. cbn. lia. Qed.

(** ** One call *)

Section Calls.

Variable m : Model.t.

Lemma decode_call src :
  forall s, between_calls s ->
  let r := decode m s src in
  (0 < count r /\ call_posts s (length src) r) \/ call_waits s (length src) r.
Proof.
  induction src as [|b rest IH]; intros s B; cbv zeta.
  - rewrite decode_nil, post_waiting by apply B.
    right. unfold call_waits, count, decoder. cbn [fst snd length].
    repeat split; try apply B; lia.
  - destruct (first_byte m s b B) as [One Cons]. cbv zeta in One, Cons.
    destruct rest as [|b' rest'].
    + destruct One as [(Hp & Hc & Hd)|(Hn & Hb & Hc & Ha & Hneg)].
      * left. split; [assumption|]. split; [assumption|]. cbn [length]. lia.
      * right. unfold call_waits. cbn [length].
        repeat split; try assumption; try apply Hb; try lia;
          apply Hneg; assumption.
    + rewrite Cons by discriminate.
      destruct One as [(Hp & Hc & Hd)|(Hn & Hb & Hc & Ha & Hneg)].
      * destruct (Z.ltb_spec 0 (count (decode m s [b]))); [|lia].
        left. split; [assumption|]. split; [assumption|].
        cbn [length]. lia.
      * destruct (Z.ltb_spec 0 (count (decode m s [b]))); [lia|].
        specialize (IH _ Hb). cbv zeta in IH.
        set (r := decode m (decoder (decode m s [b])) (b' :: rest')) in *.
        destruct IH as [(Hp' & Hd' & Hc')|(Hn' & Hb' & Hc' & Ha' & Hneg')].
        -- left. split; [assumption|]. split; [congruence|].
           change (length (b :: b' :: rest')) with (S (length (b' :: rest'))).
           lia.
        -- right. unfold call_waits.
           change (length (b :: b' :: rest')) with (S (length (b' :: rest'))).
           repeat split; try assumption; try apply Hb'; try lia; try congruence;
             apply Hneg'; assumption.
Qed.

(** ** The caller *)

Lemma by_bytes_app l1 : forall d l2,
  by_bytes m d (l1 ++ l2) = by_bytes m (by_bytes m d l1) l2.
Proof. induction l1 as [|b l1 IH]; intros d l2; cbn; [reflexivity|apply IH]. Qed.

Lemma by_bytes_cons d b bs :
  by_bytes m d (b :: bs) =
  by_bytes m (let r := decode m (machine d) [b] in
              if 0 <? count r then on_posted d r else on_consumed d r 1) bs.
Proof. reflexivity. Qed.

Lemma in_step_start a : in_step (start a).
Proof. split; [apply between_calls_initial|reflexivity]. Qed.

Lemma in_step_posted d r a : decoder r = initial a -> in_step (on_posted d r).
Proof.
  intros E. unfold in_step, on_posted. cbn [machine pending]. rewrite E.
  split; [apply between_calls_initial|reflexivity].
Qed.

Lemma in_step_by_bytes bs : forall d, in_step d -> in_step (by_bytes m d bs).
Proof.
  induction bs as [|b bs IH]; intros d [B P]; [split; assumption|].
  cbn [by_bytes]. apply IH.
  destruct (first_byte m (machine d) b B) as [[(Hp & Hc & Hd)|(Hn & Hb & Hc & _)] _].
  - destruct (Z.ltb_spec 0 (count (decode m (machine d) [b]))); [|lia].
    eapply in_step_posted; eassumption.
  - destruct (Z.ltb_spec 0 (count (decode m (machine d) [b]))); [lia|].
    split; [assumption|]. cbn [on_consumed pending machine]. lia.
Qed.

(** A call with a whole buffer does what single-byte calls do with its
    bytes: with the first [k] of them if it posts an instruction, with
    all of them if it does not. *)
Lemma decode_by_bytes src :
  forall d, in_step d -> src <> [] ->
  let r := decode m (machine d) src in
  if 0 <? count r
  then exists k : nat,
         (1 <= k <= length src)%nat
         /\ count r = pending d + Z.of_nat k
         /\ by_bytes m d (firstn k src) = on_posted d r
  else by_bytes m d src = on_consumed d r (Z.of_nat (length src)).
Proof.
  induction src as [|b rest IH]; intros d [B P] Hsrc; [contradiction|]. cbv zeta.
  destruct (first_byte m (machine d) b B) as [One Cons]. cbv zeta in One, Cons.
  destruct rest as [|b' rest'].
  - destruct One as [(Hp & Hc & Hd)|(Hn & _)].
    + destruct (Z.ltb_spec 0 (count (decode m (machine d) [b]))) as [L|L]; [|lia].
      exists 1%nat. cbn [length firstn by_bytes].
      destruct (Z.ltb_spec 0 (count (decode m (machine d) [b]))); [|lia].
      repeat split; lia.
    + destruct (Z.ltb_spec 0 (count (decode m (machine d) [b]))) as [L|L]; [lia|].
      cbn [length by_bytes].
      destruct (Z.ltb_spec 0 (count (decode m (machine d) [b]))); [lia|].
      reflexivity.
  - rewrite Cons by discriminate.
    destruct One as [(Hp & Hc & Hd)|(Hn & Hb & Hc & _)].
    + destruct (Z.ltb_spec 0 (count (decode m (machine d) [b]))) as [L|L]; [|lia].
      destruct (Z.ltb_spec 0 (count (decode m (machine d) [b]))); [|lia].
      exists 1%nat. cbn [length firstn by_bytes].
      destruct (Z.ltb_spec 0 (count (decode m (machine d) [b]))); [|lia].
      repeat split; lia.
    + destruct (Z.ltb_spec 0 (count (decode m (machine d) [b]))) as [L|L]; [lia|].
      set (r1 := decode m (machine d) [b]) in *.
      set (d1 := on_consumed d r1 1).
      assert (S1 : in_step d1).
      { split; [assumption|]. subst d1. cbn [on_consumed pending machine]. lia. }
      specialize (IH d1 S1 ltac:(discriminate)). cbv zeta in IH.
      change (machine d1) with (decoder r1) in IH.
      set (r := decode m (decoder r1) (b' :: rest')) in *.
      destruct (Z.ltb_spec 0 (count r)).
      * destruct IH as (k & Hk & Hcount & Hrun).
        exists (S k). split; [cbn [length] in *; lia|]. split.
        -- rewrite Hcount. subst d1. cbn [on_consumed pending]. lia.
        -- cbn [firstn]. rewrite by_bytes_cons. cbv zeta. fold r1.
           destruct (Z.ltb_spec 0 (count r1)); [lia|].
           fold d1. rewrite Hrun. reflexivity.
      * rewrite by_bytes_cons. cbv zeta. fold r1.
        destruct (Z.ltb_spec 0 (count r1)); [lia|].
        fold d1. rewrite IH. subst d1. unfold on_consumed.
        cbn [machine pending posted]. f_equal.
        change (length (b :: b' :: rest')) with (S (length (b' :: rest'))).
        lia.
Qed.

Lemma drive_chunk_by_bytes fuel :
  forall chunk d, in_step d -> (length chunk <= fuel)%nat ->
  drive_chunk fuel m d chunk = by_bytes m d chunk.
Proof.
  induction fuel as [|fuel IH]; intros chunk d S L.
  - destruct chunk; [reflexivity|cbn [length] in L; lia].
  - destruct chunk as [|b rest]; [reflexivity|].
    cbn [drive_chunk].
    pose proof (decode_by_bytes (b :: rest) d S ltac:(discriminate)) as H.
    cbv zeta in H.
    set (r := decode m (machine d) (b :: rest)) in *.
    destruct (Z.ltb_spec 0 (count r)).
    + destruct H as (k & Hk & Hcount & Hrun).
      replace (Z.to_nat (count r - pending d)) with k by lia.
      rewrite <- (firstn_skipn k (b :: rest)) at 2.
      rewrite by_bytes_app, Hrun.
      apply IH.
      * rewrite <- Hrun. apply in_step_by_bytes. assumption.
      * rewrite length_skipn. lia.
    + symmetry. assumption.
Qed.

Lemma feed_by_bytes d chunk : in_step d -> feed m d chunk = by_bytes m d chunk.
Proof. intros S. apply drive_chunk_by_bytes; [assumption|lia]. Qed.

Lemma fold_feed_by_bytes chunks :
  forall d, in_step d -> fold_left (feed m) chunks d = by_bytes m d (concat chunks).
Proof.
  induction chunks as [|c chunks IH]; intros d S; [reflexivity|].
  cbn [fold_left concat]. rewrite by_bytes_app, feed_by_bytes by assumption.
  apply IH. apply in_step_by_bytes. assumption.
Qed.

Lemma drive_by_bytes a chunks :
  drive m a chunks = by_bytes m (start a) (concat chunks).
Proof. apply fold_feed_by_bytes, in_step_start. Qed.

End Calls.

(** ** Sequences of calls *)

Lemma after_calls_between m calls :
  forall s, between_calls s ->
  between_calls (after_calls m s calls)
  /\ address_size_ (after_calls m s calls) = address_size_ s.
Proof.
  induction calls as [|src calls IH]; intros s B; [split; [assumption|reflexivity]|].
  cbn [after_calls fold_left]. fold (after_calls m (decoder (decode m s src)) calls).
  destruct (decode_call m src s B) as [(_ & Hd & _)|(_ & Hb & _ & Ha & _)].
  - rewrite Hd.
    destruct (IH _ (between_calls_initial (address_size_ s))) as [B' A'].
    split; [exact B'|exact A'].
  - destruct (IH _ Hb) as [B' A']. split; [exact B'|congruence].
Qed.

Lemma after_calls_initial m a calls :
  between_calls (after_calls m (initial a) calls)
  /\ address_size_ (after_calls m (initial a) calls) = a.
Proof. apply (after_calls_between m calls (initial a)), between_calls_initial. Qed.

(** ** The state that reaches the ScaleIndexBase block *)

Lemma instruction_loop_progressed m src :
  forall s, progressed s -> flow_progressed (instruction_loop m s src).
Proof.
  induction src as [|b rest IH]; intros s P; [exact P|].
  cbn [instruction_loop].
  destruct (phase_ s) eqn:Hp; try exact P.
  fold (step_opcode m s b).
  destruct P as [R|W]; [congruence|].
  pose proof (opcode_spec m s b Hp W) as S.
  destruct (step_opcode m s b) as [r s'|s']; [exact I|].
  cbn [bind]. apply IH. apply S.
Qed.

Lemma instruction_page_f_progressed m s src :
  progressed s -> flow_progressed (instruction_page_f m s src).
Proof.
  intros P. unfold instruction_page_f.
  destruct (phase_ s) eqn:Hp; try exact P.
  destruct src as [|b rest]; [exact P|].
  fold (step_page_f m s b).
  destruct P as [R|W]; [congruence|].
  destruct (page_f_spec m s b Hp W) as [S _].
  destruct (step_page_f m s b) as [r s'|s']; [exact I|].
  cbn [bind flow_progressed]. apply S.
Qed.

Lemma mod_reg_rm_progressed s src :
  progressed s -> flow_progressed (mod_reg_rm s src).
Proof.
  intros P. unfold mod_reg_rm.
  destruct (phase_ s) eqn:Hp; try exact P.
  destruct src as [|b rest]; [exact P|].
  destruct P as [R|W]; [congruence|].
  destruct (modregrm_spec s b Hp W) as [S _].
  destruct (modregrm_byte b s) as [r s'|s']; [exact I|].
  cbn [bind flow_progressed]. apply S.
Qed.

Lemma opcode_blocks_progressed m s src :
  progressed s -> flow_progressed (opcode_blocks m s src).
Proof.
  intros P. unfold opcode_blocks.
  pose proof (instruction_loop_progressed m src s P) as P1.
  destruct (instruction_loop m s src) as [r s1|[s1 src1]]; [exact I|].
  cbn [bind flow_progressed] in *.
  pose proof (instruction_page_f_progressed m s1 src1 P1) as P2.
  destruct (instruction_page_f m s1 src1) as [r s2|[s2 src2]]; [exact I|].
  cbn [bind flow_progressed] in *.
  apply mod_reg_rm_progressed. assumption.
Qed.

Lemma progressed_phase s :
  progressed s -> In (phase_ s) posting_phases /\ phase_ s <> Phase.ScaleIndexBase.
Proof.
  unfold progressed, waiting, posting_phases.
  destruct (phase_ s); cbn; intros [H|H]; try discriminate H; try contradiction H;
    split; try discriminate; tauto.
Qed.

(** ** Reset *)

Lemma decode_nop m a rest :
  decode m (initial a) (x90 :: rest) =
  ((1, mkInstruction Operation.NOP Source.None Source.None ScaleIndexBase_default
         false a Source.None Repetition.None 0 0 0),
   initial a).
Proof.
  rewrite decode_instruction by reflexivity.
  change (step_opcode m (initial a) x90)
    with (Continue (Complete Operation.NOP Source.None Source.None 0
                      (set_consumed_ 1 (set_instr_ x90 (initial a))))).
  cbn [outcome]. rewrite decode_ready by reflexivity. reflexivity.
Qed.

(** ** Operand bytes *)

Lemma decode_operands m more :
  forall s, phase_ s = Phase.DisplacementOrOperand -> 0 < outstanding s ->
  let n := outstanding s in
  let k := Z.of_nat (length more) in
  let r := decode m s more in
  (k = 0 -> r = ((0, InstructionT_default), s))
  /\ (0 < k < n ->
      count r = - (n - k)
      /\ phase_ (decoder r) = Phase.DisplacementOrOperand
      /\ outstanding (decoder r) = n - k)
  /\ (n <= k -> count r = consumed_ s + n).
Proof.
  induction more as [|b rest IH]; intros s P N; cbv zeta.
  - cbn [length]. rewrite decode_nil.
    unfold post. rewrite P.
    split; [reflexivity|]. split; intros; exfalso; lia.
  - pose proof (operands_done_facts (operand_byte b s)) as (Dp & Dc & Da).
    assert (Oc : consumed_ (operand_byte b s) = consumed_ s + 1) by reflexivity.
    assert (Op : phase_ (operand_byte b s) = phase_ s) by reflexivity.
    assert (Oo : outstanding (operand_byte b s) = outstanding s - 1)
      by (unfold outstanding, operand_byte; fields; lia).
    rewrite decode_operand by assumption.
    change (length (b :: rest)) with (S (length rest)).
    destruct (Z.eqb_spec (outstanding s) 1) as [E|E].
    + rewrite post_ready by assumption. unfold count. cbn [fst snd].
      split; [lia|]. split; intros; [exfalso|]; lia.
    + destruct rest as [|b' rest'].
      * unfold count, decoder. cbn [fst snd length].
        split; [lia|]. split; intros; [|exfalso; lia].
        repeat split; try lia; congruence.
      * assert (P1 : phase_ (operand_byte b s) = Phase.DisplacementOrOperand)
          by congruence.
        assert (N1 : 0 < outstanding (operand_byte b s)) by lia.
        specialize (IH _ P1 N1). cbv zeta in IH.
        destruct IH as (_ & IH1 & IH2).
        rewrite Oo, Oc in *. cbn [length] in *.
        split; [lia|]. split.
        -- intros Hk. destruct IH1 as (H1 & H2 & H3); [lia|].
           repeat split; try assumption; lia.
        -- intros Hk. rewrite IH2 by lia. lia.
Qed.

Lemma decode_mov_ax m a rest :
  decode m (initial a) (xb8 :: rest) =
  decode m (RegData Operation.MOV Source.eAX 2
              (set_consumed_ 1 (set_instr_ xb8 (initial a)))) rest.
Proof. rewrite decode_instruction by reflexivity. reflexivity. Qed.

(** ** Sign extension *)

Lemma byte_value_range b : 0 <= byte_value b < 256.
Proof. destruct b; vm_compute; split; congruence. Qed.

Lemma shift_in_top d b :
  0 <= d < 2 ^ 64 -> Z.shiftr (shift_in d b) 56 = byte_value b.
Proof.
  intros Hd. pose proof (byte_value_range b) as Hb.
  unfold shift_in, uint64.
  rewrite Z.shiftr_lor, Z.shiftr_shiftr by lia.
  rewrite (Z.shiftr_div_pow2 d) by lia.
  change (8 + 56) with 64.
  rewrite (Z.div_small d) by lia.
  rewrite Z.lor_0_l.
  rewrite Z.shiftl_mul_pow2 by lia.
  rewrite Z.mod_small by lia.
  rewrite Z.shiftr_div_pow2 by lia.
  apply Z.div_mul. lia.
Qed.

Lemma sign_extension_byte b :
  Z.lor (uint16 (byte_value b))
    (if negb (Z.land (uint16 (byte_value b)) 0x80 =? 0) then 0xff00 else 0x0000)
  = sign_extended b.
Proof. destruct b; vm_compute; reflexivity. Qed.


(** ** Group decoding *)

Lemma modregrm_unassigned s b :
  assigned (modregrm_format_ s) (reg_field b) = false ->
  modregrm_byte b s =
  Return (consumed_ s + 1, InstructionT_default) (initial (address_size_ s)).
Proof.
  unfold modregrm_byte.
  pose proof (mod_field_cases b) as Hmod. pose proof (reg_field_cases b) as Hreg.
  generalize dependent (rm_field b). generalize dependent (reg_field b).
  generalize dependent (mod_field b). intros mod_ Hmod reg Hreg rm.
  destruct s as [ph fmt op ins c ob sr de di opd inw sib ds os ops lk asz seg rep].
  cbn [modregrm_format_ consumed_ address_size_].
  unfold modregrm_fields, memreg_of. cbn [operation_ set_consumed_].
  each_of Hmod; each_of Hreg; destruct (memory_only op); destruct fmt;
    cbn [assigned existsb Z.eqb Pos.eqb orb]; intros A; try discriminate A;
    reflexivity.
Qed.

Lemma decode_prefixes m a ps :
  Forall (fun p => is_prefix p = true) ps ->
  forall s n tail, prefixed a n s ->
  exists s', prefixed a (n + Z.of_nat (length ps)) s'
             /\ decode m s (ps ++ tail) = decode m s' tail.
Proof.
  induction 1 as [|p ps Hp _ IH]; intros s n tail S.
  - exists s. cbn [length app]. rewrite Z.add_0_r. split; [exact S|reflexivity].
  - destruct S as (P & C & A & W).
    cbn [app]. rewrite decode_instruction by assumption.
    pose proof (opcode_spec m s p P W) as St.
    assert (E : exists s1, step_opcode m s p = Continue s1
                           /\ phase_ s1 = Phase.Instruction).
    { destruct s as [ph fmt op ins c ob sr de di opd inw sib ds os ops lk asz seg rep].
      cbn [phase_] in P. subst ph.
      destruct p; try discriminate Hp; eexists; split; reflexivity. }
    destruct E as (s1 & E & P1). rewrite E in *. cbn [outcome step_spec] in *.
    destruct St as (C1 & A1 & [R|W1]); [congruence|].
    destruct (IH s1 (n + 1) tail) as (s' & S' & D).
    { repeat split; try assumption; congruence || lia. }
    exists s'. split; [|exact D].
    change (length (p :: ps)) with (S (length ps)).
    replace (n + Z.of_nat (S (length ps))) with (n + 1 + Z.of_nat (length ps)) by lia.
    exact S'.
Qed.

Lemma decode_group_opcode m a op format :
  In (op, format) (group_opcodes m) ->
  forall s n tail, prefixed a n s ->
  exists s', at_group a (n + Z.of_nat (length op)) format s'
             /\ decode m s (op ++ tail) = decode m s' tail.
Proof.
  intros Hin s n tail (P & C & A & W).
  destruct s as [ph fmt o ins c ob sr de di opd inw sib ds os ops lk asz seg rep].
  cbn [phase_ consumed_ address_size_] in *. subst ph c asz.
  cbv [waiting sizes_ok phase_ operand_bytes_ displacement_size_ operand_size_] in W.
  destruct W as (-> & Hd & Ho).
  unfold group_opcodes in Hin. apply in_app_or in Hin. destruct Hin as [Hin|Hin].
  - cbn [In] in Hin.
    repeat match type of Hin with
           | _ \/ _ => destruct Hin as [Hin|Hin]
           end; try contradiction Hin; injection Hin as <- <-;
      cbn [app]; rewrite decode_instruction by reflexivity;
      eexists; (split; [|reflexivity]);
      cbv -[Z.add Z.sub Z.lt Z.le]; repeat split; lia.
  - destruct m; cbn [Model.ltb Model.rank Z.ltb Z.compare Pos.compare Pos.compare_cont]
      in Hin; try contradiction Hin;
      cbn [In] in Hin;
      repeat match type of Hin with
             | _ \/ _ => destruct Hin as [Hin|Hin]
             end; try contradiction Hin; injection Hin as <- <-;
      cbn [app]; rewrite decode_instruction by reflexivity;
      cbv [step_opcode opcode set_instr_ set_consumed_ instr_ Model.ltb Model.rank
           Z.ltb Z.compare Pos.compare Pos.compare_cont outcome];
      (rewrite decode_page_f;
       [|reflexivity
        |unfold step_page_f; rewrite page_f_instr_byte; cbv -[Z.add Z.sub Z.lt Z.le];
         intros ? [= <-]; exact I]);
      unfold step_page_f; rewrite page_f_instr_byte;
      eexists; (split; [|reflexivity]);
      cbv -[Z.add Z.sub Z.lt Z.le]; repeat split; lia.
Qed.

(** ** From one byte to a whole buffer *)

Lemma decode_by_first_byte m (I : Decoder -> Prop) (Q : Result * Decoder -> Prop) :
  (forall s, I s -> between_calls s -> Q ((0, InstructionT_default), s)) ->
  (forall s b, I s -> between_calls s ->
     Q (decode m s [b]) /\ (count (decode m s [b]) <= 0 -> I (decoder (decode m s [b])))) ->
  forall src s, I s -> between_calls s -> Q (decode m s src).
Proof.
  intros Hnil Hone. induction src as [|b rest IH]; intros s Is B.
  - rewrite decode_nil, post_waiting by apply B. apply Hnil; assumption.
  - destruct (Hone s b Is B) as [Q1 I1].
    destruct rest as [|b' rest']; [exact Q1|].
    destruct (first_byte m s b B) as [One Cons]. cbv zeta in One, Cons.
    rewrite Cons by discriminate.
    destruct (Z.ltb_spec 0 (count (decode m s [b]))) as [L|L]; [exact Q1|].
    destruct One as [(Hp & _)|(_ & Hb & _)]; [lia|].
    apply IH; [apply I1; lia|exact Hb].
Qed.

Lemma after_calls_invariant m (I : Decoder -> Prop) :
  (forall a, I (initial a)) ->
  (forall s b, I s -> between_calls s ->
     count (decode m s [b]) <= 0 -> I (decoder (decode m s [b]))) ->
  forall calls s, I s -> between_calls s -> I (after_calls m s calls).
Proof.
  intros Hinit Hone. induction calls as [|src calls IH]; intros s Is B; [exact Is|].
  cbn [after_calls fold_left]. fold (after_calls m (decoder (decode m s src)) calls).
  assert (Q : I (decoder (decode m s src)) /\ between_calls (decoder (decode m s src))).
  { destruct (decode_call m src s B) as [(_ & Hd & _)|(_ & Hb & _)].
    - rewrite Hd. split; [apply Hinit|apply between_calls_initial].
    - split; [|exact Hb].
      revert s Is B Hb.
      apply (decode_by_first_byte m I
               (fun r => between_calls (decoder r) -> I (decoder r)) ).
      + intros s Is _ _. exact Is.
      + intros s b Is B. split; [|apply Hone; assumption].
        intros _. destruct (first_byte m s b B) as [[(_ & _ & Hd)|(Hn & _)] _].
        * rewrite Hd. apply Hinit.
        * apply Hone; assumption. }
  destruct Q. apply IH; assumption.
Qed.

(** ** Buffers *)

Lemma trailing_bytes m src :
  forall s extra, between_calls s -> 0 < count (decode m s src) ->
  decode m s (src ++ extra) = decode m s src.
Proof.
  induction src as [|b rest IH]; intros s extra B H.
  - rewrite decode_nil, post_waiting in H by apply B. cbn in H. lia.
  - destruct (first_byte m s b B) as [One Cons]. cbv zeta in One, Cons.
    cbn [app].
    destruct rest as [|b' rest'].
    + destruct extra as [|e extra]; [reflexivity|].
      cbn [app]. rewrite Cons by discriminate.
      destruct (Z.ltb_spec 0 (count (decode m s [b]))); [reflexivity|lia].
    + cbn [app]. rewrite (Cons (b' :: rest' ++ extra)) by discriminate.
      rewrite (Cons (b' :: rest')) in H by discriminate.
      rewrite (Cons (b' :: rest')) by discriminate.
      destruct (Z.ltb_spec 0 (count (decode m s [b]))) as [L|L]; [reflexivity|].
      destruct One as [(Hp & _)|(_ & Hb & _)]; [lia|].
      change (b' :: rest' ++ extra) with ((b' :: rest') ++ extra).
      apply (IH _ extra Hb H).
Qed.

Lemma instruction_bytes m src :
  forall s, between_calls s -> 0 < count (decode m s src) ->
  decode m s (firstn (Z.to_nat (count (decode m s src) - consumed_ s)) src)
  = decode m s src.
Proof.
  induction src as [|b rest IH]; intros s B H.
  - rewrite firstn_nil. reflexivity.
  - destruct (first_byte m s b B) as [One Cons]. cbv zeta in One, Cons.
    destruct One as [(Hp & Hc & _)|(Hn & Hb & Hc & _)].
    + assert (E : decode m s (b :: rest) = decode m s [b]).
      { destruct rest; [reflexivity|]. rewrite Cons by discriminate.
        destruct (Z.ltb_spec 0 (count (decode m s [b]))); [reflexivity|lia]. }
      rewrite E. replace (count (decode m s [b]) - consumed_ s) with 1 by lia.
      reflexivity.
    + destruct rest as [|b' rest']; [lia|].
      rewrite Cons in H |- * by discriminate.
      destruct (Z.ltb_spec 0 (count (decode m s [b]))) as [L|L]; [lia|].
      set (s1 := decoder (decode m s [b])) in *.
      pose proof (decode_call m (b' :: rest') s1 Hb) as C. cbv zeta in C.
      destruct C as [(_ & _ & Hk)|(Hk & _)]; [|lia].
      set (c := count (decode m s1 (b' :: rest'))) in *.
      replace (Z.to_nat (c - consumed_ s)) with (S (Z.to_nat (c - consumed_ s1))) by lia.
      specialize (IH s1 Hb H). fold c in IH.
      destruct (Z.to_nat (c - consumed_ s1)) as [|k] eqn:Ek; [lia|].
      cbn [firstn] in IH |- *.
      rewrite Cons by discriminate.
      destruct (Z.ltb_spec 0 (count (decode m s [b]))); [lia|].
      exact IH.
Qed.

(** ** Prefixes *)

Lemma after_prefixes_snoc m a ps p tail :
  is_prefix p = true ->
  decode m (after_prefixes a ps) (p :: tail) = decode m (after_prefixes a (ps ++ [p])) tail.
Proof.
  intros Hp. rewrite decode_instruction by reflexivity.
  assert (E : step_opcode m (after_prefixes a ps) p = Continue (after_prefixes a (ps ++ [p]))).
  { unfold after_prefixes, lock_of, segment_of, repetition_of.
    rewrite last_last, length_app, existsb_app, !fold_left_app.
    cbn [length fold_left existsb].
    replace (Z.of_nat (length ps + 1)) with (Z.of_nat (length ps) + 1) by lia.
    destruct p; try discriminate Hp; cbn [Byte.eqb orb];
      rewrite ?orb_false_r, ?orb_true_r; reflexivity. }
  rewrite E. reflexivity.
Qed.

Lemma decode_after_prefixes m a ps :
  Forall (fun p => is_prefix p = true) ps ->
  forall seen tail,
  decode m (after_prefixes a seen) (ps ++ tail) = decode m (after_prefixes a (seen ++ ps)) tail.
Proof.
  induction 1 as [|p ps Hp _ IH]; intros seen tail.
  - rewrite app_nil_r. reflexivity.
  - cbn [app]. rewrite after_prefixes_snoc by assumption.
    rewrite IH, <- app_assoc. reflexivity.
Qed.

Ltac keep_cases :=
  cbv -[Z.add Z.sub Z.lt Z.le Z.eqb];
  repeat match goal with
         | |- context [Z.eqb ?a ?b] => destruct (Z.eqb_spec a b)
         end;
  repeat apply conj; reflexivity.

Lemma opcode_keeps_prefixes m s b :
  is_prefix b = false ->
  keeps_prefixes s (step_opcode m s b)
  /\ (forall s', step_opcode m s b = Continue s' -> phase_ s' <> Phase.Instruction).
Proof.
  destruct s as [ph fmt op ins c ob sr de di opd inw sib ds os ops lk asz seg rep].
  destruct b, m; intros Hp; try discriminate Hp;
    (split; [keep_cases|cbv -[Z.add Z.sub]; try discriminate; intros ? [= <-]; discriminate]).
Qed.

Lemma page_f_keeps_prefixes m s b : keeps_prefixes s (step_page_f m s b).
Proof.
  unfold step_page_f. rewrite page_f_instr_byte.
  destruct s as [ph fmt op ins c ob sr de di opd inw sib ds os ops lk asz seg rep].
  destruct b, m; keep_cases.
Qed.

Lemma modregrm_keeps_prefixes s b : keeps_prefixes s (modregrm_byte b s).
Proof.
  unfold modregrm_byte.
  pose proof (mod_field_cases b) as Hmod. pose proof (reg_field_cases b) as Hreg.
  generalize dependent (rm_field b). generalize dependent (reg_field b).
  generalize dependent (mod_field b). intros mod_ Hmod reg Hreg rm.
  destruct s as [ph fmt op ins c ob sr de di opd inw sib ds os ops lk asz seg rep].
  unfold modregrm_fields, memreg_of. cbn [operation_ set_consumed_].
  each_of Hmod; each_of Hreg; destruct (memory_only op); destruct fmt; keep_cases.
Qed.

Lemma operands_done_keeps_prefixes s :
  prefixes_are (lock_ s) (segment_override_ s) (repetition_ s) (operands_done s).
Proof.
  unfold operands_done, prefixes_are, take_displacement, take_operand.
  repeat match goal with
         | |- context [match ?x with _ => _ end] => destruct x
         end; repeat split.
Qed.

Lemma carries_by_step m l seg rep s b f :
  0 <= consumed_ s -> prefixes_are l seg rep s ->
  step_spec s f -> keeps_prefixes s f ->
  (forall s', f = Continue s' -> phase_ s' <> Phase.Instruction) ->
  decode m s [b] = outcome f (fun s' => decode m s' []) ->
  posts_with l seg rep (decode m s [b])
  /\ (count (decode m s [b]) <= 0 ->
      phase_ (decoder (decode m s [b])) <> Phase.Instruction
      /\ prefixes_are l seg rep (decoder (decode m s [b]))).
Proof.
  intros Hc (Hl & Hs & Hr) S K P E. rewrite E. unfold posts_with.
  destruct f as [r s'|s']; cbn [step_spec keeps_prefixes outcome] in *.
  - destruct S as [-> ->]. unfold count, instruction. cbn [fst snd].
    split; [intros _; left; reflexivity|intros; lia].
  - destruct S as (Ec & _ & [R|W]).
    + rewrite decode_nil, post_ready by assumption.
      unfold count, instruction. cbn [fst snd].
      split; [|intros; lia]. intros _. right.
      unfold carries, instruction_of. cbn [lock segment_override repetition].
      destruct K as (K1 & K2 & K3). rewrite K1, K2, K3. repeat split; assumption.
    + rewrite decode_nil, post_waiting by assumption.
      unfold count, decoder. cbn [fst snd].
      split; [intros; lia|]. intros _. split; [apply P; reflexivity|].
      destruct K as (K1 & K2 & K3). unfold prefixes_are.
      rewrite K1, K2, K3. repeat split; assumption.
Qed.

Lemma first_byte_carries m l seg rep s b :
  between_calls s -> phase_ s <> Phase.Instruction -> prefixes_are l seg rep s ->
  posts_with l seg rep (decode m s [b])
  /\ (count (decode m s [b]) <= 0 ->
      phase_ (decoder (decode m s [b])) <> Phase.Instruction
      /\ prefixes_are l seg rep (decoder (decode m s [b]))).
Proof.
  intros [Hc W] Hi Hp.
  destruct (phase_ s) eqn:P; unfold waiting in W; rewrite P in W;
    try contradiction; try congruence.
  - assert (W' : waiting s) by (unfold waiting; rewrite P; assumption).
    destruct (page_f_spec m s b P W') as [S Q].
    apply carries_by_step with (f := step_page_f m s b); try assumption.
    + apply page_f_keeps_prefixes.
    + intros s' E. specialize (Q s' E). unfold past in Q.
      destruct (phase_ s'); easy.
    + apply decode_page_f; assumption.
  - assert (W' : waiting s) by (unfold waiting; rewrite P; assumption).
    destruct (modregrm_spec s b P W') as [S Q].
    apply carries_by_step with (f := modregrm_byte b s); try assumption.
    + apply modregrm_keeps_prefixes.
    + intros s' E. specialize (Q s' E). unfold past in Q.
      destruct (phase_ s'); easy.
    + apply decode_modregrm; assumption.
  - rewrite decode_operand by assumption. unfold posts_with.
    pose proof (operands_done_facts (operand_byte b s)) as (Dp & Dc & _).
    pose proof (operands_done_keeps_prefixes (operand_byte b s)) as K.
    change (lock_ (operand_byte b s)) with (lock_ s) in K.
    change (segment_override_ (operand_byte b s)) with (segment_override_ s) in K.
    change (repetition_ (operand_byte b s)) with (repetition_ s) in K.
    destruct Hp as (Hl & Hs & Hr). destruct K as (K1 & K2 & K3).
    destruct (Z.eqb_spec (outstanding s) 1).
    + rewrite post_ready by assumption.
      unfold count, instruction. cbn [fst snd]. rewrite Dc.
      change (consumed_ (operand_byte b s)) with (consumed_ s + 1).
      split; [|intros; lia]. intros _. right.
      unfold carries, instruction_of. cbn [lock segment_override repetition].
      rewrite K1, K2, K3. repeat split; assumption.
    + unfold count, decoder. cbn [fst snd].
      split; [intros; lia|]. intros _. split.
      * change (phase_ (operand_byte b s)) with (phase_ s). congruence.
      * repeat split; assumption.
Qed.

(** ** Models *)

Lemma opcode_compatible base m s b :
  extends base m = true ->
  returns (step_opcode base s b) \/ step_opcode m s b = step_opcode base s b.
Proof.
  destruct s as [ph fmt op ins c ob sr de di opd inw sib ds os ops lk asz seg rep].
  destruct base, m; intros E; try discriminate E;
    destruct b; first [right; reflexivity | left; exact I].
Qed.

Lemma page_f_compatible base m s b :
  extends base m = true ->
  returns (step_page_f base s b) \/ step_page_f m s b = step_page_f base s b.
Proof.
  unfold step_page_f. rewrite page_f_instr_byte.
  destruct s as [ph fmt op ins c ob sr de di opd inw sib ds os ops lk asz seg rep].
  destruct base, m; intros E; try discriminate E;
    destruct b; first [right; reflexivity | left; exact I].
Qed.

Lemma compatible_by_step base m s b fb fm :
  0 <= consumed_ s -> step_spec s fb ->
  returns fb \/ fm = fb ->
  decode base s [b] = outcome fb (fun s' => decode base s' []) ->
  decode m s [b] = outcome fm (fun s' => decode m s' []) ->
  rejected (decode base s [b]) \/ decode m s [b] = decode base s [b].
Proof.
  intros Hc S [R| ->] Eb Em.
  - left. rewrite Eb. destruct fb as [r s'|s']; [|contradiction R].
    destruct S as [-> ->]. unfold rejected, count, instruction. cbn. split; [lia|reflexivity].
  - right. rewrite Eb, Em. destruct fb; [reflexivity|].
    cbn [outcome]. rewrite !decode_nil. reflexivity.
Qed.

Lemma first_byte_compatible base m s b :
  extends base m = true -> between_calls s ->
  rejected (decode base s [b]) \/ decode m s [b] = decode base s [b].
Proof.
  intros E [Hc W].
  destruct (phase_ s) eqn:P; unfold waiting in W; rewrite P in W; try contradiction.
  - assert (W' : waiting s) by (unfold waiting; rewrite P; assumption).
    apply compatible_by_step
      with (fb := step_opcode base s b) (fm := step_opcode m s b); try assumption.
    + apply opcode_spec; assumption.
    + apply opcode_compatible; assumption.
    + apply decode_instruction; assumption.
    + apply decode_instruction; assumption.
  - assert (W' : waiting s) by (unfold waiting; rewrite P; assumption).
    apply compatible_by_step
      with (fb := step_page_f base s b) (fm := step_page_f m s b); try assumption.
    + apply page_f_spec; assumption.
    + apply page_f_compatible; assumption.
    + apply decode_page_f; [assumption|apply page_f_spec; assumption].
    + apply decode_page_f; [assumption|apply page_f_spec; assumption].
  - assert (W' : waiting s) by (unfold waiting; rewrite P; assumption).
    right. destruct (modregrm_spec s b P W') as [_ Q].
    rewrite !decode_modregrm by assumption.
    destruct (modregrm_byte b s); [reflexivity|].
    cbn [outcome]. rewrite !decode_nil. reflexivity.
  - right. rewrite !decode_operand by assumption. reflexivity.
Qed.

Lemma posted_by_bytes m bs :
  forall d, exists l, posted (by_bytes m d bs) = posted d ++ l.
Proof.
  induction bs as [|b bs IH]; intros d.
  - exists []. cbn. rewrite app_nil_r. reflexivity.
  - rewrite by_bytes_cons. cbv zeta.
    match goal with |- context [by_bytes m ?d1 bs] => destruct (IH d1) as [l E] end.
    rewrite E. destruct (0 <? count (decode m (machine d) [b])).
    + exists (fst (decode m (machine d) [b]) :: l).
      cbn [on_posted posted]. rewrite <- app_assoc. reflexivity.
    + exists l. reflexivity.
Qed.

Lemma by_bytes_compatible base m bs :
  extends base m = true ->
  forall d, in_step d ->
  Forall accepted (posted (by_bytes base d bs)) ->
  by_bytes m d bs = by_bytes base d bs.
Proof.
  intros E. induction bs as [|b bs IH]; intros d S F; [reflexivity|].
  rewrite !by_bytes_cons in *. cbv zeta in *.
  destruct (first_byte_compatible base m (machine d) b E (proj1 S)) as [[Rc Ri]|Eq].
  - exfalso.
    destruct (Z.ltb_spec 0 (count (decode base (machine d) [b]))); [|lia].
    destruct (posted_by_bytes base bs (on_posted d (decode base (machine d) [b])))
      as [l El].
    rewrite El in F. cbn [on_posted posted] in F.
    apply Forall_app in F. destruct F as [F _].
    apply Forall_app in F. destruct F as [_ F].
    inversion F as [|x xs Hx _]. apply Hx. exact Ri.
  - rewrite Eq. apply IH; [|exact F].
    pose proof (in_step_by_bytes base [b] d S) as S1.
    rewrite by_bytes_cons in S1. exact S1.
Qed.

(** ** Sizes *)

Ltac tight_cases :=
  cbv -[Z.add Z.sub Z.lt Z.le Z.eqb];
  repeat match goal with
         | |- context [Z.eqb ?a ?b] => destruct (Z.eqb_spec a b)
         end;
  try exact I; try (left; reflexivity); try (right; lia).

Lemma opcode_tight m s b :
  phase_ s = Phase.Instruction -> tight s -> stays_tight (step_opcode m s b).
Proof.
  destruct s as [ph fmt op ins c ob sr de di opd inw sib ds os ops lk asz seg rep].
  cbn [phase_]; intros -> T.
  cbv [tight phase_ operand_bytes_ displacement_size_ operand_size_] in T.
  destruct T as (-> & -> & ->).
  destruct b, m; tight_cases.
Qed.

Lemma page_f_tight m s b :
  phase_ s = Phase.InstructionPageF -> tight s -> stays_tight (step_page_f m s b).
Proof.
  unfold step_page_f. rewrite page_f_instr_byte.
  destruct s as [ph fmt op ins c ob sr de di opd inw sib ds os ops lk asz seg rep].
  cbn [phase_]; intros -> T.
  cbv [tight phase_ operand_bytes_ displacement_size_ operand_size_] in T.
  destruct T as (-> & -> & ->).
  destruct b, m; tight_cases.
Qed.

Lemma modregrm_tight s b :
  phase_ s = Phase.ModRegRM -> tight s -> stays_tight (modregrm_byte b s).
Proof.
  unfold modregrm_byte.
  pose proof (mod_field_cases b) as Hmod. pose proof (reg_field_cases b) as Hreg.
  generalize dependent (rm_field b). generalize dependent (reg_field b).
  generalize dependent (mod_field b). intros mod_ Hmod reg Hreg rm.
  destruct s as [ph fmt op ins c ob sr de di opd inw sib ds os ops lk asz seg rep].
  cbn [phase_]; intros -> T.
  cbv [tight phase_ operand_bytes_ displacement_size_ operand_size_ operation_size_] in T.
  destruct T as (-> & -> & -> & Hs).
  unfold modregrm_fields, memreg_of. cbn [operation_ set_consumed_].
  each_of Hmod; each_of Hreg; destruct (memory_only op); destruct fmt; tight_cases.
Qed.

Lemma tight_waiting s : tight s -> waiting s.
Proof.
  unfold tight, waiting, sizes_ok, outstanding. destruct (phase_ s); intros; lia || tauto.
Qed.

Lemma tight_by_step m s b f :
  0 <= consumed_ s -> step_spec s f -> stays_tight f ->
  decode m s [b] = outcome f (fun s' => decode m s' []) ->
  well_sized (decode m s [b]).
Proof.
  intros Hc S T E. rewrite E. unfold well_sized.
  destruct f as [r s'|s']; cbn [step_spec stays_tight outcome] in *.
  - destruct S as [-> ->]. unfold count. cbn [fst snd]. split; intros; lia.
  - destruct S as (Ec & _ & _). rewrite decode_nil.
    destruct T as [R|T].
    + rewrite post_ready by assumption. unfold count. cbn [fst snd].
      split; intros; lia.
    + rewrite post_waiting by (apply tight_waiting; assumption).
      unfold count, decoder. cbn [fst snd]. split; [lia|intros _; exact T].
Qed.

Lemma first_byte_tight m s b :
  between_calls s -> tight s -> well_sized (decode m s [b]).
Proof.
  intros [Hc W] T.
  destruct (phase_ s) eqn:P; try (unfold waiting in W; rewrite P in W; contradiction).
  - apply tight_by_step with (f := step_opcode m s b); try assumption.
    + apply opcode_spec; assumption.
    + apply opcode_tight; assumption.
    + apply decode_instruction; assumption.
  - apply tight_by_step with (f := step_page_f m s b); try assumption.
    + apply page_f_spec; assumption.
    + apply page_f_tight; assumption.
    + apply decode_page_f; [assumption|apply page_f_spec; assumption].
  - apply tight_by_step with (f := modregrm_byte b s); try assumption.
    + apply modregrm_spec; assumption.
    + apply modregrm_tight; assumption.
    + apply decode_modregrm; [assumption|apply modregrm_spec; assumption].
  - unfold waiting in W. rewrite P in W.
    rewrite decode_operand by assumption. unfold well_sized.
    pose proof (operands_done_facts (operand_byte b s)) as (Dp & Dc & _).
    unfold tight in T. rewrite P in T. unfold outstanding in *.
    destruct (Z.eqb_spec (displacement_size_ s + operand_size_ s - operand_bytes_ s) 1).
    + rewrite post_ready by assumption. unfold count. cbn [fst snd]. rewrite Dc.
      change (consumed_ (operand_byte b s)) with (consumed_ s + 1).
      split; intros; lia.
    + unfold count, decoder. cbn [fst snd]. split; [lia|]. intros _.
      unfold tight. change (phase_ (operand_byte b s)) with (phase_ s). rewrite P.
      unfold operand_byte. fields. lia.
Qed.

Lemma tight_initial a : tight (initial a).
Proof. repeat split. Qed.

Lemma after_calls_tight m a calls : tight (after_calls m (initial a) calls).
Proof.
  apply (after_calls_invariant m tight tight_initial).
  - intros s b T B Hn. apply first_byte_tight; assumption.
  - apply tight_initial.
  - apply between_calls_initial.
Qed.

(** ** The operation of a posted instruction *)

Ltac settled_cases :=
  cbv -[Z.add Z.sub Z.lt Z.le Z.eqb named];
  repeat match goal with
         | |- context [Z.eqb ?a ?b] => destruct (Z.eqb_spec a b)
         end;
  try exact I; try reflexivity; try assumption;
  try (left; reflexivity); try (right; reflexivity).

Lemma opcode_settled m s b :
  phase_ s = Phase.Instruction -> stays_settled (step_opcode m s b).
Proof.
  destruct s as [ph fmt op ins c ob sr de di opd inw sib ds os ops lk asz seg rep].
  cbn [phase_]; intros ->.
  destruct b, m; settled_cases.
Qed.

Lemma page_f_settled m s b : stays_settled (step_page_f m s b).
Proof.
  unfold step_page_f. rewrite page_f_instr_byte.
  destruct s as [ph fmt op ins c ob sr de di opd inw sib ds os ops lk asz seg rep].
  destruct b, m; settled_cases.
Qed.

Lemma modregrm_settled s b :
  phase_ s = Phase.ModRegRM -> settled s -> stays_settled (modregrm_byte b s).
Proof.
  unfold modregrm_byte.
  pose proof (mod_field_cases b) as Hmod. pose proof (reg_field_cases b) as Hreg.
  generalize dependent (rm_field b). generalize dependent (reg_field b).
  generalize dependent (mod_field b). intros mod_ Hmod reg Hreg rm.
  destruct s as [ph fmt op ins c ob sr de di opd inw sib ds os ops lk asz seg rep].
  cbn [phase_]; intros -> T.
  cbv [settled phase_ modregrm_format_ operation_] in T.
  unfold modregrm_fields, memreg_of. cbn [operation_ set_consumed_].
  each_of Hmod; each_of Hreg; destruct (memory_only op); destruct fmt;
    cbn [assigns] in T; try (destruct T as [T|T]; [discriminate T|]);
    settled_cases.
Qed.

Lemma operation_operands_done s : operation_ (operands_done s) = operation_ s.
Proof.
  unfold operands_done, take_displacement, take_operand.
  repeat match goal with
         | |- context [match ?x with _ => _ end] => destruct x
         end; reflexivity.
Qed.

Lemma settled_by_step m s b f :
  0 <= consumed_ s -> step_spec s f -> stays_settled f ->
  decode m s [b] = outcome f (fun s' => decode m s' []) ->
  posts_named (decode m s [b]).
Proof.
  intros Hc S T E. rewrite E. unfold posts_named.
  destruct f as [r s'|s']; cbn [step_spec stays_settled outcome] in *.
  - destruct S as [-> ->]. unfold count, instruction. cbn [fst snd].
    split; [intros _; left; reflexivity|intros; lia].
  - destruct S as (Ec & _ & [R|W]); rewrite decode_nil.
    + rewrite post_ready by assumption. unfold count, instruction. cbn [fst snd].
      split; [|intros; lia]. intros _. right.
      unfold settled in T. rewrite R in T. exact T.
    + rewrite post_waiting by assumption. unfold count, decoder. cbn [fst snd].
      split; [intros; lia|intros _; exact T].
Qed.

Lemma first_byte_settled m s b :
  between_calls s -> settled s -> posts_named (decode m s [b]).
Proof.
  intros [Hc W] T.
  destruct (phase_ s) eqn:P; try (unfold waiting in W; rewrite P in W; contradiction);
    unfold waiting in W; rewrite P in W.
  - assert (W' : waiting s) by (unfold waiting; rewrite P; assumption).
    apply settled_by_step with (f := step_opcode m s b); try assumption.
    + apply opcode_spec; assumption.
    + apply opcode_settled; assumption.
    + apply decode_instruction; assumption.
  - assert (W' : waiting s) by (unfold waiting; rewrite P; assumption).
    apply settled_by_step with (f := step_page_f m s b); try assumption.
    + apply page_f_spec; assumption.
    + apply page_f_settled.
    + apply decode_page_f; [assumption|apply page_f_spec; assumption].
  - assert (W' : waiting s) by (unfold waiting; rewrite P; assumption).
    apply settled_by_step with (f := modregrm_byte b s); try assumption.
    + apply modregrm_spec; assumption.
    + apply modregrm_settled; assumption.
    + apply decode_modregrm; [assumption|apply modregrm_spec; assumption].
  - rewrite decode_operand by assumption. unfold posts_named.
    pose proof (operands_done_facts (operand_byte b s)) as (Dp & Dc & _).
    unfold settled in T. rewrite P in T.
    destruct (Z.eqb_spec (outstanding s) 1).
    + rewrite post_ready by assumption. unfold count, instruction. cbn [fst snd].
      rewrite Dc. change (consumed_ (operand_byte b s)) with (consumed_ s + 1).
      split; [|intros; lia]. intros _. right.
      unfold instruction_of. cbn [operation]. rewrite operation_operands_done.
      exact T.
    + unfold count, decoder. cbn [fst snd]. split; [intros; lia|]. intros _.
      unfold settled. change (phase_ (operand_byte b s)) with (phase_ s).
      rewrite P. exact T.
Qed.

Lemma after_calls_settled m a calls : settled (after_calls m (initial a) calls).
Proof.
  apply (after_calls_invariant m settled).
  - intros a'. exact I.
  - intros s b T B Hn. apply first_byte_settled; assumption.
  - exact I.
  - apply between_calls_initial.
Qed.

(** ** The bytes of displacements and operands *)

Ltac pows :=
  repeat match goal with
         | |- context [2 ^ ?n] =>
             let v := eval vm_compute in (2 ^ n) in change (2 ^ n) with v
         | H : context [2 ^ ?n] |- _ =>
             let v := eval vm_compute in (2 ^ n) in change (2 ^ n) with v in H
         end.

Ltac euclid := pows; Z.div_mod_to_equations; lia.

Lemma shift_in_value d b :
  0 <= d < 2 ^ 64 -> shift_in d b = d / 2 ^ 8 + byte_value b * 2 ^ 56.
Proof.
  intros Hd. pose proof (byte_value_range b) as Hb.
  unfold shift_in, uint64.
  rewrite Z.shiftr_div_pow2, Z.shiftl_mul_pow2 by lia.
  rewrite Z.mod_small by euclid.
  rewrite <- Z.add_lor_land.
  assert (L : Z.land (d / 2 ^ 8) (byte_value b * 2 ^ 56) = 0).
  { apply Z.bits_inj'. intros n Hn. rewrite Z.land_spec, Z.bits_0.
    destruct (Z.lt_ge_cases n 56) as [Lo|Hi].
    - rewrite Z.mul_pow2_bits_low by lia. apply andb_false_r.
    - destruct (Z.eq_dec (d / 2 ^ 8) 0) as [->|Nz]; [rewrite Z.bits_0; reflexivity|].
      rewrite Z.bits_above_log2; [reflexivity|euclid|].
      apply Z.lt_le_trans with 56; [|exact Hi].
      apply Z.log2_lt_pow2; euclid. }
  rewrite L. lia.
Qed.

Lemma shift_in_range d b : 0 <= d < 2 ^ 64 -> 0 <= shift_in d b < 2 ^ 64.
Proof.
  intros Hd. pose proof (byte_value_range b) as Hb.
  rewrite shift_in_value by assumption. euclid.
Qed.

Ltac record :=
  cbv [phase_ modregrm_format_ operation_ instr_ consumed_ operand_bytes_ source_
       destination_ displacement_ operand_ inward_data_ sib_ displacement_size_
       operand_size_ operation_size_ lock_ address_size_ segment_override_
       repetition_
       set_phase_ set_modregrm_format_ set_operation_ set_instr_ set_consumed_
       set_operand_bytes_ set_source_ set_destination_ set_displacement_
       set_operand_ set_inward_data_ set_sib_ set_displacement_size_
       set_operand_size_ set_operation_size_ set_lock_ set_segment_override_
       set_repetition_].

Lemma fed_cons b bs s : fed bs (operand_byte b s) = fed (b :: bs) s.
Proof.
  destruct s as [ph fmt op ins c ob sr de di opd inw sib ds os ops lk asz seg rep].
  unfold fed, operand_byte. record. cbn [fold_left].
  change (length (b :: bs)) with (S (length bs)).
  f_equal; lia.
Qed.

Lemma decode_all_operands m bs :
  forall s rest,
  phase_ s = Phase.DisplacementOrOperand ->
  0 < outstanding s -> Z.of_nat (length bs) = outstanding s ->
  decode m s (bs ++ rest) = post (operands_done (fed bs s)).
Proof.
  induction bs as [|b bs IH]; intros s rest P N L; [cbn [length] in L; lia|].
  cbn [app]. rewrite decode_operand by assumption.
  assert (Oo : outstanding (operand_byte b s) = outstanding s - 1)
    by (unfold outstanding, operand_byte; fields; lia).
  change (length (b :: bs)) with (S (length bs)) in L.
  destruct (Z.eqb_spec (outstanding s) 1) as [E|E].
  - destruct bs; [|cbn [length] in L; lia].
    rewrite <- fed_cons. f_equal. f_equal.
    destruct s as [ph fmt op ins c ob sr de di opd inw sib ds os ops lk asz seg rep].
    unfold fed, operand_byte. record. cbn [length fold_left]. f_equal; lia.
  - destruct bs as [|b' bs']; [cbn [length] in L; lia|].
    change (b' :: bs' ++ rest) with ((b' :: bs') ++ rest).
    rewrite IH; [rewrite fed_cons; reflexivity|assumption|lia|lia].
Qed.

Lemma operand_operands_done s :
  operand_ (operands_done s) =
  match operand_size_ s with
  | 1 =>
      let v := uint16 (Z.shiftr (inward_data_ s) 56) in
      if (operation_size_ s =? 2) && not_port_io (operation_ s)
      then Z.lor v (if negb (Z.land v 0x80 =? 0) then 0xff00 else 0x0000)
      else v
  | 2 | 4 => uint16 (Z.shiftr (inward_data_ s) 48)
  | _ => 0
  end.
Proof.
  destruct s as [ph fmt op ins c ob sr de di opd inw sib ds os ops lk asz seg rep].
  unfold operands_done. rewrite operand_take_displacement.
  unfold take_operand. record. cbv zeta.
  generalize ((ops =? 2) && not_port_io op). intros ext.
  destruct os as [|p|p]; try reflexivity;
    repeat match goal with
           | |- context [match ?x with _ => _ end] => is_var x; destruct x
           end; reflexivity.
Qed.

Lemma displacement_operands_done s :
  displacement_ (operands_done s) =
  let inward :=
    match operand_size_ s with
    | 1 => uint64 (Z.shiftl (inward_data_ s) 8)
    | 2 | 4 => uint64 (Z.shiftl (inward_data_ s) 16)
    | _ => inward_data_ s
    end in
  match (match operand_size_ s with 4 => 2 | _ => displacement_size_ s end) with
  | 1 => int8 (Z.shiftr inward 56)
  | 2 => int16 (Z.shiftr inward 48)
  | _ => 0
  end.
Proof.
  destruct s as [ph fmt op ins c ob sr de di opd inw sib ds os ops lk asz seg rep].
  unfold operands_done, take_displacement, take_operand. record. cbv zeta.
  generalize ((ops =? 2) && not_port_io op). intros ext.
  destruct os as [|p|p];
    repeat match goal with
           | |- context [match ?x with _ => _ end] => is_var x; destruct x
           end; reflexivity.
Qed.

Ltac bytes_in_range :=
  repeat match goal with
         | b : byte |- _ =>
             lazymatch goal with
             | H : 0 <= byte_value b < 256 |- _ => fail
             | _ => pose proof (byte_value_range b)
             end
         end.

Ltac shifts :=
  unfold uint64, uint16;
  repeat rewrite Z.shiftr_div_pow2 by lia;
  repeat rewrite Z.shiftl_mul_pow2 by lia.

Ltac name_shifts :=
  repeat match goal with
         | |- context [shift_in ?x ?b] =>
             match goal with
             | H : 0 <= x < 2 ^ 64 |- _ =>
                 let v := fresh "x" in
                 pose proof (shift_in_value x b H);
                 pose proof (shift_in_range x b H);
                 set (v := shift_in x b) in *; clearbody v
             end
         end.

Lemma operand_values (m : Model.t) (s : Decoder) (ds os rest : list byte) :
  phase_ s = Phase.DisplacementOrOperand ->
  operand_bytes_ s = 0 ->
  0 <= inward_data_ s < 2 ^ 64 ->
  Z.of_nat (length ds) = displacement_size_ s ->
  Z.of_nat (length os) = operand_size_ s ->
  (length ds <= 2)%nat -> (length os <= 2)%nat -> (0 < length ds + length os)%nat ->
  let r := decode m s (ds ++ os ++ rest) in
  count r = consumed_ s + Z.of_nat (length ds + length os)
  /\ displacement (instruction r) = signed_le ds
  /\ operand (instruction r) =
     match os with
     | [b] => if (operation_size_ s =? 2) && not_port_io (operation_ s)
              then sign_extended b else byte_value b
     | _ => le_value os
     end.
Proof.
  intros P Hob Hd Lds Los Bds Bos Pos. cbv zeta.
  rewrite app_assoc.
  rewrite decode_all_operands;
    [|assumption|unfold outstanding; lia|unfold outstanding; rewrite length_app; lia].
  pose proof (operands_done_facts (fed (ds ++ os) s)) as (Dp & Dc & _).
  rewrite post_ready by assumption.
  unfold count, instruction. cbn [fst snd].
  split; [rewrite Dc; unfold fed; fields; rewrite length_app; lia|].
  clear Dp Dc.
  unfold instruction_of. cbn [displacement operand].
  rewrite displacement_operands_done, operand_operands_done.
  change (operand_size_ (fed (ds ++ os) s)) with (operand_size_ s).
  change (displacement_size_ (fed (ds ++ os) s)) with (displacement_size_ s).
  change (operation_size_ (fed (ds ++ os) s)) with (operation_size_ s).
  change (operation_ (fed (ds ++ os) s)) with (operation_ s).
  change (inward_data_ (fed (ds ++ os) s))
    with (fold_left shift_in (ds ++ os) (inward_data_ s)).
  rewrite <- Lds, <- Los.
  set (inw := inward_data_ s) in *.
  generalize ((operation_size_ s =? 2) && not_port_io (operation_ s)). intros ext.
  clear P Hob Lds Los.
  destruct ds as [|d1 [|d2 [|d3 ds]]]; try (cbn [length] in Bds; lia);
  destruct os as [|o1 [|o2 [|o3 os]]]; try (cbn [length] in Bos; lia);
  try (cbn [length] in Pos; lia); clear Bds Bos Pos;
  cbn [length app fold_left Z.of_nat Pos.of_succ_nat Pos.succ]; cbv zeta;
  unfold signed_le, le_value, sign_extended; cbn [fold_right];
  bytes_in_range.
  all: name_shifts.
  all: split.
  all: try reflexivity.
  all: try match goal with
           | |- context [Z.lor (uint16 (Z.shiftr ?x 56)) _] =>
               replace (Z.shiftr x 56) with (byte_value o1) by (shifts; euclid);
               destruct ext; [exact (sign_extension_byte o1)|unfold uint16; euclid]
           end.
  all: try match goal with
           | |- int8 _ = int8 _ => f_equal
           | |- int16 _ = int16 _ => f_equal
           end.
  all: shifts; euclid.
Qed.

Lemma far_operand_values (m : Model.t) (s : Decoder) (ds : list byte)
    (p1 p2 p3 p4 : byte) (rest : list byte) :
  phase_ s = Phase.DisplacementOrOperand ->
  operand_bytes_ s = 0 ->
  0 <= inward_data_ s < 2 ^ 64 ->
  Z.of_nat (length ds) = displacement_size_ s ->
  operand_size_ s = 4 ->
  (length ds <= 2)%nat ->
  let r := decode m s (ds ++ p1 :: p2 :: p3 :: p4 :: rest) in
  count r = consumed_ s + Z.of_nat (length ds) + 4
  /\ displacement (instruction r) = int16 (byte_value p1 + 256 * byte_value p2)
  /\ operand (instruction r) = byte_value p3 + 256 * byte_value p4.
Proof.
  intros P Hob Hd Lds Los Bds. cbv zeta.
  change (ds ++ p1 :: p2 :: p3 :: p4 :: rest) with (ds ++ [p1; p2; p3; p4] ++ rest).
  rewrite app_assoc.
  rewrite decode_all_operands;
    [|assumption|unfold outstanding; lia
     |unfold outstanding; rewrite length_app; cbn [length]; lia].
  pose proof (operands_done_facts (fed (ds ++ [p1; p2; p3; p4]) s)) as (Dp & Dc & _).
  rewrite post_ready by assumption.
  unfold count, instruction. cbn [fst snd].
  split; [rewrite Dc; unfold fed; fields; rewrite length_app; cbn [length]; lia|].
  clear Dp Dc.
  unfold instruction_of. cbn [displacement operand].
  rewrite displacement_operands_done, operand_operands_done.
  change (operand_size_ (fed (ds ++ [p1; p2; p3; p4]) s)) with (operand_size_ s).
  change (displacement_size_ (fed (ds ++ [p1; p2; p3; p4]) s))
    with (displacement_size_ s).
  change (inward_data_ (fed (ds ++ [p1; p2; p3; p4]) s))
    with (fold_left shift_in (ds ++ [p1; p2; p3; p4]) (inward_data_ s)).
  rewrite Los. cbv zeta.
  set (inw := inward_data_ s) in *.
  clear P Hob Lds Los.
  destruct ds as [|d1 [|d2 [|d3 ds]]]; try (cbn [length] in Bds; lia); clear Bds;
    cbn [app fold_left]; bytes_in_range; name_shifts;
    (split; [f_equal|]); shifts; euclid.
Qed.

(** ** The accumulator between calls *)

Ltac inward_cases :=
  cbv -[Z.add Z.sub Z.lt Z.le Z.eqb];
  repeat match goal with
         | |- context [Z.eqb ?a ?b] => destruct (Z.eqb_spec a b)
         end;
  try exact I; reflexivity.

Lemma opcode_keeps_inward m s b : keeps_inward s (step_opcode m s b).
Proof.
  destruct s as [ph fmt op ins c ob sr de di opd inw sib ds os ops lk asz seg rep].
  destruct b, m; inward_cases.
Qed.

Lemma page_f_keeps_inward m s b : keeps_inward s (step_page_f m s b).
Proof.
  unfold step_page_f. rewrite page_f_instr_byte.
  destruct s as [ph fmt op ins c ob sr de di opd inw sib ds os ops lk asz seg rep].
  destruct b, m; inward_cases.
Qed.

Lemma modregrm_keeps_inward s b : keeps_inward s (modregrm_byte b s).
Proof.
  unfold modregrm_byte.
  pose proof (mod_field_cases b) as Hmod. pose proof (reg_field_cases b) as Hreg.
  generalize dependent (rm_field b). generalize dependent (reg_field b).
  generalize dependent (mod_field b). intros mod_ Hmod reg Hreg rm.
  destruct s as [ph fmt op ins c ob sr de di opd inw sib ds os ops lk asz seg rep].
  unfold modregrm_fields, memreg_of. cbn [operation_ set_consumed_].
  each_of Hmod; each_of Hreg; destruct (memory_only op); destruct fmt; inward_cases.
Qed.

Lemma inward_by_step m s b f :
  in_uint64 s -> step_spec s f -> keeps_inward s f ->
  decode m s [b] = outcome f (fun s' => decode m s' []) ->
  count (decode m s [b]) <= 0 -> in_uint64 (decoder (decode m s [b])).
Proof.
  intros U S K E. rewrite E.
  destruct f as [r s'|s']; cbn [step_spec keeps_inward outcome] in *.
  - destruct S as [-> ->]. intros _. unfold in_uint64. cbn. lia.
  - destruct S as (_ & _ & [R|W]); rewrite decode_nil.
    + rewrite post_ready by assumption. intros _. unfold in_uint64. cbn. lia.
    + rewrite post_waiting by assumption. intros _.
      unfold in_uint64, decoder. cbn [snd]. rewrite K. exact U.
Qed.

Lemma first_byte_in_uint64 m s b :
  between_calls s -> in_uint64 s ->
  count (decode m s [b]) <= 0 -> in_uint64 (decoder (decode m s [b])).
Proof.
  intros [Hc W] U.
  destruct (phase_ s) eqn:P; try (unfold waiting in W; rewrite P in W; contradiction).
  - apply inward_by_step with (f := step_opcode m s b); try assumption.
    + apply opcode_spec; assumption.
    + apply opcode_keeps_inward.
    + apply decode_instruction; assumption.
  - apply inward_by_step with (f := step_page_f m s b); try assumption.
    + apply page_f_spec; assumption.
    + apply page_f_keeps_inward.
    + apply decode_page_f; [assumption|apply page_f_spec; assumption].
  - apply inward_by_step with (f := modregrm_byte b s); try assumption.
    + apply modregrm_spec; assumption.
    + apply modregrm_keeps_inward.
    + apply decode_modregrm; [assumption|apply modregrm_spec; assumption].
  - unfold waiting in W. rewrite P in W.
    rewrite decode_operand by assumption.
    destruct (Z.eqb_spec (outstanding s) 1).
    + rewrite post_ready by apply operands_done_facts.
      intros _. unfold in_uint64. cbn. lia.
    + intros _. unfold in_uint64, decoder. cbn [snd].
      change (inward_data_ (operand_byte b s)) with (shift_in (inward_data_ s) b).
      apply shift_in_range. exact U.
Qed.

Lemma after_calls_in_uint64 m a calls : in_uint64 (after_calls m (initial a) calls).
Proof.
  apply (after_calls_invariant m in_uint64).
  - intros a'. unfold in_uint64. cbn. lia.
  - intros s b U B Hn. apply first_byte_in_uint64; assumption.
  - unfold in_uint64. cbn. lia.
  - apply between_calls_initial.
Qed.

(** ** Whole instructions *)

Lemma instruction_of_operands_done s :
  instruction_of (operands_done s) =
  mkInstruction (operation_ s) (source_ s) (destination_ s) (sib_ s) (lock_ s)
    (address_size_ s) (segment_override_ s) (repetition_ s) (operation_size_ s)
    (displacement_ (operands_done s)) (operand_ (operands_done s)).
Proof.
  unfold instruction_of, operands_done, take_displacement, take_operand.
  repeat match goal with
         | |- context [match ?x with _ => _ end] => destruct x
         end; reflexivity.
Qed.

Lemma decode_operands_frame m s bs rest :
  phase_ s = Phase.DisplacementOrOperand ->
  0 < outstanding s -> Z.of_nat (length bs) = outstanding s ->
  framed s (decode m s (bs ++ rest)).
Proof.
  intros P N L. rewrite decode_all_operands by assumption.
  rewrite post_ready by apply operands_done_facts.
  unfold framed, instruction, decoder. cbn [fst snd].
  rewrite instruction_of_operands_done.
  destruct (operands_done_facts (fed bs s)) as (_ & _ & Da). rewrite Da.
  repeat split.
Qed.

(** *** Short jumps *)

Lemma decode_jump m a op o d rest :
  let s := Jump o (set_consumed_ 1 (set_instr_ op (initial a))) in
  let r := decode m s (d :: rest) in
  count r = 2
  /\ operation (instruction r) = o
  /\ displacement (instruction r) = int8 (byte_value d)
  /\ operand (instruction r) = 0
  /\ decoder r = initial a.
Proof.
  intros s r.
  destruct (operand_values m s [d] [] rest) as (Hc & Hd & Ho);
    try reflexivity; try (cbn; lia).
  destruct (decode_operands_frame m s [d] rest) as (Fo & _ & _ & _ & _ & Fd);
    try reflexivity.
  cbn [app] in *. fold r in Hc, Hd, Ho, Fo, Fd.
  repeat split; try assumption.
  rewrite Hd. unfold signed_le, le_value. cbn [fold_right]. f_equal. lia.
Qed.

(** *** Register and immediate *)

Lemma decode_reg_data m a op o dest size imm rest :
  size = 1 \/ size = 2 ->
  Z.of_nat (length imm) = size ->
  let s := RegData o dest size (set_consumed_ 1 (set_instr_ op (initial a))) in
  let r := decode m s (imm ++ rest) in
  count r = 1 + size
  /\ operation (instruction r) = o
  /\ source (instruction r) = Source.Immediate
  /\ destination (instruction r) = dest
  /\ operation_size (instruction r) = size
  /\ operand (instruction r) = le_value imm
  /\ decoder r = initial a.
Proof.
  intros Hs L s r.
  assert (O : outstanding s = size) by (unfold outstanding; cbn; lia).
  destruct (operand_values m s [] imm rest) as (Hc & _ & Ho);
    try reflexivity; try exact L; try (cbn [length]; lia); try (cbn; lia).
  destruct (decode_operands_frame m s imm rest) as (Fo & Fs & Fd & _ & Fz & Fi);
    try reflexivity; try lia.
  cbn [app] in *. fold r in Hc, Ho, Fo, Fs, Fd, Fz, Fi.
  repeat split; try assumption.
  - rewrite Hc. change (consumed_ s) with 1. cbn [length Nat.add]. lia.
  - rewrite Ho. destruct imm as [|i [|i' imm]]; try reflexivity.
    cbn [length] in L. change (operation_size_ s) with size.
    destruct Hs as [-> | ->]; [|lia].
    cbn. unfold le_value. cbn [fold_right]. lia.
Qed.

(** *** Two operands *)

Lemma decode_word_load_memory m a op o b ds rest :
  mod_field b = 1 \/ mod_field b = 2 ->
  Z.of_nat (length ds) = mod_field b ->
  let s := MemRegReg o ModRegRMFormat.Reg_MemReg 2
             (set_consumed_ 1 (set_instr_ op (initial a))) in
  let r := decode m s (b :: ds ++ rest) in
  count r = 2 + mod_field b
  /\ operation (instruction r) = o
  /\ source (instruction r) = Source.Indirect
  /\ destination (instruction r) = reg_table 2 (reg_field b)
  /\ effective_address (instruction r) = rm_table (rm_field b)
  /\ displacement (instruction r) = signed_le ds
  /\ operand (instruction r) = 0
  /\ decoder r = initial a.
Proof.
  intros Hmod L s1. cbv zeta.
  assert (W1 : waiting s1) by (repeat split; cbn; lia).
  destruct (modregrm_spec s1 b eq_refl W1) as [_ Q].
  rewrite decode_modregrm by (reflexivity || assumption). clear Q.
  unfold modregrm_byte.
  generalize dependent (mod_field b). intros mod_ Hmod L.
  set (s2 := after_modregrm
               (set_destination_ (reg_table 2 (reg_field b))
                  (set_source_ Source.Indirect
                     (set_sib_ (rm_table (rm_field b))
                        (set_displacement_size_ mod_
                           (set_consumed_ 2 s1)))))).
  assert (E : modregrm_fields mod_ (reg_field b) (rm_field b) s1 = Continue s2)
    by (destruct Hmod as [-> | ->]; reflexivity).
  rewrite E. cbn [outcome].
  assert (P2 : phase_ s2 = Phase.DisplacementOrOperand)
    by (destruct Hmod as [-> | ->]; reflexivity).
  destruct (operand_values m s2 ds [] rest) as (Hc & Hd & Ho);
    try assumption; try reflexivity; try (cbn; lia); try (cbn [length]; lia).
  destruct (decode_operands_frame m s2 ds rest) as (Fo & Fs & Fd & Fe & _ & Fi);
    try assumption; try (unfold outstanding; cbn; lia).
  cbn [app] in *.
  repeat split; try assumption.
  rewrite Hc. change (consumed_ s2) with 2. cbn [length]. lia.
Qed.

Lemma decode_word_load_register m a op o b rest :
  mod_field b = 3 ->
  let s := MemRegReg o ModRegRMFormat.Reg_MemReg 2
             (set_consumed_ 1 (set_instr_ op (initial a))) in
  let r := decode m s (b :: rest) in
  if memory_only o
  then r = ((2, InstructionT_default), initial a)
  else r = ((2, mkInstruction o (reg_table 2 (rm_field b)) (reg_table 2 (reg_field b))
                  ScaleIndexBase_default false a Source.None Repetition.None 2 0 0),
            initial a).
Proof.
  intros Hmod s1. cbv zeta.
  assert (W1 : waiting s1) by (repeat split; cbn; lia).
  destruct (modregrm_spec s1 b eq_refl W1) as [_ Q].
  rewrite decode_modregrm by (reflexivity || assumption). clear Q.
  unfold modregrm_byte. rewrite Hmod.
  destruct (memory_only o) eqn:M.
  - assert (E : modregrm_fields 3 (reg_field b) (rm_field b) s1
                = undefined (set_consumed_ 2 s1)).
    { unfold modregrm_fields, memreg_of.
      change (operation_ (set_consumed_ (consumed_ s1 + 1) s1)) with o.
      rewrite M. reflexivity. }
    rewrite E. reflexivity.
  - set (s2 := after_modregrm
                 (set_destination_ (reg_table 2 (reg_field b))
                    (set_source_ (reg_table 2 (rm_field b)) (set_consumed_ 2 s1)))).
    assert (E : modregrm_fields 3 (reg_field b) (rm_field b) s1 = Continue s2).
    { unfold modregrm_fields, memreg_of.
      change (operation_ (set_consumed_ (consumed_ s1 + 1) s1)) with o.
      rewrite M. reflexivity. }
    rewrite E. cbn [outcome]. rewrite decode_ready by reflexivity. reflexivity.
Qed.

(** *** ENTER *)

Lemma decode_enter m a d1 d2 o rest :
  let s := Displacement16Operand8 Operation.ENTER
             (set_consumed_ 1 (set_instr_ xc8 (initial a))) in
  let r := decode m s (d1 :: d2 :: o :: rest) in
  count r = 4
  /\ operation (instruction r) = Operation.ENTER
  /\ displacement (instruction r) = int16 (byte_value d1 + 256 * byte_value d2)
  /\ operand (instruction r) = byte_value o
  /\ decoder r = initial a.
Proof.
  intros s r.
  destruct (operand_values m s [d1; d2] [o] rest) as (Hc & Hd & Ho);
    try reflexivity; try (cbn; lia).
  destruct (decode_operands_frame m s [d1; d2; o] rest) as (Fo & _ & _ & _ & _ & Fd);
    try reflexivity.
  cbn [app] in *. fold r in Hc, Hd, Ho, Fo, Fd.
  repeat split; try assumption.
  rewrite Hd. unfold signed_le, le_value. cbn [fold_right]. f_equal. lia.
Qed.

(** *** Shifts and rotates by one *)

Ltac modregrm_step :=
  match goal with
  | |- context [modregrm_fields ?x ?y ?z ?s] =>
      let f := eval cbv -[rm_table reg_table] in (modregrm_fields x y z s) in
      change (modregrm_fields x y z s) with f; cbn [outcome]
  end.

Lemma decode_shift_by_one m a op o b ds rest :
  op = xd0 \/ op = xd1 ->
  rotation (reg_field b) = Some o ->
  Z.of_nat (length ds) = displacement_bytes b ->
  let s := set_operand_ 1 (set_source_ Source.Immediate
             (shift_group (set_consumed_ 1 (set_instr_ op (initial a))))) in
  let r := decode m s (b :: ds ++ rest) in
  count r = 2 + displacement_bytes b
  /\ operation (instruction r) = o
  /\ source (instruction r) = Source.Immediate
  /\ destination (instruction r) =
     (if mod_field b =? 3 then reg_table (1 + Z.land (byte_value op) 1) (rm_field b)
      else Source.Indirect)
  /\ operation_size (instruction r) = 1 + Z.land (byte_value op) 1
  /\ displacement (instruction r) = signed_le ds
  /\ operand (instruction r) = (if displacement_bytes b =? 0 then 1 else 0)
  /\ decoder r = initial a.
Proof.
  intros Hop R L s1. cbv zeta.
  assert (W1 : waiting s1) by (destruct Hop; subst op; repeat split; cbn; lia).
  destruct (modregrm_spec s1 b eq_refl W1) as [_ Q].
  rewrite decode_modregrm by (reflexivity || assumption). clear Q W1.
  unfold modregrm_byte. unfold displacement_bytes in *.
  pose proof (mod_field_cases b) as Hmod. pose proof (reg_field_cases b) as Hreg.
  generalize dependent (rm_field b). generalize dependent (reg_field b).
  generalize dependent (mod_field b). intros mod_ L Hmod reg R Hreg rm.
  subst s1.
  destruct Hop as [-> | ->]; each_of Hmod; each_of Hreg;
    cbn [rotation] in R; try discriminate R; injection R as <-;
    modregrm_step;
    first
      [ rewrite decode_ready by reflexivity; repeat apply conj; try reflexivity;
        destruct ds; [reflexivity | cbn [length] in L; lia]
      | match goal with
        | |- context [decode m ?s2 _] =>
            destruct (operand_values m s2 ds [] rest) as (Hc & Hd & Ho);
              try reflexivity; try exact L; try (cbn [length]; lia); try (cbn; lia);
            destruct (decode_operands_frame m s2 ds rest)
              as (Fo & Fs & Fd & Fe & Fz & Fi);
              try reflexivity; try exact L;
            cbn [app] in *; repeat apply conj;
            first [assumption | rewrite Hc; cbn [consumed_ length]; lia]
        end ].
Qed.

(** * Properties *)

(** ** Chunking *)

(** C1.  However a stream of bytes is cut into chunks, a caller that hands
    the chunks to one decoder, one call after the other, ends with the
    same posted results (each a count and an instruction, in order), the
    same decoder and the same number of pending bytes as a caller that
    hands over the whole stream in one chunk; so does a caller that hands
    over one byte per call.  All three agree with the stream taken byte
    by byte. *)
Theorem chunk_invariance (m : Model.t) (a : Z) (chunks : list (list byte)) :
  let stream := concat chunks in
  drive m a chunks = drive m a [stream]
  /\ drive m a (map (fun b => [b]) stream) = drive m a [stream]
  /\ drive m a chunks = by_bytes m (start a) stream.
Proof.
  intros stream. rewrite !drive_by_bytes.
  assert (E1 : concat [stream] = stream) by (cbn; apply app_nil_r).
  assert (E2 : concat (map (fun b => [b]) stream) = stream).
  { clear. induction stream as [|b l IH]; [reflexivity|]. cbn. f_equal. exact IH. }
  rewrite E1, E2. repeat split.
Qed.

(** MOV AX, 1234h and a NOP, cut in three places and in none. *)
Example mov_ax_in_pieces :
  let mov := mkInstruction Operation.MOV Source.Immediate Source.eAX
               ScaleIndexBase_default false 2 Source.None Repetition.None
               2 0 0x1234 in
  let nop := mkInstruction Operation.NOP Source.None Source.None
               ScaleIndexBase_default false 2 Source.None Repetition.None
               0 0 0 in
  posted (drive Model.i8086 2 [[xb8]; [x34]; [x12; x90]]) = [(3, mov); (1, nop)]
  /\ posted (drive Model.i8086 2 [[xb8; x34; x12; x90]]) = [(3, mov); (1, nop)].
Proof. vm_compute. split; reflexivity. Qed.

(** A far call: the four operand bytes become a displacement (the offset)
    and an operand (the segment), whether they come at once or one by one. *)
Example far_call_in_pieces :
  let far := mkInstruction Operation.CALLF Source.None Source.None
               ScaleIndexBase_default false 2 Source.None Repetition.None
               0 0x0201 0x0403 in
  posted (drive Model.i80286 2 [[x9a; x01; x02; x03; x04]]) = [(5, far)]
  /\ posted (drive Model.i80286 2 [[x9a]; [x01]; [x02]; [x03]; [x04]]) = [(5, far)].
Proof. vm_compute. split; reflexivity. Qed.

(** ** Single instructions *)

Ltac run_decode :=
  intros; vm_compute; repeat apply conj; try reflexivity; try discriminate.

(** C5.  The byte 0x60 on its own is rejected by an 8086 decoder, which
    returns the count 1 and the undefined instruction; the 80186, the
    80286 and the 80386 decoders return the count 1 and PUSHA. *)
Theorem pusha_model_gating (a : Z) :
  let pusha := mkInstruction Operation.PUSHA Source.None Source.None
                 ScaleIndexBase_default false a Source.None Repetition.None 2 0 0 in
  decode Model.i8086 (initial a) [x60] = ((1, InstructionT_default), initial a)
  /\ operation InstructionT_default = Operation.Undefined
  /\ decode Model.i80186 (initial a) [x60] = ((1, pusha), initial a)
  /\ decode Model.i80286 (initial a) [x60] = ((1, pusha), initial a)
  /\ decode Model.i80386 (initial a) [x60] = ((1, pusha), initial a).
Proof. run_decode. Qed.

(** C8.  A call that supplies only the repeat prefix 0xF3 returns the
    count 0; a second call on the same decoder that supplies 0xAA posts
    STOS with the count 2 and the repetition RepE (repeat while equal). *)
Theorem repeat_prefix_resumes (m : Model.t) (a : Z) :
  let first := decode m (initial a) [xf3] in
  let second := decode m (decoder first) [xaa] in
  count first = 0
  /\ count second = 2
  /\ instruction second =
       mkInstruction Operation.STOS Source.None Source.None
         ScaleIndexBase_default false a Source.None Repetition.RepE 1 0 0
  /\ repetition (instruction second) = Repetition.RepE.
Proof. destruct m; run_decode. Qed.

(** C9.  The two bytes 0x0F 0x05 post LOADALL on the 80286 alone: the
    80386 decoder rejects the pair, and the decoders before the 80286
    reject the 0x0F byte itself.  So the instruction is not undefined
    exactly when the model is the 80286, in one call or in two. *)
Theorem loadall_only_on_80286 (a : Z) :
  decode Model.i80286 (initial a) [x0f; x05] =
    ((2, mkInstruction Operation.LOADALL Source.None Source.None
           ScaleIndexBase_default false a Source.None Repetition.None 0 0 0),
     initial a)
  /\ decode Model.i80386 (initial a) [x0f; x05] = ((2, InstructionT_default), initial a)
  /\ decode Model.i80186 (initial a) [x0f; x05] = ((1, InstructionT_default), initial a)
  /\ decode Model.i8086 (initial a) [x0f; x05] = ((1, InstructionT_default), initial a)
  /\ (forall m,
        operation (instruction (decode m (initial a) [x0f; x05])) <> Operation.Undefined
        <-> m = Model.i80286)
  /\ decode Model.i80286 (decoder (decode Model.i80286 (initial a) [x0f])) [x05] =
     decode Model.i80286 (initial a) [x0f; x05]
  /\ decode Model.i80386 (decoder (decode Model.i80386 (initial a) [x0f])) [x05] =
     decode Model.i80386 (initial a) [x0f; x05].
Proof.
  repeat apply conj.
  5: { intros m; split.
       - destruct m; vm_compute; intro H; try reflexivity;
           exfalso; apply H; reflexivity.
       - intros ->. vm_compute. discriminate. }
  all: vm_compute; reflexivity.
Qed.

(** ** Phases *)

(** C10.  After any series of calls on a fresh decoder, whatever the
    model and the buffers, the decoder is in one of the five phases
    Instruction, InstructionPageF, ModRegRM, DisplacementOrOperand and
    ReadyToPost, never in ScaleIndexBase; and in every further call the
    decoder that reaches the ScaleIndexBase block is in one of the five
    too, so that the block leaves it and the buffer as they are. *)
Theorem scale_index_base_unreachable (m : Model.t) (a : Z) (calls : list (list byte)) :
  let s := after_calls m (initial a) calls in
  In (phase_ s) posting_phases
  /\ phase_ s <> Phase.ScaleIndexBase
  /\ forall src,
       match opcode_blocks m s src with
       | Return _ _ => True
       | Continue (s', src') =>
           In (phase_ s') posting_phases
           /\ phase_ s' <> Phase.ScaleIndexBase
           /\ scale_index_base s' src' = (s', src')
       end.
Proof.
  intros s.
  destruct (after_calls_initial m a calls) as [[_ W] _]. fold s in W.
  assert (P : progressed s) by (right; exact W).
  destruct (progressed_phase s P) as [H1 H2].
  split; [exact H1|]. split; [exact H2|].
  intros src. pose proof (opcode_blocks_progressed m s src P) as Q.
  destruct (opcode_blocks m s src) as [r s'|[s' src']]; [exact I|].
  cbn [flow_progressed] in Q.
  destruct (progressed_phase s' Q) as [H3 H4].
  split; [exact H3|]. split; [exact H4|].
  apply scale_index_base_skip. exact H4.
Qed.

(** ** Reset *)

(** C4.  Whenever a call on a decoder that has been driven from its
    construction returns a positive count, the decoder is the one it was
    at construction; a NOP decoded next has the count 1, no lock, no
    segment override and no repetition, whatever came before. *)
Theorem reset_after_posting (m : Model.t) (a : Z) (calls : list (list byte))
    (src : list byte) :
  let r := decode m (after_calls m (initial a) calls) src in
  0 < count r ->
  decoder r = initial a
  /\ forall rest,
       let nop := decode m (decoder r) (x90 :: rest) in
       count nop = 1
       /\ operation (instruction nop) = Operation.NOP
       /\ lock (instruction nop) = false
       /\ segment_override (instruction nop) = Source.None
       /\ repetition (instruction nop) = Repetition.None
       /\ decoder nop = initial a.
Proof.
  intros r Hr.
  destruct (after_calls_initial m a calls) as [B A].
  pose proof (decode_call m src _ B) as C. cbv zeta in C.
  change (decode m (after_calls m (initial a) calls) src) with r in C.
  destruct C as [(_ & Hd & _)|(Hn & _)]; [|lia].
  rewrite A in Hd. split; [exact Hd|].
  intros rest. cbv zeta. rewrite Hd, decode_nop. repeat split.
Qed.

Lemma reset_after_posting_witness :
  0 < count (decode Model.i8086 (after_calls Model.i8086 (initial 2) [[xf0]; [x26; xf3]]) [xaa])
  /\ decoder (decode Model.i8086 (after_calls Model.i8086 (initial 2) [[xf0]; [x26; xf3]]) [xaa])
     = initial 2.
Proof.
  split; [vm_compute; reflexivity|].
  apply (reset_after_posting Model.i8086 2 [[xf0]; [x26; xf3]] [xaa]).
  vm_compute. reflexivity.
Defined.

(** ** Operand bytes *)

(** C3, as amended.  The opcode 0xB8 on its own yields the count 0 and
    leaves the decoder waiting for two operand bytes; one immediate byte,
    in the same call or the next, yields -1; the count 3 is returned by
    the call that supplies the second immediate byte, however the bytes
    are cut.  Whenever a call returns a negative count [-n], the decoder
    waits for exactly [n] more bytes: a next call with no byte returns 0
    and changes nothing, one with [k] bytes, [0 < k < n], returns
    [-(n - k)], and one with [n] bytes or more posts the instruction. *)
Theorem operand_bytes_signalled :
  (forall m a, decode m (initial a) [xb8] =
     ((0, InstructionT_default),
      RegData Operation.MOV Source.eAX 2 (set_consumed_ 1 (set_instr_ xb8 (initial a)))))
  /\ (forall m a b1,
        count (decode m (initial a) [xb8; b1]) = -1
        /\ count (decode m (decoder (decode m (initial a) [xb8])) [b1]) = -1)
  /\ (forall m a b1 b2 rest,
        count (decode m (initial a) (xb8 :: b1 :: b2 :: rest)) = 3
        /\ count (decode m (decoder (decode m (initial a) [xb8; b1])) (b2 :: rest)) = 3
        /\ count (decode m (decoder (decode m (decoder (decode m (initial a) [xb8])) [b1]))
                   (b2 :: rest)) = 3)
  /\ (forall m a calls src,
        let r := decode m (after_calls m (initial a) calls) src in
        count r < 0 ->
        phase_ (decoder r) = Phase.DisplacementOrOperand
        /\ outstanding (decoder r) = - count r
        /\ forall more,
             let k := Z.of_nat (length more) in
             let r' := decode m (decoder r) more in
             (k = 0 -> count r' = 0 /\ decoder r' = decoder r)
             /\ (0 < k < - count r ->
                 count r' = count r + k
                 /\ outstanding (decoder r') = - count r')
             /\ (- count r <= k -> 0 < count r')).
Proof.
  assert (S0 : forall m a,
            decode m (initial a) [xb8] =
            ((0, InstructionT_default),
             RegData Operation.MOV Source.eAX 2
               (set_consumed_ 1 (set_instr_ xb8 (initial a))))).
  { intros. rewrite decode_mov_ax, decode_nil. reflexivity. }
  assert (S1 : forall a,
            let s := RegData Operation.MOV Source.eAX 2
                       (set_consumed_ 1 (set_instr_ xb8 (initial a))) in
            phase_ s = Phase.DisplacementOrOperand /\ outstanding s = 2
            /\ consumed_ s = 1).
  { intros. repeat split. }
  split; [exact S0|]. split; [|split].
  - intros m a b1.
    destruct (S1 a) as (P & N & C). cbv zeta in *.
    rewrite S0, decode_mov_ax. unfold decoder at 1. cbn [snd].
    destruct (decode_operands m [b1] _ P ltac:(lia)) as (_ & H & _).
    cbv zeta in H. rewrite N in H. cbn [length] in H.
    destruct H as (H & _); [lia|]. split; exact H.
  - intros m a b1 b2 rest.
    destruct (S1 a) as (P & N & C). cbv zeta in *.
    rewrite S0, !decode_mov_ax. unfold decoder at 3. cbn [snd].
    set (s := RegData Operation.MOV Source.eAX 2
                (set_consumed_ 1 (set_instr_ xb8 (initial a)))) in *.
    destruct (decode_operands m (b1 :: b2 :: rest) s P ltac:(lia)) as (_ & _ & H3).
    destruct (decode_operands m [b1] s P ltac:(lia)) as (_ & H1 & _).
    cbv zeta in *. rewrite N, C in *.
    change (length (b1 :: b2 :: rest)) with (S (S (length rest))) in H3.
    cbn [length] in H1.
    destruct H1 as (H1c & H1p & H1o); [lia|].
    split; [rewrite H3; lia|].
    assert (C1 : consumed_ (decoder (decode m s [b1])) = 2).
    { rewrite decode_operand by (assumption || lia). rewrite N. reflexivity. }
    destruct (decode_operands m (b2 :: rest) _ H1p ltac:(lia)) as (_ & _ & H).
    cbv zeta in H. rewrite H1o, C1 in H.
    change (length (b2 :: rest)) with (S (length rest)) in H.
    split; rewrite H; lia.
  - intros m a calls src r Hr.
    destruct (after_calls_initial m a calls) as [B A].
    pose proof (decode_call m src _ B) as C. cbv zeta in C.
    change (decode m (after_calls m (initial a) calls) src) with r in C.
    destruct C as [(Hp & _)|(_ & Hb & _ & _ & Hneg)]; [lia|].
    destruct (Hneg Hr) as [P N].
    split; [exact P|]. split; [exact N|].
    intros more. cbv zeta.
    destruct (decode_operands m more _ P ltac:(lia)) as (H0 & H1 & H2).
    cbv zeta in *. rewrite N in *. repeat split.
    + rewrite H0 by assumption. reflexivity.
    + rewrite H0 by assumption. reflexivity.
    + destruct H1 as (H1 & _); [assumption|]. lia.
    + destruct H1 as (H1 & _ & H3); [assumption|]. lia.
    + intros Hk. rewrite H2 by assumption. destruct Hb as [Hb _]. lia.
Qed.

Lemma operand_bytes_signalled_witness :
  count (decode Model.i8086 (after_calls Model.i8086 (initial 2) [[xb8]]) [x34]) < 0
  /\ outstanding
       (decoder (decode Model.i8086 (after_calls Model.i8086 (initial 2) [[xb8]]) [x34]))
     = 1.
Proof.
  split; [vm_compute; reflexivity|].
  destruct operand_bytes_signalled as (_ & _ & _ & H).
  destruct (H Model.i8086 2 [[xb8]] [x34]) as (_ & Ho & _).
  - vm_compute. reflexivity.
  - rewrite Ho. vm_compute. reflexivity.
Defined.

(** C3 as stated fails: the opcode byte 0xB8 alone does not yield -2. *)
Lemma operand_bytes_signalled_counterexample :
  count (decode Model.i8086 (initial 2) [xb8]) <> -2.
Proof. vm_compute. discriminate. Qed.

(** ** Immediate operands *)

(** C6.  The bytes 0x83 0xE8 0xFF decode to SUB with destination AX, an
    immediate source and the operand 0xFFFF.  In general, when the last
    byte that the decoder waits for is a one-byte operand of an operation
    of size 2 other than IN and OUT, the posted operand is that byte
    sign-extended to sixteen bits.  (0x7F stays 0x007F, and IN with the
    port 0xFF keeps 0x00FF.) *)
Theorem immediate_sign_extended :
  (forall m a,
     decode m (initial a) [x83; xe8; xff] =
     ((3, mkInstruction Operation.SUB Source.Immediate Source.eAX
            ScaleIndexBase_default false a Source.None Repetition.None 2 0 0xffff),
      initial a))
  /\ (forall m a,
        operand (instruction (decode m (initial a) [x83; xe8; x7f])) = 0x007f
        /\ operand (instruction (decode m (initial a) [xe5; xff])) = 0x00ff)
  /\ (forall m s imm rest,
        phase_ s = Phase.DisplacementOrOperand ->
        outstanding s = 1 ->
        operand_size_ s = 1 ->
        operation_size_ s = 2 ->
        not_port_io (operation_ s) = true ->
        0 <= inward_data_ s < 2 ^ 64 ->
        let r := decode m s (imm :: rest) in
        count r = consumed_ s + 1
        /\ operand (instruction r) = sign_extended imm).
Proof.
  split; [intros; vm_compute; reflexivity|].
  split; [intros; split; vm_compute; reflexivity|].
  intros m s imm rest P N Ho Hs Hio Hd. cbv zeta.
  rewrite decode_operand by (assumption || lia).
  rewrite N. cbn [Z.eqb Pos.eqb].
  pose proof (operands_done_facts (operand_byte imm s)) as (Dp & Dc & _).
  rewrite post_ready by assumption.
  unfold count, instruction. cbn [fst snd]. split; [rewrite Dc; reflexivity|].
  unfold instruction_of. cbn [operand]. unfold operands_done.
  rewrite operand_take_displacement.
  destruct s as [ph fmt op ins c ob sr de di opd inw sib ds os ops lk asz seg rep].
  unfold operand_byte, take_operand. fields. subst os ops.
  cbn [Z.eqb Pos.eqb andb]. rewrite Hio. fields.
  rewrite shift_in_top by assumption.
  apply sign_extension_byte.
Qed.

Lemma immediate_sign_extended_witness :
  let s := after_calls Model.i8086 (initial 2) [[x83; xe8]] in
  operand (instruction (decode Model.i8086 s [xff])) = sign_extended xff
  /\ sign_extended xff = 0xffff.
Proof.
  intros s. split; [|vm_compute; reflexivity].
  destruct immediate_sign_extended as (_ & _ & H).
  apply (H Model.i8086 s xff []); vm_compute; try reflexivity.
  split; [discriminate|reflexivity].
Defined.

(** ** Groups *)

(** C7.  After any prefixes, an opcode that hands the reg field of the
    ModRegRM byte to a group, followed by a ModRegRM byte whose reg field
    the group assigns no meaning, is rejected: the count is the number of
    bytes up to and including the ModRegRM byte, the instruction is the
    undefined one, and the decoder is as it was at construction. *)
Theorem group_decode_rejects (m : Model.t) (a : Z) (prefixes op : list byte)
    (format : ModRegRMFormat.t) (b : byte) (rest : list byte) :
  Forall (fun p => is_prefix p = true) prefixes ->
  In (op, format) (group_opcodes m) ->
  assigned format (reg_field b) = false ->
  let r := decode m (initial a) (prefixes ++ op ++ b :: rest) in
  count r = Z.of_nat (length prefixes + length op + 1)
  /\ 0 < count r
  /\ instruction r = InstructionT_default
  /\ operation (instruction r) = Operation.Undefined
  /\ decoder r = initial a.
Proof.
  intros Hp Hop Hreg. cbv zeta.
  destruct (decode_prefixes m a prefixes Hp (initial a) 0 (op ++ b :: rest))
    as (s1 & S1 & D1).
  { repeat split; try apply between_calls_initial. }
  destruct (decode_group_opcode m a op format Hop s1 _ (b :: rest) S1)
    as (s2 & (P2 & F2 & C2 & A2 & W2) & D2).
  rewrite D1, D2.
  destruct (modregrm_spec s2 b P2 W2) as [_ Q].
  rewrite decode_modregrm by assumption.
  rewrite modregrm_unassigned by (rewrite F2; exact Hreg).
  cbn [outcome]. unfold count, instruction, decoder. cbn [fst snd].
  rewrite C2, A2. repeat split; lia.
Qed.

Lemma group_decode_rejects_witness :
  decode Model.i80286 (initial 2) [xf0; x26; x0f; x01; x08; x90] =
  ((5, InstructionT_default), initial 2).
Proof.
  pose proof (group_decode_rejects Model.i80286 2 [xf0; x26] [x0f; x01]
                ModRegRMFormat.MemRegSGDT_to_LMSW x08 [x90]) as H.
  cbv zeta in H.
  destruct H as (Hc & _ & Hi & _ & Hd).
  - repeat constructor.
  - vm_compute. tauto.
  - vm_compute. reflexivity.
  - cbn [app] in *.
    destruct (decode Model.i80286 (initial 2) [xf0; x26; x0f; x01; x08; x90])
      as [[c i] d].
    unfold count, instruction, decoder in *. cbn [fst snd] in *.
    subst. reflexivity.
Defined.

(** ** ModRegRM addressing *)

(** C2, on the code.  For mod 0, 1 and 2 the operand is Indirect, the
    base and index are those of [rm_table] and mod is the number of
    displacement bytes, for every rm; rm 6 with mod 0 is no exception,
    so that 0x8B 0x06 0x34 0x12 is posted after two bytes as a move from
    the address in BP, without displacement. *)
Theorem modregrm_memory_operand :
  (forall rm s,
     memreg_of 0 rm s = Continue (set_sib_ (rm_table rm) s, Source.Indirect)
     /\ memreg_of 1 rm s =
        Continue (set_sib_ (rm_table rm) (set_displacement_size_ 1 s), Source.Indirect)
     /\ memreg_of 2 rm s =
        Continue (set_sib_ (rm_table rm) (set_displacement_size_ 2 s), Source.Indirect))
  /\ rm_table 6 = ScaleIndexBase_of 0 Source.None Source.eBP
  /\ (forall m a,
        decode m (initial a) [x8b; x06; x34; x12] =
        ((2, mkInstruction Operation.MOV Source.Indirect Source.eAX
               (ScaleIndexBase_of 0 Source.None Source.eBP)
               false a Source.None Repetition.None 2 0 0),
         initial a)).
Proof.
  split; [intros; repeat split|]. split; [reflexivity|].
  intros. vm_compute. reflexivity.
Qed.

(** * Further properties *)

(** ** Buffers

    X1.  After any series of calls on a fresh decoder, a call with an
    empty buffer returns the count 0 with the default instruction and
    leaves the decoder as it is. *)
Theorem empty_buffer (m : Model.t) (a : Z) (calls : list (list byte)) :
  let s := after_calls m (initial a) calls in
  decode m s [] = ((0, InstructionT_default), s).
Proof.
  intros s. destruct (after_calls_initial m a calls) as [[_ W] _].
  rewrite decode_nil. apply post_waiting. exact W.
Qed.

(** X2.  After any series of calls on a fresh decoder, [consumed_] is
    not negative.  A call that posts returns a count that exceeds it by at
    least one byte and by no more than the buffer holds, and leaves it 0;
    a call that does not post adds the length of the whole buffer to it. *)
Theorem byte_accounting (m : Model.t) (a : Z) (calls : list (list byte)) (src : list byte) :
  let s := after_calls m (initial a) calls in
  let r := decode m s src in
  0 <= consumed_ s
  /\ (0 < count r ->
      consumed_ s < count r <= consumed_ s + Z.of_nat (length src)
      /\ consumed_ (decoder r) = 0)
  /\ (count r <= 0 ->
      consumed_ (decoder r) = consumed_ s + Z.of_nat (length src)).
Proof.
  intros s r. destruct (after_calls_initial m a calls) as [B _]. fold s in B.
  split; [apply B|].
  pose proof (decode_call m src s B) as C. cbv zeta in C. fold r in C.
  destruct C as [(Hp & Hd & Hc)|(Hn & _ & Hc & _)].
  - split; [|intros; lia]. intros _. split; [exact Hc|]. rewrite Hd. reflexivity.
  - split; [intros; lia|]. intros _. exact Hc.
Qed.

(** X3.  A call that posts depends on no byte after the instruction: with
    the buffer cut where the instruction ends, after [count - consumed_]
    bytes, and any other bytes in place of the rest, the call returns the
    same count, instruction and decoder. *)
Theorem only_the_instruction_bytes (m : Model.t) (a : Z) (calls : list (list byte))
    (src other : list byte) :
  let s := after_calls m (initial a) calls in
  let r := decode m s src in
  0 < count r ->
  decode m s (firstn (Z.to_nat (count r - consumed_ s)) src ++ other) = r.
Proof.
  intros s r H. destruct (after_calls_initial m a calls) as [B _]. fold s in B.
  pose proof (instruction_bytes m src s B H) as E. fold r in E.
  rewrite trailing_bytes; [exact E|exact B|]. rewrite E. exact H.
Qed.

Lemma only_the_instruction_bytes_witness :
  decode Model.i8086 (after_calls Model.i8086 (initial 2) [[xf3]]) [xaa; x90; x90]
  = decode Model.i8086 (after_calls Model.i8086 (initial 2) [[xf3]]) [xaa; xcc].
Proof.
  symmetry.
  apply (only_the_instruction_bytes Model.i8086 2 [[xf3]] [xaa; x90; x90] [xcc]).
  vm_compute. reflexivity.
Defined.

(** ** Prefixes

    X4.  A buffer that starts with prefix bytes is decoded as its rest is
    by the decoder that has counted them, with the lock if one of them is
    0xF0, and the last segment override and the last repetition among
    them.  The prefixes alone post nothing and leave that decoder; NOP
    after them is posted with their number plus one as its count, and
    with the lock, the segment and the repetition. *)
Theorem prefixes_accumulate (m : Model.t) (a : Z) (ps tail : list byte) :
  Forall (fun p => is_prefix p = true) ps ->
  decode m (initial a) (ps ++ tail) = decode m (after_prefixes a ps) tail
  /\ decode m (initial a) ps = ((0, InstructionT_default), after_prefixes a ps)
  /\ decode m (initial a) (ps ++ x90 :: tail) =
     ((Z.of_nat (length ps) + 1,
       mkInstruction Operation.NOP Source.None Source.None ScaleIndexBase_default
         (lock_of ps) a (segment_of ps) (repetition_of ps) 0 0 0),
      initial a).
Proof.
  intros Hp.
  assert (E : forall tail,
            decode m (initial a) (ps ++ tail) = decode m (after_prefixes a ps) tail).
  { intros t. apply (decode_after_prefixes m a ps Hp [] t). }
  split; [apply E|]. split.
  - rewrite <- (app_nil_r ps) at 1. rewrite E, decode_nil. reflexivity.
  - rewrite E, decode_instruction by reflexivity.
    change (step_opcode m (after_prefixes a ps) x90)
      with (Continue (Complete Operation.NOP Source.None Source.None 0
                        (set_consumed_ (Z.of_nat (length ps) + 1)
                           (set_instr_ x90 (after_prefixes a ps))))).
    cbn [outcome]. rewrite decode_ready by reflexivity. reflexivity.
Qed.

Lemma prefixes_accumulate_witness :
  decode Model.i8086 (initial 2) [x26; xf0; xf2; x3e; xf3; xf0; x90] =
  ((7, mkInstruction Operation.NOP Source.None Source.None ScaleIndexBase_default
         true 2 Source.DS Repetition.RepE 0 0 0),
   initial 2).
Proof.
  destruct (prefixes_accumulate Model.i8086 2 [x26; xf0; xf2; x3e; xf3; xf0] [])
    as (_ & _ & H).
  - repeat constructor.
  - exact H.
Defined.

(** X5.  Whatever follows the prefixes, an instruction that the same call
    posts is the default one, or it has the lock, the segment override and
    the repetition that the prefixes say. *)
Theorem prefixes_carried (m : Model.t) (a : Z) (ps : list byte) (b : byte)
    (tail : list byte) :
  Forall (fun p => is_prefix p = true) ps ->
  is_prefix b = false ->
  let r := decode m (initial a) (ps ++ b :: tail) in
  0 < count r ->
  instruction r = InstructionT_default
  \/ (lock (instruction r) = lock_of ps
      /\ segment_override (instruction r) = segment_of ps
      /\ repetition (instruction r) = repetition_of ps).
Proof.
  intros Hps Hb. cbv zeta.
  change (initial a) with (after_prefixes a []).
  rewrite (decode_after_prefixes m a ps Hps [] (b :: tail)). cbn [app].
  set (s := after_prefixes a ps).
  assert (W : waiting s) by (repeat split; reflexivity || lia).
  assert (C : 0 <= consumed_ s) by (cbn; lia).
  rewrite decode_instruction by reflexivity.
  pose proof (opcode_spec m s b eq_refl W) as S.
  destruct (opcode_keeps_prefixes m s b Hb) as [K P].
  destruct (step_opcode m s b) as [r s'|s'];
    cbn [step_spec keeps_prefixes outcome] in *.
  - intros _. left. exact K.
  - destruct S as (Ec & _ & [R|W']).
    + rewrite decode_ready, post_ready by assumption.
      intros _. right. unfold instruction, instruction_of.
      cbn [fst snd lock segment_override repetition]. exact K.
    + apply (decode_by_first_byte m
               (fun s => phase_ s <> Phase.Instruction
                         /\ prefixes_are (lock_of ps) (segment_of ps) (repetition_of ps) s)
               (posts_with (lock_of ps) (segment_of ps) (repetition_of ps))).
      * intros s0 _ _. unfold posts_with, count. cbn. lia.
      * intros s0 b0 [I1 I2] B0. apply first_byte_carries; assumption.
      * split; [apply P; reflexivity|exact K].
      * split; [lia|exact W'].
Qed.

Lemma prefixes_carried_witness :
  let r := decode Model.i8086 (initial 2) [xf0; x2e; x01; x46; x10] in
  lock (instruction r) = true /\ segment_override (instruction r) = Source.CS.
Proof.
  intros r.
  destruct (prefixes_carried Model.i8086 2 [xf0; x2e] x01 [x46; x10]) as [H|(H1 & H2 & _)].
  - repeat constructor.
  - reflexivity.
  - vm_compute. reflexivity.
  - vm_compute in H. discriminate H.
  - split; [exact H1|exact H2].
Defined.

(** ** Models

    X6.  Let [base] be the 8086 or the 80186 and [m] the same or a later
    model.  A stream, cut into chunks in any way, that the decoder of
    [base] takes without posting the default instruction, leaves the
    caller of the decoder of [m] with the same posted results, the same
    decoder and the same pending bytes. *)
Theorem older_streams_decode_alike (base m : Model.t) (a : Z) (chunks : list (list byte)) :
  extends base m = true ->
  Forall accepted (posted (drive base a chunks)) ->
  drive m a chunks = drive base a chunks.
Proof.
  intros E F. rewrite !drive_by_bytes in *.
  apply by_bytes_compatible; [exact E|apply in_step_start|exact F].
Qed.

Lemma older_streams_decode_alike_witness :
  posted (drive Model.i80386 2 [[x26; x8b]; [x46; x10; xc3]])
  = posted (drive Model.i8086 2 [[x26; x8b]; [x46; x10; xc3]]).
Proof.
  rewrite (older_streams_decode_alike Model.i8086 Model.i80386 2
             [[x26; x8b]; [x46; x10; xc3]]).
  - reflexivity.
  - reflexivity.
  - vm_compute. repeat constructor; discriminate.
Defined.

(** ** Sizes

    X7.  After any series of calls on a fresh decoder: when the ModRegRM
    byte is due, [operation_size_] is 0, 1 or 2, an index of [reg_table];
    when displacement or operand bytes are due, there are at most two of
    displacement and four of operand, and between one and six are
    outstanding; and no call returns a count below -5. *)
Theorem sizes_bounded (m : Model.t) (a : Z) (calls : list (list byte)) (src : list byte) :
  let s := after_calls m (initial a) calls in
  (phase_ s = Phase.ModRegRM -> 0 <= operation_size_ s <= 2)
  /\ (phase_ s = Phase.DisplacementOrOperand ->
      0 <= displacement_size_ s <= 2 /\ 0 <= operand_size_ s <= 4
      /\ 0 < outstanding s <= 6)
  /\ -5 <= count (decode m s src).
Proof.
  intros s. pose proof (after_calls_tight m a calls) as T. fold s in T.
  destruct (after_calls_initial m a calls) as [B _]. fold s in B.
  split; [|split].
  - intros P. unfold tight in T. rewrite P in T. lia.
  - intros P. unfold tight in T. rewrite P in T. unfold outstanding. lia.
  - apply (decode_by_first_byte m tight (fun r => -5 <= count r)); try assumption.
    + intros. cbn. lia.
    + intros s0 b I0 B0. apply first_byte_tight; assumption.
Qed.

Lemma sizes_bounded_witness :
  0 < outstanding (after_calls Model.i8086 (initial 2) [[xff; x9e]]) <= 6
  /\ count (decode Model.i8086 (after_calls Model.i8086 (initial 2) [[xff]]) [x9e; x00]) = -5.
Proof.
  split; [|vm_compute; reflexivity].
  destruct (sizes_bounded Model.i8086 2 [[xff; x9e]] []) as (_ & H & _).
  apply H. vm_compute. reflexivity.
Defined.

(** ** The operation of a posted instruction

    X8.  After any series of calls on a fresh decoder, an instruction that
    a call posts is the default one, or its operation is neither
    [Invalid], the placeholder of the group opcodes, nor [Undefined]. *)
Theorem placeholder_never_posted (m : Model.t) (a : Z) (calls : list (list byte))
    (src : list byte) :
  let r := decode m (after_calls m (initial a) calls) src in
  0 < count r ->
  instruction r = InstructionT_default
  \/ (operation (instruction r) <> Operation.Invalid
      /\ operation (instruction r) <> Operation.Undefined).
Proof.
  intros r H.
  assert (Q : instruction r = InstructionT_default
              \/ named (operation (instruction r)) = true).
  { revert H. unfold r.
    apply (decode_by_first_byte m settled
             (fun r => 0 < count r ->
                       instruction r = InstructionT_default
                       \/ named (operation (instruction r)) = true)).
    - intros s _ _. cbn. lia.
    - intros s b T B. apply first_byte_settled; assumption.
    - apply after_calls_settled.
    - apply after_calls_initial. }
  destruct Q as [Q|Q]; [left; exact Q|right].
  destruct (operation (instruction r)); try discriminate Q; split; discriminate.
Qed.

Lemma placeholder_never_posted_witness :
  operation (instruction (decode Model.i8086 (after_calls Model.i8086 (initial 2) [[x80]])
                            [xc0; x01])) <> Operation.Invalid.
Proof.
  destruct (placeholder_never_posted Model.i8086 2 [[x80]] [xc0; x01]) as [H|[H _]].
  - vm_compute. reflexivity.
  - vm_compute in H. discriminate H.
  - exact H.
Defined.

(** ** The bytes of displacements and operands

    X9.  When a decoder reached by any series of calls waits for its
    displacement and operand bytes, has none of them yet, and the operand
    is of two bytes at most, a buffer that brings them all posts the
    instruction: the count is [consumed_] plus their number, the
    displacement is the displacement bytes read least significant byte
    first as an [int8_t] or [int16_t], and the operand is the operand
    bytes read least significant byte first, a single byte being
    sign-extended when the operation size is 2 and the operation is neither
    IN nor OUT. *)
Theorem operands_little_endian (m : Model.t) (a : Z) (calls : list (list byte))
    (ds os rest : list byte) :
  let s := after_calls m (initial a) calls in
  phase_ s = Phase.DisplacementOrOperand ->
  operand_bytes_ s = 0 ->
  Z.of_nat (length ds) = displacement_size_ s ->
  Z.of_nat (length os) = operand_size_ s ->
  operand_size_ s <= 2 ->
  let r := decode m s (ds ++ os ++ rest) in
  count r = consumed_ s + displacement_size_ s + operand_size_ s
  /\ displacement (instruction r) = signed_le ds
  /\ operand (instruction r) =
     match os with
     | [b] => if (operation_size_ s =? 2) && not_port_io (operation_ s)
              then sign_extended b else byte_value b
     | _ => le_value os
     end.
Proof.
  intros s P Hob Lds Los Bos r.
  pose proof (after_calls_tight m a calls) as T. fold s in T.
  unfold tight in T. rewrite P in T.
  pose proof (after_calls_in_uint64 m a calls) as U. fold s in U.
  destruct (operand_values m s ds os rest) as (Hc & Hd & Ho);
    try assumption; try lia.
  fold r in Hc, Hd, Ho. split; [|split; assumption].
  rewrite Hc. lia.
Qed.

Lemma operands_little_endian_witness :
  let r := decode Model.i8086 (after_calls Model.i8086 (initial 2) [[x81; x46]])
             [xfe; x34; x12] in
  displacement (instruction r) = -2 /\ operand (instruction r) = 0x1234.
Proof.
  intros r.
  destruct (operands_little_endian Model.i8086 2 [[x81; x46]] [xfe] [x34; x12] [])
    as (_ & Hd & Ho); try (vm_compute; reflexivity).
  - vm_compute. discriminate.
  - cbn [app] in Hd, Ho. subst r.
    split; [rewrite Hd|rewrite Ho]; vm_compute; reflexivity.
Defined.

(** X10.  With an operand of four bytes, the far pointer of CALLF and
    JMPF, the first two of the four bytes are posted as the displacement,
    an [int16_t], and the last two as the operand, each least significant
    byte first; displacement bytes that precede them are dropped. *)
Theorem far_operands (m : Model.t) (a : Z) (calls : list (list byte))
    (ds : list byte) (p1 p2 p3 p4 : byte) (rest : list byte) :
  let s := after_calls m (initial a) calls in
  phase_ s = Phase.DisplacementOrOperand ->
  operand_bytes_ s = 0 ->
  Z.of_nat (length ds) = displacement_size_ s ->
  operand_size_ s = 4 ->
  let r := decode m s (ds ++ p1 :: p2 :: p3 :: p4 :: rest) in
  count r = consumed_ s + displacement_size_ s + 4
  /\ displacement (instruction r) = int16 (byte_value p1 + 256 * byte_value p2)
  /\ operand (instruction r) = byte_value p3 + 256 * byte_value p4.
Proof.
  intros s P Hob Lds Los r.
  pose proof (after_calls_tight m a calls) as T. fold s in T.
  unfold tight in T. rewrite P in T.
  pose proof (after_calls_in_uint64 m a calls) as U. fold s in U.
  destruct (far_operand_values m s ds p1 p2 p3 p4 rest) as (Hc & Hd & Ho);
    try assumption; try lia.
  fold r in Hc, Hd, Ho. split; [|split; assumption].
  rewrite Hc. lia.
Qed.

Lemma far_operands_witness :
  let r := decode Model.i8086 (after_calls Model.i8086 (initial 2) [[xea]])
             [x00; x7c; x00; xf0] in
  displacement (instruction r) = 0x7c00 /\ operand (instruction r) = 0xf000.
Proof.
  intros r.
  destruct (far_operands Model.i8086 2 [[xea]] [] x00 x7c x00 xf0 [])
    as (_ & Hd & Ho); try (vm_compute; reflexivity).
  cbn [app] in Hd, Ho. subst r.
  split; [rewrite Hd|rewrite Ho]; vm_compute; reflexivity.
Defined.

(** ** Whole instructions

    X11.  On every model, the conditional jumps 0x70 to 0x7F, the loops 0xE0
    to 0xE3 and the short jump 0xEB take one more byte and are posted with
    the count 2, the operation of the opcode, that byte as a signed
    displacement and the operand 0; the decoder is then as at
    construction. *)
Theorem short_jump_displacement (m : Model.t) (a : Z) (op : byte) (o : Operation.t)
    (d : byte) (rest : list byte) :
  In (op, o) short_jumps ->
  let r := decode m (initial a) (op :: d :: rest) in
  count r = 2
  /\ operation (instruction r) = o
  /\ displacement (instruction r) = int8 (byte_value d)
  /\ operand (instruction r) = 0
  /\ decoder r = initial a.
Proof.
  intros Hin. cbv zeta.
  rewrite decode_instruction by reflexivity.
  unfold short_jumps in Hin. cbn [In] in Hin.
  repeat match type of Hin with
         | _ \/ _ => destruct Hin as [Hin|Hin]
         end; try contradiction Hin; injection Hin as <- <-;
    exact (decode_jump m a _ _ d rest).
Qed.

Lemma short_jump_displacement_witness :
  displacement (instruction (decode Model.i8086 (initial 2) [xeb; xfe])) = -2.
Proof.
  destruct (short_jump_displacement Model.i8086 2 xeb Operation.JMPN xfe [])
    as (_ & _ & H & _).
  - vm_compute. tauto.
  - rewrite H. vm_compute. reflexivity.
Defined.

(** X12.  On every model, 0xB0 to 0xB7 with one byte and 0xB8 to 0xBF with
    two are posted as MOV with an immediate source, the register that the
    low three bits of the opcode select in [reg_table] for the size 1 or 2
    as destination, and the bytes read least significant byte first,
    without sign extension, as operand. *)
Theorem mov_register_immediate (m : Model.t) (a : Z) (op : byte) (imm rest : list byte) :
  0xb0 <= byte_value op <= 0xbf ->
  let size := if 0xb8 <=? byte_value op then 2 else 1 in
  Z.of_nat (length imm) = size ->
  let r := decode m (initial a) (op :: imm ++ rest) in
  count r = 1 + size
  /\ operation (instruction r) = Operation.MOV
  /\ source (instruction r) = Source.Immediate
  /\ destination (instruction r) = reg_table size (Z.land (byte_value op) 7)
  /\ operation_size (instruction r) = size
  /\ operand (instruction r) = le_value imm
  /\ decoder r = initial a.
Proof.
  intros Hop size L. cbv zeta.
  rewrite decode_instruction by reflexivity.
  destruct op; vm_compute in Hop; destruct Hop as [H1 H2];
    try (exfalso; apply H1; reflexivity); try (exfalso; apply H2; reflexivity);
    clear H1 H2;
    refine (decode_reg_data m a _ Operation.MOV _ size imm rest _ L);
    vm_compute; tauto.
Qed.

Lemma mov_register_immediate_witness :
  let r := decode Model.i8086 (initial 2) [xbe; x34; x12; x90] in
  destination (instruction r) = Source.eSI /\ operand (instruction r) = 0x1234.
Proof.
  intros r.
  destruct (mov_register_immediate Model.i8086 2 xbe [x34; x12] [x90])
    as (_ & _ & _ & Hd & _ & Ho & _).
  - vm_compute. split; discriminate.
  - reflexivity.
  - cbn [app] in Hd, Ho. subst r. split; [rewrite Hd|rewrite Ho]; reflexivity.
Defined.

(** X13.  On every model, 0xE4 to 0xE7 with a port byte are posted with
    the count 2 as IN (0xE4, 0xE5) or OUT (0xE6, 0xE7), of size 1 for the
    even and 2 for the odd opcodes, and with the port byte as operand,
    never sign-extended. *)
Theorem port_number_unsigned (m : Model.t) (a : Z) (op p : byte) (rest : list byte) :
  In op [xe4; xe5; xe6; xe7] ->
  let r := decode m (initial a) (op :: p :: rest) in
  count r = 2
  /\ operation (instruction r) =
     (if Z.land (byte_value op) 2 =? 0 then Operation.IN else Operation.OUT)
  /\ operation_size (instruction r) = 1 + Z.land (byte_value op) 1
  /\ operand (instruction r) = byte_value p
  /\ decoder r = initial a.
Proof.
  intros Hin. cbv zeta.
  rewrite decode_instruction by reflexivity.
  cbn [In] in Hin.
  repeat match type of Hin with
         | _ \/ _ => destruct Hin as [Hin|Hin]
         end; try contradiction Hin; subst op;
    match goal with
    | |- context [outcome (step_opcode m (initial a) ?op) _] =>
        let f := eval cbv in (step_opcode m (initial a) op) in
        match f with
        | Continue ?s =>
            change (step_opcode m (initial a) op) with (Continue s); cbn [outcome];
            destruct (operand_values m s [] [p] rest) as (Hc & _ & Ho);
              try reflexivity; try (cbn; lia);
            destruct (decode_operands_frame m s [p] rest) as (Fo & _ & _ & _ & Fz & Fd);
              try reflexivity
        end
    end;
    cbn [app] in *; repeat split; assumption.
Qed.

Lemma port_number_unsigned_witness :
  operand (instruction (decode Model.i8086 (initial 2) [xe5; xff])) = 0xff.
Proof.
  destruct (port_number_unsigned Model.i8086 2 xe5 xff []) as (_ & _ & _ & H & _).
  - vm_compute. tauto.
  - exact H.
Defined.

(** X14.  0xC8 with three bytes: the 8086 rejects the opcode, with the
    count 1 and the default instruction; the later models post ENTER with
    the count 4, the first two bytes, least significant first, as an
    [int16_t] displacement and the third byte, as it is, as operand. *)
Theorem enter_operands (m : Model.t) (a : Z) (d1 d2 o : byte) (rest : list byte) :
  let r := decode m (initial a) (xc8 :: d1 :: d2 :: o :: rest) in
  if Model.ltb m Model.i80186
  then r = ((1, InstructionT_default), initial a)
  else count r = 4
       /\ operation (instruction r) = Operation.ENTER
       /\ displacement (instruction r) = int16 (byte_value d1 + 256 * byte_value d2)
       /\ operand (instruction r) = byte_value o
       /\ decoder r = initial a.
Proof.
  cbv zeta. rewrite decode_instruction by reflexivity.
  destruct m; [reflexivity| | |]; exact (decode_enter _ a d1 d2 o rest).
Qed.

(** X15.  On every model, a word-sized opcode of the form [reg, mem/reg]
    (0x03, 0x0B, 0x13, 0x1B, 0x23, 0x2B, 0x33, 0x3B, 0x87, 0x8B, 0x8D, 0xC4,
    0xC5) with a ModRegRM byte of mod 1 or 2 and as many displacement bytes
    is posted with the count 2 + mod, an Indirect source on the base and
    index of [rm_table], the register of the reg field as destination, and
    the displacement bytes read least significant byte first as a signed
    number. *)
Theorem memory_operand_displacement (m : Model.t) (a : Z) (op : byte)
    (o : Operation.t) (b : byte) (ds rest : list byte) :
  In (op, o) word_loads ->
  mod_field b = 1 \/ mod_field b = 2 ->
  Z.of_nat (length ds) = mod_field b ->
  let r := decode m (initial a) (op :: b :: ds ++ rest) in
  count r = 2 + mod_field b
  /\ operation (instruction r) = o
  /\ source (instruction r) = Source.Indirect
  /\ destination (instruction r) = reg_table 2 (reg_field b)
  /\ effective_address (instruction r) = rm_table (rm_field b)
  /\ displacement (instruction r) = signed_le ds
  /\ operand (instruction r) = 0
  /\ decoder r = initial a.
Proof.
  intros Hin Hmod L. cbv zeta.
  rewrite decode_instruction by reflexivity.
  unfold word_loads in Hin. cbn [In] in Hin.
  repeat match type of Hin with
         | _ \/ _ => destruct Hin as [Hin|Hin]
         end; try contradiction Hin; injection Hin as <- <-;
    exact (decode_word_load_memory m a _ _ b ds rest Hmod L).
Qed.

Lemma memory_operand_displacement_witness :
  let r := decode Model.i8086 (initial 2) [x8b; x46; xfe] in
  displacement (instruction r) = -2
  /\ effective_address (instruction r) = ScaleIndexBase_of 0 Source.None Source.eBP.
Proof.
  intros r.
  destruct (memory_operand_displacement Model.i8086 2 x8b Operation.MOV x46 [xfe] [])
    as (_ & _ & _ & _ & He & Hd & _).
  - vm_compute. tauto.
  - left. reflexivity.
  - reflexivity.
  - cbn [app] in He, Hd. subst r. split; [rewrite Hd|rewrite He]; reflexivity.
Defined.

(** X16.  The same opcodes with a ModRegRM byte of mod 3: LES and LDS are
    rejected, with the count 2 and the default instruction; the others
    are posted with the count 2, the register of the rm field as source
    and the register of the reg field as destination.  The decoder is as
    at construction in both cases. *)
Theorem register_operand_or_rejection (m : Model.t) (a : Z) (op : byte)
    (o : Operation.t) (b : byte) (rest : list byte) :
  In (op, o) word_loads ->
  mod_field b = 3 ->
  let r := decode m (initial a) (op :: b :: rest) in
  if memory_only o
  then r = ((2, InstructionT_default), initial a)
  else r = ((2, mkInstruction o (reg_table 2 (rm_field b)) (reg_table 2 (reg_field b))
                  ScaleIndexBase_default false a Source.None Repetition.None 2 0 0),
            initial a).
Proof.
  intros Hin Hmod. cbv zeta.
  rewrite decode_instruction by reflexivity.
  unfold word_loads in Hin. cbn [In] in Hin.
  repeat match type of Hin with
         | _ \/ _ => destruct Hin as [Hin|Hin]
         end; try contradiction Hin; injection Hin as <- <-;
    match goal with
    | |- if memory_only ?o then outcome (step_opcode _ _ ?op) _ = _ else _ =>
        exact (decode_word_load_register m a op o b rest Hmod)
    end.
Qed.

Lemma register_operand_or_rejection_witness :
  decode Model.i8086 (initial 2) [xc4; xc1] = ((2, InstructionT_default), initial 2)
  /\ source (instruction (decode Model.i8086 (initial 2) [x8b; xc1])) = Source.eCX.
Proof.
  split.
  - apply (register_operand_or_rejection Model.i8086 2 xc4 Operation.LES xc1 []).
    + vm_compute. tauto.
    + reflexivity.
  - pose proof (register_operand_or_rejection Model.i8086 2 x8b Operation.MOV xc1 []) as H.
    cbv zeta in H. cbn [memory_only] in H. rewrite H.
    + reflexivity.
    + vm_compute. tauto.
    + reflexivity.
Defined.

(** X17.  0xD0 and 0xD1 with a ModRegRM byte whose reg field is not 1,
    and the displacement bytes that its mod field asks for, are posted
    with the operation of the reg field (0 ROL, 2 ROR, 3 RCL, 4 RCR, 5 SAL,
    6 SHR, 7 SAR), an immediate source, and the register of the rm field
    (mod 3) or Indirect as destination.  The operand is the 1 that the
    opcode sets when no displacement follows (mod 0 and 3); when a
    displacement follows (mod 1 and 2), the operand is 0. *)
Theorem shift_by_one (m : Model.t) (a : Z) (op : byte) (o : Operation.t)
    (b : byte) (ds rest : list byte) :
  op = xd0 \/ op = xd1 ->
  rotation (reg_field b) = Some o ->
  Z.of_nat (length ds) = displacement_bytes b ->
  let r := decode m (initial a) (op :: b :: ds ++ rest) in
  count r = 2 + displacement_bytes b
  /\ operation (instruction r) = o
  /\ source (instruction r) = Source.Immediate
  /\ destination (instruction r) =
     (if mod_field b =? 3 then reg_table (1 + Z.land (byte_value op) 1) (rm_field b)
      else Source.Indirect)
  /\ operation_size (instruction r) = 1 + Z.land (byte_value op) 1
  /\ displacement (instruction r) = signed_le ds
  /\ operand (instruction r) = (if displacement_bytes b =? 0 then 1 else 0)
  /\ decoder r = initial a.
Proof.
  intros Hop R L. cbv zeta.
  rewrite decode_instruction by reflexivity.
  pose proof (decode_shift_by_one m a op o b ds rest Hop R L) as H. cbv zeta in H.
  destruct Hop as [-> | ->]; exact H.
Qed.

Lemma shift_by_one_witness :
  operand (instruction (decode Model.i8086 (initial 2) [xd1; xe0])) = 1
  /\ operand (instruction (decode Model.i8086 (initial 2) [xd1; x66; x10])) = 0.
Proof.
  split.
  - destruct (shift_by_one Model.i8086 2 xd1 Operation.RCR xe0 [] [])
      as (_ & _ & _ & _ & _ & _ & H & _).
    + right. reflexivity.
    + reflexivity.
    + reflexivity.
    + exact H.
  - destruct (shift_by_one Model.i8086 2 xd1 Operation.RCR x66 [x10] [])
      as (_ & _ & _ & _ & _ & _ & H & _).
    + right. reflexivity.
    + reflexivity.
    + reflexivity.
    + exact H.
Defined.
